(** * Iris overlay maintenance and heartbeat: a shallow embedding

    The development follows three Go sources of the Iris messaging framework:
    - [heart/heart.go]: the liveness monitor ([Heart], [Monitor], [Unmonitor],
      [Ping] and the [beater] cycle);
    - [proto/overlay/maintenance.go]: routing-table maintenance ([merge],
      [mergeLeaves], [discover], [revoke], [changed], [beater], [active]);
    - [ext/sortext/search.go]: [SearchBigInts] and [SearchBigRats], and the
      overlay's messages ([sendWrap], [sendJoin], [sendState], [sendBeat]).

    Identifiers ([*big.Int]) are unbounded integers [Z].  Go's machine [int]
    (the heart's tick counter) is a [Z] with its 64-bit wrap-around written
    out.  Slices are lists; an index or slice expression that Go would reject
    at run time is a [Fault]. *)

From Stdlib Require Import ZArith List Bool Lia Sorted Permutation Ascii.
From stdpp Require Import base tactics option list sorting strings pretty gmap.

Set Default Proof Using "Type".

(** ** Results of fallible code *)

(** The ways the modelled code can stop without returning. *)
Inductive fault : Type :=
| IndexOutOfRange        (* a[i] with i outside 0..len(a)-1 *)
| SliceBoundsOutOfRange  (* a[i:j] with i > j or j > len(a) *)
| Deadlock               (* Lock on a mutex the caller already holds *)
| UnlockOfUnlocked.      (* Unlock on a mutex that is not held *)

Inductive result (A : Type) : Type :=
| Ok (x : A)
| Fault (f : fault).
Arguments Ok {A} x.
Arguments Fault {A} f.

Global Instance result_ret : MRet result := λ A x, Ok x.
Global Instance result_bind : MBind result := λ A B k m,
  match m with
  | Ok x => k x
  | Fault f => Fault f
  end.

Definition is_Ok {A : Type} (m : result A) : Prop := ∃ x, m = Ok x.

(** [a[i]] on a slice. *)
Definition index {A : Type} (a : list A) (i : nat) : result A :=
  match a !! i with
  | Some x => Ok x
  | None => Fault IndexOutOfRange
  end.

(** The idiom [a[idx] = a[last]; a = a[:last]] removes the element at [idx],
    up to the order. *)
Lemma swap_with_last_perm {A : Type} (l : list A) (idx : nat) (m : A) :
  (idx < length l)%nat →
  l !! (length l - 1)%nat = Some m →
  take (length l - 1) (<[idx := m]> l) ≡ₚ delete idx l.
Proof.
  intros Hidx Hlast.
  destruct (lookup_lt_is_Some_2 l idx Hidx) as [x Hx].
  set (l2 := <[idx := m]> l).
  assert (length l2 = length l) as Hlen by apply length_insert.
  assert (l2 !! (length l - 1)%nat = Some m) as Hlast2.
  { unfold l2. destruct (decide (idx = (length l - 1)%nat)) as [->|Hne].
    - by apply list_lookup_insert_eq.
    - by rewrite list_lookup_insert_ne. }
  assert (delete idx l2 = delete idx l) as Hdel.
  { unfold l2. rewrite !delete_take_drop.
    rewrite take_insert_ge by lia. rewrite drop_insert_lt by lia. done. }
  assert (l2 = take (length l - 1) l2 ++ [m]) as Hsplit.
  { rewrite <- (take_drop (length l - 1) l2) at 1. f_equal.
    apply list_eq. intros i. rewrite lookup_drop.
    destruct i as [|i]; simpl.
    - by rewrite Nat.add_0_r.
    - apply lookup_ge_None_2. lia. }
  apply (Permutation_cons_inv (a := m)).
  rewrite <- Hdel.
  rewrite <- (delete_Permutation l2 idx m)
    by (unfold l2; by apply list_lookup_insert_eq).
  rewrite Hsplit at 2. by rewrite Permutation_app_comm.
Qed.

(** ** Go's [sort] package *)

Module GoSort.

(** [x] may stand before [y] in a slice sorted by [less]: [y] is not [Less]
    than [x]. *)
Definition not_after {A : Type} (less : A → A → bool) : relation A :=
  λ x y, less y x = false.

Global Instance not_after_dec {A : Type} (less : A → A → bool) (x y : A) :
  Decision (not_after less x y).
Proof. unfold not_after. apply _. Defined.

(** [sort.Sort(data)]: [data] rearranged into an order in which no element is
    [Less] than one before it.  Go does not promise stability; for the
    orderings used here (total on the values compared) the sorted sequence of
    values is unique, so a merge sort stands for it. *)
Definition Sort {A : Type} (less : A → A → bool) (data : list A) : list A :=
  merge_sort (not_after less) data.

(** The orderings for which [Sort] is determined by the values sorted:
    irreflexive, transitive, and any two distinct values are ordered. *)
Definition strict_total {A : Type} (less : A → A → bool) : Prop :=
  (∀ x, less x x = false) ∧
  (∀ x y z, less x y = true → less y z = true → less x z = true) ∧
  (∀ x y, less x y = false → less y x = false → x = y).

(** [sort.Search(n, f)]: binary search for the smallest index [i] in [0, n)
    with [f i], or [n].  The loop [for i < j] halves [j - i]; [fuel] bounds
    its iterations. *)
Fixpoint search_loop (fuel : nat) (f : nat → bool) (i j : nat) : nat :=
  match fuel with
  | O => i
  | S fuel' =>
      if bool_decide (i < j) then
        let h := (i + j) `div` 2 in
        if f h then search_loop fuel' f i h
        else search_loop fuel' f (h + 1) j
      else i
  end.

Definition Search (n : nat) (f : nat → bool) : nat := search_loop n f 0 n.

Lemma search_loop_spec (f : nat → bool) (n : nat) :
  (∀ a b, a ≤ b → b < n → f a = true → f b = true) →
  ∀ fuel i j,
    i ≤ j → j ≤ n → j - i ≤ fuel →
    (∀ a, a < i → f a = false) →
    (∀ a, j ≤ a → a < n → f a = true) →
    let k := search_loop fuel f i j in
    k ≤ n ∧ (∀ a, a < k → f a = false) ∧ (∀ a, k ≤ a → a < n → f a = true).
Proof.
  intros Hmono fuel.
  induction fuel as [|fuel IH]; intros i j Hij Hjn Hfuel Hlo Hhi;
    cbn [search_loop].
  - assert (i = j) as -> by lia. auto.
  - case_bool_decide as Hlt; [|assert (i = j) as -> by lia; auto].
    pose proof (Nat.div_mod_eq (i + j) 2) as Hdm.
    pose proof (Nat.mod_upper_bound (i + j) 2) as Hub.
    set (h := (i + j) `div` 2) in *. cbv zeta.
    destruct (f h) eqn:Hf.
    + apply IH; try lia; auto.
      intros a Ha Han. apply (Hmono h); auto.
    + apply IH; try lia; auto.
      intros a Ha.
      destruct (f a) eqn:Hfa; [|done].
      rewrite (Hmono a h) in Hf; [done|lia|lia|done].
Qed.

Lemma Search_spec (n : nat) (f : nat → bool) :
  (∀ a b, a ≤ b → b < n → f a = true → f b = true) →
  Search n f ≤ n ∧
  (∀ a, a < Search n f → f a = false) ∧
  (∀ a, Search n f ≤ a → a < n → f a = true).
Proof.
  intros Hmono. unfold Search.
  apply (search_loop_spec f n Hmono n 0 n); intros; lia.
Qed.

Lemma StronglySorted_lookup_lt {A : Type} (R : relation A) (l : list A) :
  StronglySorted R l →
  ∀ i j a b, l !! i = Some a → l !! j = Some b → (i < j)%nat → R a b.
Proof.
  induction 1 as [|x l Hl IH Hx]; intros i j a b Ha Hb Hij; [done|].
  destruct j as [|j]; [lia|]. simpl in Hb.
  destruct i as [|i]; simpl in Ha.
  - injection Ha as <-. rewrite Forall_forall in Hx.
    apply Hx. by eapply list_elem_of_lookup_2.
  - eapply IH; eauto with lia.
Qed.

Lemma StronglySorted_mono {A : Type} (R R' : relation A) (l : list A) :
  (∀ x y, R x y → R' x y) → StronglySorted R l → StronglySorted R' l.
Proof.
  intros HR. induction 1 as [|x l Hl IH Hx]; constructor; [done|].
  eapply Forall_impl; [done|]. intros y. apply HR.
Qed.

Section Orders.
Context {A : Type} (less : A → A → bool) (Hless : strict_total less).

Lemma less_asym (x y : A) : less x y = true → less y x = false.
Proof using Hless.
  destruct Hless as (Hirr & Htr & _). intros Hxy.
  destruct (less y x) eqn:Hyx; [|done].
  by rewrite <- (Hirr x), (Htr x y x).
Qed.

Lemma less_not_after (x y z : A) :
  less x y = true → not_after less y z → less x z = true.
Proof using Hless.
  destruct Hless as (Hirr & Htr & Htot). unfold not_after. intros Hxy Hzy.
  destruct (less x z) eqn:Hxz; [done|].
  destruct (less z x) eqn:Hzx.
  - by rewrite (Htr z x y) in Hzy.
  - rewrite (Htot x z) in Hxy by done. congruence.
Qed.

Lemma not_after_total : Total (not_after less).
Proof using Hless.
  intros x y. unfold not_after.
  destruct (less y x) eqn:Hyx; [|by left].
  right. by apply less_asym.
Qed.

Lemma not_after_trans : Transitive (not_after less).
Proof using Hless.
  intros x y z Hxy Hyz. unfold not_after in *.
  destruct (less z x) eqn:Hzx; [|done].
  by rewrite (less_not_after z x y) in Hyz.
Qed.

Lemma not_after_antisymm : AntiSymm (=) (not_after less).
Proof using Hless.
  intros x y Hxy Hyx. destruct Hless as (_ & _ & Htot). by apply Htot.
Qed.

Lemma Sort_perm (l : list A) : Sort less l ≡ₚ l.
Proof using Type. apply merge_sort_Permutation. Qed.

Lemma Sort_sorted (l : list A) : StronglySorted (not_after less) (Sort less l).
Proof using Hless.
  apply (@StronglySorted_merge_sort _ _ _ not_after_trans not_after_total).
Qed.


End Orders.

(** The loop of [Search] stays between its bounds, whatever the test. *)
Lemma search_loop_range (f : nat → bool) :
  ∀ fuel i j, i ≤ j → i ≤ search_loop fuel f i j ≤ j.
Proof.
  induction fuel as [|fuel IH]; intros i j Hij; cbn [search_loop]; [lia|].
  case_bool_decide as Hlt; [|lia].
  pose proof (Nat.div_mod_eq (i + j) 2) as Hdm.
  pose proof (Nat.mod_upper_bound (i + j) 2) as Hub.
  set (h := (i + j) `div` 2) in *. cbv zeta.
  destruct (f h).
  - pose proof (IH i h). lia.
  - pose proof (IH (h + 1) j). lia.
Qed.

Lemma Search_le (n : nat) (f : nat → bool) : Search n f ≤ n.
Proof. unfold Search. pose proof (search_loop_range f n 0 n). lia. Qed.

(** [Search] with a test on the elements of a slice sorted by [R], the test
    holding for every element after one for which it holds: the test fails
    before the index found and holds from it on. *)
Lemma Search_sorted {A : Type} (R : relation A) (p : A → bool)
    (a : list A) :
  StronglySorted R a → (∀ x y, R x y → p x = true → p y = true) →
  Forall (λ y, p y = false)
    (take (Search (length a) (λ i, from_option p false (a !! i))) a) ∧
  Forall (λ y, p y = true)
    (drop (Search (length a) (λ i, from_option p false (a !! i))) a).
Proof.
  intros Hs Hp.
  set (f := λ i : nat, from_option p false (a !! i)).
  destruct (Search_spec (length a) f) as (Hle & Hlo & Hhi).
  { intros i j Hij Hj. unfold f.
    destruct (a !! i) as [yi|] eqn:Hi; [|done].
    destruct (lookup_lt_is_Some_2 a j Hj) as [yj Hyj]. rewrite Hyj. simpl.
    destruct (decide (i = j)) as [->|]; [congruence|].
    apply Hp. eapply (StronglySorted_lookup_lt _ _ Hs i j); eauto with lia. }
  set (k := Search (length a) f) in *. split.
  - apply Forall_lookup. intros i y Hi.
    pose proof (lookup_lt_Some _ _ _ Hi) as Hlt.
    rewrite length_take in Hlt.
    rewrite lookup_take_lt in Hi by lia.
    specialize (Hlo i ltac:(lia)). unfold f in Hlo. by rewrite Hi in Hlo.
  - apply Forall_lookup. intros i y Hi. rewrite lookup_drop in Hi.
    pose proof (lookup_lt_Some _ _ _ Hi) as Hlt.
    specialize (Hhi (k + i)%nat ltac:(lia) Hlt). unfold f in Hhi.
    by rewrite Hi in Hhi.
Qed.

End GoSort.

(** ** The liveness monitor: [heart/heart.go] *)

Module Heart.

(** Go's [int] on the 64-bit targets: [tick++] and [tick - m.tick] wrap. *)
Definition wrap (z : Z) : Z := ((z + 2 ^ 63) `mod` 2 ^ 64 - 2 ^ 63)%Z.

(** [&entity{id: id, tick: h.tick}]: a monitored entity and the tick at which
    it was last seen. *)
Record entity : Type := Entity { ent_id : Z; ent_tick : Z }.

(** The two errors of the package: [fmt.Errorf("duplicate entry")] and
    [fmt.Errorf("non-monitored entity")]; [None] is Go's [nil] error. *)
Inductive error : Type := DuplicateEntry | NonMonitored.

(** A call into the heart's exported methods. *)
Inductive api_call : Type :=
| CallMonitor (id : Z)
| CallUnmonitor (id : Z)
| CallPing (id : Z).

(** [type Callback interface { Beat(); Dead(id *big.Int) }].  What an
    application handler may do to the heart is to call back into it, so a
    handler is given by the calls it makes. *)
Record Callback : Type := { Beat : list api_call; Dead : Z → list api_call }.

(** [type Heart struct]: the fields the methods read and write.  [lock] is
    [true] while the mutex is held. *)
Record Heart : Type := mkHeart {
  mems : list entity;
  tick : Z;
  kill : Z;
  call : Callback;
  lock : bool
}.

Definition set_mems (ms : list entity) (h : Heart) : Heart :=
  mkHeart ms (tick h) (kill h) (call h) (lock h).
Definition set_tick (t : Z) (h : Heart) : Heart :=
  mkHeart (mems h) t (kill h) (call h) (lock h).
Definition set_lock (b : bool) (h : Heart) : Heart :=
  mkHeart (mems h) (tick h) (kill h) (call h) b.

(** [New(beat, kill, handler)]: no members, tick 0, mutex free. *)
Definition New (kill : Z) (handler : Callback) : Heart :=
  mkHeart [] 0 kill handler false.

(** What the heart does that can be seen from outside its state: mutex
    operations, the tick counter taking a new value, and the two callbacks
    being invoked. *)
Inductive event : Type :=
| EvLock
| EvUnlock
| EvTick (t : Z)
| EvBeat
| EvDead (id : Z).

Global Instance event_eq_dec : EqDecision event.
Proof. solve_decision. Defined.

(** Heart code threads the heart, may fail, and leaves a trace of events. *)
Definition M (A : Type) : Type := Heart → result (A * Heart * list event).

Global Instance M_ret : MRet M := λ A x h, Ok (x, h, []).
Global Instance M_bind : MBind M := λ A B k m h,
  match m h with
  | Ok (x, h1, tr1) =>
      match k x h1 with
      | Ok (y, h2, tr2) => Ok (y, h2, tr1 ++ tr2)
      | Fault f => Fault f
      end
  | Fault f => Fault f
  end.

Definition get : M Heart := λ h, Ok (h, h, []).
Definition modify (f : Heart → Heart) : M unit := λ h, Ok ((), f h, []).
Definition emit (e : event) : M unit := λ h, Ok ((), h, [e]).
Definition raise {A : Type} (f : fault) : M A := λ _, Fault f.

(** [h.lock.Lock()]: [sync.Mutex] is not reentrant. *)
Definition Lock : M unit := λ h,
  if lock h then Fault Deadlock else Ok ((), set_lock true h, [EvLock]).

(** [h.lock.Unlock()]. *)
Definition Unlock : M unit := λ h,
  if lock h then Ok ((), set_lock false h, [EvUnlock])
  else Fault UnlockOfUnlocked.

(** Modelled from the spec: [entitySlice] is not among the sources; the heart
    keeps its entities "sorted by id ... to allow binary-search lookup", so
    [Less] compares ids and [Search] is [sort.Search] for the first entity
    whose id is not below [id]. *)
Definition entity_less (a b : entity) : bool :=
  bool_decide (ent_id a < ent_id b)%Z.

(** Modelled from the spec: see [entity_less]. *)
Definition Search (ms : list entity) (id : Z) : nat :=
  GoSort.Search (length ms)
    (λ i, from_option (λ m, bool_decide (id ≤ ent_id m)%Z) false (ms !! i)).

(** [idx < len(h.mems) && h.mems[idx].id.Cmp(id) == 0]. *)
Definition found (ms : list entity) (idx : nat) (id : Z) : bool :=
  from_option (λ m, bool_decide (ent_id m = id)) false (ms !! idx).

Definition Monitor (id : Z) : M (option error) :=
  Lock;;
  h ← get;
  let idx := Search (mems h) id in
  if found (mems h) idx id then
    Unlock;; mret (Some DuplicateEntry)
  else
    modify (set_mems (GoSort.Sort entity_less (mems h ++ [Entity id (tick h)])));;
    Unlock;; mret None.

Definition Unmonitor (id : Z) : M (option error) :=
  Lock;;
  h ← get;
  let idx := Search (mems h) id in
  if found (mems h) idx id then
    let last := (length (mems h) - 1)%nat in
    match mems h !! last with
    | Some m =>
        modify (set_mems
          (GoSort.Sort entity_less (take last (<[idx := m]> (mems h)))));;
        Unlock;; mret None
    | None => raise IndexOutOfRange
    end
  else
    Unlock;; mret (Some NonMonitored).

Definition Ping (id : Z) : M (option error) :=
  Lock;;
  h ← get;
  let idx := Search (mems h) id in
  if found (mems h) idx id then
    modify (set_mems
      (alter (λ m, Entity (ent_id m) (tick h)) idx (mems h)));;
    Unlock;; mret None
  else
    Unlock;; mret (Some NonMonitored).

Definition do_call (c : api_call) : M (option error) :=
  match c with
  | CallMonitor id => Monitor id
  | CallUnmonitor id => Unmonitor id
  | CallPing id => Ping id
  end.

(** A handler body: its calls in turn, their error values dropped. *)
Fixpoint do_calls (cs : list api_call) : M unit :=
  match cs with
  | [] => mret ()
  | c :: cs' => do_call c;; do_calls cs'
  end.

(** [h.call.Beat()] and [h.call.Dead(id)]. *)
Definition call_Beat : M unit :=
  emit EvBeat;; h ← get; do_calls (Beat (call h)).
Definition call_Dead (id : Z) : M unit :=
  emit (EvDead id);; h ← get; do_calls (Dead (call h) id).

(** The loop [for _, m := range h.mems] of the beat cycle: the ids of the
    members with [h.tick - m.tick >= h.kill], in the order of [h.mems]. *)
Definition collect (h : Heart) : list Z :=
  ent_id <$>
    filter (λ m, (kill h ≤ wrap (tick h - ent_tick m))%Z) (mems h).

Fixpoint signal (dead : list Z) : M unit :=
  match dead with
  | [] => mret ()
  | id :: dead' => call_Dead id;; signal dead'
  end.

(** One [case <-beat.C] of [beater]. *)
Definition beatCycle : M unit :=
  Lock;;
  h ← get;
  modify (set_tick (wrap (tick h + 1)));;
  emit (EvTick (wrap (tick h + 1)));;
  h' ← get;
  let dead := collect h' in
  Unlock;;
  call_Beat;;
  signal dead.

(** A run of the heart, at the grain of its critical sections: beat cycles
    and calls made by other goroutines.  A call that another goroutine makes
    while the callbacks of a cycle run finds the scratch list collected
    already, and acts on the heart as a call made after the cycle. *)
Inductive step : Type :=
| Cycle
| Call (c : api_call).

Definition exec (s : step) : M unit :=
  match s with
  | Cycle => beatCycle
  | Call c => do_call c;; mret ()
  end.

(** The trace of every step, in order, and the heart at the end. *)
Fixpoint run (ss : list step) (h : Heart) : result (list (list event) * Heart) :=
  match ss with
  | [] => Ok ([], h)
  | s :: ss' =>
      match exec s h with
      | Ok (_, h1, tr) =>
          match run ss' h1 with
          | Ok (trs, h2) => Ok (tr :: trs, h2)
          | Fault f => Fault f
          end
      | Fault f => Fault f
      end
  end.

(** Reading a trace. *)
Definition is_callback (e : event) : bool :=
  match e with
  | EvBeat | EvDead _ => true
  | _ => false
  end.

(** Whether the mutex is held after the events of [tr], starting from [b]. *)
Definition held_from (b : bool) (tr : list event) : bool :=
  foldl (λ b e, match e with EvLock => true | EvUnlock => false | _ => b end)
        b tr.

(** Whether the mutex is held after the events of [tr], starting free. *)
Definition held_after (tr : list event) : bool := held_from false tr.



(** How many times [Dead(id)] was invoked in a trace. *)
Definition dead_count (id : Z) (tr : list event) : nat :=
  length (filter (λ e, e = EvDead id) tr).

(** The members' ids, and the state between two operations: members in
    strictly increasing order of id, mutex free. *)
Definition ids (h : Heart) : list Z := ent_id <$> mems h.

Definition inv (h : Heart) : Prop :=
  StronglySorted Z.lt (ids h) ∧ lock h = false.

(** The events of a handler body: each call takes and releases the mutex. *)
Definition calls_trace (cs : list api_call) : list event :=
  cs ≫= λ _, [EvLock; EvUnlock].

(** The events of one beat cycle whose tick counter takes the value [t] and
    whose scratch list is [dead], under the handler [cb]. *)
Definition cycle_trace (cb : Callback) (t : Z) (dead : list Z) : list event :=
  [EvLock; EvTick t; EvUnlock; EvBeat] ++ calls_trace (Beat cb) ++
  (dead ≫= λ d, EvDead d :: calls_trace (Dead cb d)).

(** A call that refreshes or removes the entity [id]. *)
Definition touches (id : Z) (c : api_call) : Prop :=
  c = CallPing id ∨ c = CallUnmonitor id.



(** The values of Go's [int]. *)
Definition is_int (z : Z) : Prop := (- 2 ^ 63 ≤ z < 2 ^ 63)%Z.

(** No callback of [tr] is invoked while the mutex is held, the mutex being
    held or not at the start according to [b]. *)
Fixpoint callbacks_unlocked (b : bool) (tr : list event) : bool :=
  match tr with
  | [] => true
  | e :: tr' =>
      (if is_callback e then negb b else true) &&
      callbacks_unlocked (held_from b [e]) tr'
  end.

(** The hearts that a run can leave behind, started from [New]. *)
Definition reachable (h : Heart) : Prop :=
  ∃ kill handler ss trs, run ss (New kill handler) = Ok (trs, h).

(** Neither the handler nor the steps make a call in [Q]. *)
Definition avoids (Q : api_call → Prop) (cb : Callback) (ss : list step)
    : Prop :=
  Forall (λ c, ¬ Q c) (Beat cb) ∧
  (∀ d, Forall (λ c, ¬ Q c) (Dead cb d)) ∧
  Forall (λ s, ∀ c, s = Call c → ¬ Q c) ss.

Global Instance api_call_eq_dec : EqDecision api_call.
Proof. solve_decision. Defined.

Global Instance step_eq_dec : EqDecision step.
Proof. solve_decision. Defined.

(** The number of beat cycles among the steps. *)
Definition cycles (ss : list step) : nat :=
  length (filter (λ s, s = Cycle) ss).

(** Whether [id] is pinged often enough along the steps: [n] beat cycles have
    passed since its last refresh, and no cycle may bring that count to
    [kill]. *)
Fixpoint pinged_in_time (id kill : Z) (n : Z) (ss : list step) : bool :=
  match ss with
  | [] => true
  | Cycle :: ss' =>
      bool_decide (n + 1 < kill)%Z && pinged_in_time id kill (n + 1) ss'
  | Call (CallPing j) :: ss' =>
      if bool_decide (j = id) then pinged_in_time id kill 0 ss'
      else pinged_in_time id kill n ss'
  | Call _ :: ss' => pinged_in_time id kill n ss'
  end.

(** The heart between operations while [id] is monitored and its entity was
    refreshed at most [m] beat cycles ago. *)
Definition fresh (id m : Z) (h : Heart) : Prop :=
  inv h ∧
  ∃ T n, Entity id T ∈ mems h ∧ tick h = wrap (T + n) ∧ (0 ≤ n ≤ m)%Z.

(** *** Equations of the methods on a heart whose mutex is free *)

Lemma Monitor_unlocked (id : Z) (h : Heart) :
  lock h = false →
  Monitor id h =
    if found (mems h) (Search (mems h) id) id
    then Ok (Some DuplicateEntry, h, [EvLock; EvUnlock])
    else Ok (None,
             set_mems (GoSort.Sort entity_less (mems h ++ [Entity id (tick h)])) h,
             [EvLock; EvUnlock]).
Proof.
  destruct h as [ms t k c l]; simpl; intros ->.
  unfold Monitor, mbind, M_bind, Lock, get; simpl.
  destruct (found ms (Search ms id) id); reflexivity.
Qed.

Lemma Unmonitor_unlocked (id : Z) (h : Heart) :
  lock h = false →
  Unmonitor id h =
    if found (mems h) (Search (mems h) id) id
    then
      match mems h !! (length (mems h) - 1)%nat with
      | Some m =>
          Ok (None,
              set_mems (GoSort.Sort entity_less
                (take (length (mems h) - 1)%nat
                   (<[Search (mems h) id := m]> (mems h)))) h,
              [EvLock; EvUnlock])
      | None => Fault IndexOutOfRange
      end
    else Ok (Some NonMonitored, h, [EvLock; EvUnlock]).
Proof.
  destruct h as [ms t k c l]; simpl; intros ->.
  unfold Unmonitor, mbind, M_bind, Lock, get; simpl.
  destruct (found ms (Search ms id) id); [|reflexivity].
  destruct (ms !! (length ms - 1)%nat); reflexivity.
Qed.

Lemma Ping_unlocked (id : Z) (h : Heart) :
  lock h = false →
  Ping id h =
    if found (mems h) (Search (mems h) id) id
    then Ok (None,
             set_mems (alter (λ m, Entity (ent_id m) (tick h))
                         (Search (mems h) id) (mems h)) h,
             [EvLock; EvUnlock])
    else Ok (Some NonMonitored, h, [EvLock; EvUnlock]).
Proof.
  destruct h as [ms t k c l]; simpl; intros ->.
  unfold Ping, mbind, M_bind, Lock, get; simpl.
  destruct (found ms (Search ms id) id); reflexivity.
Qed.

(** *** Sorting and searching the members *)

Lemma StronglySorted_le_lt (l : list Z) :
  StronglySorted Z.le l → NoDup l → StronglySorted Z.lt l.
Proof.
  induction 1 as [|x l Hl IH Hx]; intros Hnd; [constructor|].
  apply NoDup_cons in Hnd as [Hnotin Hnd].
  constructor; [auto|].
  rewrite Forall_forall in Hx |- *. intros y Hy.
  specialize (Hx y Hy).
  assert (x ≠ y) by (intros ->; done). lia.
Qed.

Lemma StronglySorted_lt_NoDup (l : list Z) :
  StronglySorted Z.lt l → NoDup l.
Proof.
  induction 1 as [|x l Hl IH Hx]; constructor; [|done].
  rewrite Forall_forall in Hx. intros Hin. specialize (Hx x Hin). lia.
Qed.

Global Instance entity_not_after_total : Total (GoSort.not_after entity_less).
Proof.
  intros a b. unfold GoSort.not_after, entity_less.
  rewrite !bool_decide_eq_false. lia.
Qed.

Global Instance entity_not_after_trans :
  Transitive (GoSort.not_after entity_less).
Proof.
  intros a b c. unfold GoSort.not_after, entity_less.
  rewrite !bool_decide_eq_false. lia.
Qed.

Lemma Sort_entities_perm (ms : list entity) :
  GoSort.Sort entity_less ms ≡ₚ ms.
Proof. apply merge_sort_Permutation. Qed.

Lemma Sort_entities_sorted (ms : list entity) :
  NoDup (ent_id <$> ms) →
  StronglySorted Z.lt (ent_id <$> GoSort.Sort entity_less ms).
Proof.
  intros Hnd. apply StronglySorted_le_lt.
  - apply (StronglySorted_fmap _ (GoSort.not_after entity_less)).
    + intros a b. unfold GoSort.not_after, entity_less.
      rewrite bool_decide_eq_false. lia.
    + apply StronglySorted_merge_sort; apply _.
  - by rewrite Sort_entities_perm.
Qed.

(** On members sorted by id the binary search finds an id exactly when it is
    monitored, and then at the position of its entity. *)
Lemma Search_found_iff (ms : list entity) (id : Z) :
  StronglySorted Z.lt (ent_id <$> ms) →
  found ms (Search ms id) id = true ↔ id ∈ (ent_id <$> ms).
Proof.
  intros Hs. unfold found, Search.
  set (f := λ i : nat,
    from_option (λ m, bool_decide (id ≤ ent_id m)%Z) false (ms !! i)).
  destruct (GoSort.Search_spec (length ms) f) as (Hle & Hlo & Hhi).
  { intros a b Hab Hb. unfold f.
    destruct (ms !! a) as [ma|] eqn:Ha; [|done].
    destruct (lookup_lt_is_Some_2 ms b Hb) as [mb Hmb]. rewrite Hmb. simpl.
    rewrite !bool_decide_eq_true. intros Hid.
    destruct (decide (a = b)) as [->|]; [congruence|].
    assert (ent_id ma < ent_id mb)%Z; [|lia].
    eapply (GoSort.StronglySorted_lookup_lt _ _ Hs a b);
      rewrite ?list_lookup_fmap, ?Ha, ?Hmb; simpl; eauto with lia. }
  set (k := GoSort.Search (length ms) f) in *.
  split.
  - destruct (ms !! k) as [m|] eqn:Hk; [|done]. simpl.
    rewrite bool_decide_eq_true. intros <-.
    apply list_elem_of_fmap. exists m. split; [done|].
    by eapply list_elem_of_lookup_2.
  - intros Hin. apply list_elem_of_fmap in Hin as (m & -> & Hin).
    apply list_elem_of_lookup in Hin as [j Hj].
    assert (f j = true) as Hfj.
    { unfold f. rewrite Hj. simpl. apply bool_decide_eq_true. lia. }
    assert (k ≤ j)%nat as Hkj.
    { destruct (decide (k ≤ j)%nat); [done|].
      rewrite Hlo in Hfj by lia. done. }
    pose proof (lookup_lt_Some _ _ _ Hj) as Hjn.
    destruct (decide (k = j)) as [->|Hne].
    { rewrite Hj. simpl. by apply bool_decide_eq_true. }
    destruct (lookup_lt_is_Some_2 ms k ltac:(lia)) as [mk Hmk].
    assert (f k = true) as Hfk by (apply Hhi; lia).
    unfold f in Hfk. rewrite Hmk in Hfk. simpl in Hfk.
    apply bool_decide_eq_true in Hfk.
    assert (ent_id mk < ent_id m)%Z; [|lia].
    eapply (GoSort.StronglySorted_lookup_lt _ _ Hs k j);
      rewrite ?list_lookup_fmap, ?Hj, ?Hmk; simpl; eauto with lia.
Qed.

Lemma found_lookup (ms : list entity) (idx : nat) (id : Z) :
  found ms idx id = true → ∃ m, ms !! idx = Some m ∧ ent_id m = id.
Proof.
  unfold found. destruct (ms !! idx) as [m|]; [|done]. simpl.
  rewrite bool_decide_eq_true. eauto.
Qed.

(** *** The methods keep the members sorted *)

Lemma set_mems_fields (ms : list entity) (h : Heart) :
  mems (set_mems ms h) = ms ∧ tick (set_mems ms h) = tick h ∧
  kill (set_mems ms h) = kill h ∧ call (set_mems ms h) = call h ∧
  lock (set_mems ms h) = lock h.
Proof. by destruct h. Qed.

(** Every call returns on a heart whose mutex is free, leaves it free, and
    takes and releases it once. *)
Lemma do_call_unlocked (c : api_call) (h : Heart) :
  lock h = false →
  ∃ r h', do_call c h = Ok (r, h', [EvLock; EvUnlock]) ∧
    lock h' = false ∧ tick h' = tick h ∧ kill h' = kill h ∧
    call h' = call h.
Proof.
  intros Hl. destruct c as [id|id|id]; simpl.
  - rewrite Monitor_unlocked by done.
    destruct (found _ _ _); eexists _, _; (split; [done|]);
      by destruct h.
  - rewrite Unmonitor_unlocked by done.
    destruct (found _ _ _) eqn:Hf.
    + apply found_lookup in Hf as (m & Hm & _).
      apply lookup_lt_Some in Hm.
      destruct (lookup_lt_is_Some_2 (mems h) (length (mems h) - 1)%nat
                  ltac:(lia)) as [ml ->].
      eexists _, _; (split; [done|]); by destruct h.
    + eexists _, _; (split; [done|]); by destruct h.
  - rewrite Ping_unlocked by done.
    destruct (found _ _ _); eexists _, _; (split; [done|]);
      by destruct h.
Qed.

(** Between operations the members stay sorted, and an entity that the call
    neither pings nor unmonitors is left as it is. *)
Lemma do_call_inv (c : api_call) (h : Heart) :
  inv h →
  ∃ r h', do_call c h = Ok (r, h', [EvLock; EvUnlock]) ∧
    inv h' ∧ tick h' = tick h ∧ kill h' = kill h ∧ call h' = call h ∧
    (∀ id T, ¬ touches id c → Entity id T ∈ mems h → Entity id T ∈ mems h').
Proof.
  intros [Hs Hl].
  destruct (do_call_unlocked c h Hl) as (r & h' & Hrun & Hl' & Ht & Hk & Hc).
  exists r, h'. split; [done|].
  split; [|split; [done|split; [done|split; [done|]]]].
  - split; [|done]. clear Hl' Ht Hk Hc.
    destruct c as [id|id|id]; simpl in Hrun.
    + rewrite Monitor_unlocked in Hrun by done.
      destruct (found _ _ _) eqn:Hf; simplify_eq; [done|].
      unfold ids. rewrite (proj1 (set_mems_fields _ _)).
      apply Sort_entities_sorted.
      rewrite fmap_app. simpl. apply NoDup_app.
      split; [by apply StronglySorted_lt_NoDup|].
      split; [|apply NoDup_singleton].
      intros x Hx ->%list_elem_of_singleton.
      apply Search_found_iff in Hx; [congruence|done].
    + rewrite Unmonitor_unlocked in Hrun by done.
      destruct (found _ _ _) eqn:Hf; simplify_eq; [|done].
      apply found_lookup in Hf as (m & Hm & _).
      destruct (mems h !! (length (mems h) - 1)%nat) as [ml|] eqn:Hlast;
        simplify_eq.
      unfold ids. rewrite (proj1 (set_mems_fields _ _)).
      apply Sort_entities_sorted.
      rewrite swap_with_last_perm; [|by eapply lookup_lt_Some|done].
      rewrite list_fmap_delete.
      eapply sublist_NoDup; [|apply sublist_delete].
      by apply StronglySorted_lt_NoDup.
    + rewrite Ping_unlocked in Hrun by done.
      destruct (found _ _ _) eqn:Hf; simplify_eq; [|done].
      unfold ids. rewrite (proj1 (set_mems_fields _ _)).
      rewrite (list_fmap_alter ent_id _ (λ x, x)); [|by apply Forall_true].
      by rewrite list_alter_id.
  - clear Hl' Ht Hk Hc. intros id' T Hnt Hin.
    destruct c as [id|id|id]; simpl in Hrun.
    + rewrite Monitor_unlocked in Hrun by done.
      destruct (found _ _ _) eqn:Hf; simplify_eq; [done|].
      rewrite (proj1 (set_mems_fields _ _)), Sort_entities_perm.
      apply elem_of_app. by left.
    + rewrite Unmonitor_unlocked in Hrun by done.
      destruct (found _ _ _) eqn:Hf; simplify_eq; [|done].
      apply found_lookup in Hf as (m & Hm & Hid).
      destruct (mems h !! (length (mems h) - 1)%nat) as [ml|] eqn:Hlast;
        simplify_eq.
      rewrite (proj1 (set_mems_fields _ _)), Sort_entities_perm.
      rewrite swap_with_last_perm; [|by eapply lookup_lt_Some|done].
      rewrite (delete_Permutation _ _ _ Hm) in Hin.
      apply elem_of_cons in Hin as [Heq|Hin]; [|done].
      exfalso. apply Hnt. right. by rewrite <- Heq.
    + rewrite Ping_unlocked in Hrun by done.
      destruct (found _ _ _) eqn:Hf; simplify_eq; [|done].
      apply found_lookup in Hf as (m & Hm & Hid).
      rewrite (proj1 (set_mems_fields _ _)).
      apply list_elem_of_lookup in Hin as [i Hi].
      apply list_elem_of_lookup. exists i.
      rewrite list_lookup_alter_ne; [done|].
      intros <-. apply Hnt. left. rewrite Hm in Hi. by simplify_eq.
Qed.

(** *** Handlers, beat cycles and runs *)

Lemma beatCycle_unlocked (h : Heart) :
  lock h = false →
  beatCycle h =
    let h1 := set_tick (wrap (tick h + 1)) h in
    match do_calls (Beat (call h)) h1 with
    | Ok (_, h2, tr2) =>
        match signal (collect h1) h2 with
        | Ok (_, h3, tr3) =>
            Ok ((), h3,
                [EvLock; EvTick (wrap (tick h + 1)); EvUnlock; EvBeat] ++
                tr2 ++ tr3)
        | Fault f => Fault f
        end
    | Fault f => Fault f
    end.
Proof.
  destruct h as [ms t k c l]; simpl; intros ->.
  cbv [beatCycle mbind M_bind Lock Unlock get modify emit call_Beat
       set_tick set_lock lock tick mems kill call].
  change (collect (mkHeart ms (wrap (t + 1)) k c true))
    with (collect (mkHeart ms (wrap (t + 1)) k c false)).
  destruct (do_calls (Beat c) _) as [[[[] h2] tr2]|f]; [|done].
  destruct (signal _ h2) as [[[[] h3] tr3]|f]; [|done].
  reflexivity.
Qed.

Section Preservation.
Context (cb : Callback) (P : Heart → Prop) (Q : api_call → Prop).
Hypothesis P_call : ∀ h, P h → call h = cb.
Hypothesis do_call_P : ∀ c h, Q c → P h →
  ∃ r h', do_call c h = Ok (r, h', [EvLock; EvUnlock]) ∧ P h'.

Lemma do_calls_P (cs : list api_call) (h : Heart) :
  Forall Q cs → P h →
  ∃ h', do_calls cs h = Ok ((), h', calls_trace cs) ∧ P h'.
Proof using do_call_P.
  intros Hcs. revert h. induction Hcs as [|c cs Hc Hcs IH]; intros h Hh.
  - by exists h.
  - destruct (do_call_P c h Hc Hh) as (r & h1 & Hrun & Hh1).
    destruct (IH h1 Hh1) as (h2 & Hrun2 & Hh2).
    exists h2. split; [|done].
    cbn [do_calls]. unfold mbind, M_bind. by rewrite Hrun, Hrun2.
Qed.

Lemma signal_P (dead : list Z) (h : Heart) :
  (∀ d, Forall Q (Dead cb d)) → P h →
  ∃ h', signal dead h =
          Ok ((), h', dead ≫= λ d, EvDead d :: calls_trace (Dead cb d)) ∧
        P h'.
Proof using P_call do_call_P.
  intros Hcb. revert h. induction dead as [|d dead IH]; intros h Hh.
  - by exists h.
  - destruct (do_calls_P (Dead cb d) h (Hcb d) Hh) as (h1 & Hrun & Hh1).
    destruct (IH h1 Hh1) as (h2 & Hrun2 & Hh2).
    exists h2. split; [|done].
    cbn [signal]. unfold call_Dead, mbind at 1 2 3, M_bind, emit, get.
    rewrite (P_call h Hh), Hrun, Hrun2. done.
Qed.

Lemma beatCycle_P (h : Heart) :
  lock h = false → call h = cb →
  Forall Q (Beat cb) → (∀ d, Forall Q (Dead cb d)) →
  P (set_tick (wrap (tick h + 1)) h) →
  ∃ h', beatCycle h =
          Ok ((), h',
              cycle_trace cb (wrap (tick h + 1))
                (collect (set_tick (wrap (tick h + 1)) h))) ∧
        P h'.
Proof using P_call do_call_P.
  intros Hl Hc HB HD Hh1.
  rewrite beatCycle_unlocked by done. cbv zeta.
  destruct (do_calls_P (Beat cb) _ HB Hh1) as (h2 & Hrun & Hh2).
  rewrite Hc, Hrun.
  destruct (signal_P (collect (set_tick (wrap (tick h + 1)) h)) h2 HD Hh2)
    as (h3 & Hrun3 & Hh3).
  rewrite Hrun3. by exists h3.
Qed.

End Preservation.

(** Reading cycle traces. *)
Lemma filter_calls_trace (φ : event → Prop) `{∀ e, Decision (φ e)}
    (cs : list api_call) :
  ¬ φ EvLock → ¬ φ EvUnlock → filter φ (calls_trace cs) = [].
Proof.
  intros H1 H2. induction cs as [|c cs IH]; [done|].
  unfold calls_trace in *. cbn [mbind list_bind].
  rewrite filter_app, IH.
  rewrite filter_cons_False by done. by rewrite filter_cons_False by done.
Qed.

Lemma dead_count_cycle (id : Z) (cb : Callback) (t : Z) (dead : list Z) :
  dead_count id (cycle_trace cb t dead) = length (filter (λ d, d = id) dead).
Proof.
  unfold dead_count, cycle_trace.
  rewrite !filter_app, !length_app, filter_calls_trace by done.
  rewrite !filter_cons_False by done. simpl.
  induction dead as [|d dead IH]; [done|].
  cbn [mbind list_bind]. rewrite filter_app, length_app, IH.
  rewrite filter_cons. rewrite (filter_cons _ d).
  rewrite filter_calls_trace by done.
  destruct (decide (EvDead d = EvDead id)) as [Heq|Hne];
    destruct (decide (d = id)); simplify_eq; done.
Qed.



Lemma collect_absent (id : Z) (φ : entity → Prop) `{∀ m, Decision (φ m)}
    (ms : list entity) :
  id ∉ (ent_id <$> ms) →
  filter (λ d, d = id) (ent_id <$> filter φ ms) = [].
Proof.
  induction ms as [|m ms IH]; [done|].
  rewrite fmap_cons. intros [Hne Hni]%not_elem_of_cons.
  rewrite filter_cons. destruct (decide (φ m)); [|by apply IH].
  rewrite fmap_cons, filter_cons_False by done. by apply IH.
Qed.

(** A monitored id is collected once if its entity is overdue, and not at
    all otherwise. *)
Lemma collect_count (id T : Z) (h : Heart) :
  NoDup (ids h) → Entity id T ∈ mems h →
  length (filter (λ d, d = id) (collect h)) =
    if bool_decide (kill h ≤ wrap (tick h - T))%Z then 1%nat else 0%nat.
Proof.
  unfold collect, ids.
  generalize (mems h) as ms. intros ms.
  induction ms as [|m ms IH]; intros Hnd Hin; [by apply elem_of_nil in Hin|].
  rewrite fmap_cons in Hnd. apply NoDup_cons in Hnd as [Hm Hnd].
  apply elem_of_cons in Hin as [<-|Hin].
  - rewrite filter_cons. simpl in *.
    destruct (decide (kill h ≤ wrap (tick h - T))%Z) as [Hd|Hd].
    + rewrite bool_decide_eq_true_2 by done.
      rewrite fmap_cons. simpl. rewrite filter_cons_True by done.
      simpl. by rewrite collect_absent.
    + rewrite bool_decide_eq_false_2 by done. by rewrite collect_absent.
  - assert (ent_id m ≠ id) as Hne.
    { intros <-. apply Hm. apply list_elem_of_fmap.
      exists (Entity (ent_id m) T). done. }
    rewrite filter_cons.
    destruct (decide (kill h ≤ wrap (tick h - ent_tick m))%Z).
    + rewrite fmap_cons, filter_cons_False by done. by apply IH.
    + by apply IH.
Qed.

(** *** Wrap-around arithmetic of the tick counter *)

Lemma wrap_add_l (a b : Z) : wrap (wrap a + b) = wrap (a + b).
Proof.
  unfold wrap. f_equal.
  replace ((a + 2 ^ 63) `mod` 2 ^ 64 - 2 ^ 63 + b + 2 ^ 63)%Z
    with ((a + 2 ^ 63) `mod` 2 ^ 64 + b)%Z by lia.
  rewrite Zplus_mod_idemp_l. f_equal. lia.
Qed.

Lemma wrap_sub_l (a b : Z) : wrap (wrap a - b) = wrap (a - b).
Proof. rewrite <- !Z.add_opp_r. apply wrap_add_l. Qed.

Lemma wrap_small (a : Z) : (- 2 ^ 63 ≤ a < 2 ^ 63)%Z → wrap a = a.
Proof. intros Ha. unfold wrap. rewrite Z.mod_small; lia. Qed.

(** *** An entity that is neither pinged nor unmonitored *)




(** *** Every run returns and keeps the members sorted *)

Lemma wrap_is_int (z : Z) : is_int (wrap z).
Proof.
  unfold is_int, wrap.
  pose proof (Z.mod_pos_bound (z + 2 ^ 63) (2 ^ 64)). lia.
Qed.

Lemma run_inv (ss : list step) :
  ∀ h, inv h → is_int (tick h) →
    ∃ trs h', run ss h = Ok (trs, h') ∧ inv h' ∧ is_int (tick h').
Proof.
  induction ss as [|s ss IH]; intros h Hinv Hint.
  { by exists [], h. }
  destruct s as [|c]; cbn [run exec].
  - pose (P := λ h', inv h' ∧ is_int (tick h') ∧ call h' = call h).
    assert (∀ h0, P h0 → call h0 = call h) as HPc by (by intros h0 (_ & _ & ?)).
    assert (∀ c h0, True → P h0 →
      ∃ r h1, do_call c h0 = Ok (r, h1, [EvLock; EvUnlock]) ∧ P h1) as HPd.
    { intros c h0 _ (Hinv0 & Hint0 & Hc0).
      destruct (do_call_inv c h0 Hinv0)
        as (r & h1 & Hr & Hinv1 & Ht1 & _ & Hc1 & _).
      exists r, h1. split; [done|]. split; [done|].
      split; [by rewrite Ht1|congruence]. }
    assert (P (set_tick (wrap (tick h + 1)) h)) as HP1.
    { split; [|split; [apply wrap_is_int|by destruct h]].
      destruct Hinv as [Hs Hl]. destruct h; simpl in *. by split. }
    destruct (beatCycle_P (call h) P (λ _, True) HPc HPd h
                (proj2 Hinv) eq_refl)
      as (h1 & Hrun & Hinv1 & Hint1 & _);
      [by apply Forall_true|intros d; by apply Forall_true|done|].
    rewrite Hrun.
    destruct (IH h1 Hinv1 Hint1) as (trs & h2 & Hrun2 & Hinv2 & Hint2).
    rewrite Hrun2. by eexists _, _.
  - destruct (do_call_inv c h Hinv)
      as (r & h1 & Hr & Hinv1 & Ht1 & _ & _ & _).
    unfold mbind, M_bind. rewrite Hr. cbn [mret M_ret].
    destruct (IH h1 Hinv1) as (trs & h2 & Hrun2 & Hinv2 & Hint2).
    { by rewrite Ht1. }
    rewrite Hrun2. by eexists _, _.
Qed.

(** A reachable heart has its members sorted by id, its mutex free and its
    tick within [int]. *)
Lemma reachable_inv (h : Heart) : reachable h → inv h ∧ is_int (tick h).
Proof.
  intros (kill & handler & ss & trs & Hrun).
  destruct (run_inv ss (New kill handler))
    as (trs' & h' & Hrun' & Hinv & Hint).
  { split; [constructor|done]. }
  { unfold is_int. simpl. lia. }
  rewrite Hrun in Hrun'. by simplify_eq.
Qed.

(** *** Callbacks and the mutex *)

Lemma held_from_app (b : bool) (tr1 tr2 : list event) :
  held_from b (tr1 ++ tr2) = held_from (held_from b tr1) tr2.
Proof. apply foldl_app. Qed.

Lemma callbacks_unlocked_app (b : bool) (tr1 tr2 : list event) :
  callbacks_unlocked b (tr1 ++ tr2) =
  callbacks_unlocked b tr1 && callbacks_unlocked (held_from b tr1) tr2.
Proof.
  revert b. induction tr1 as [|e tr1 IH]; intros b; [done|].
  cbn [app callbacks_unlocked]. rewrite IH, <- andb_assoc. reflexivity.
Qed.

Lemma callbacks_unlocked_split (b : bool) (tr : list event) :
  callbacks_unlocked b tr = true →
  ∀ pre e post, tr = pre ++ e :: post → is_callback e = true →
    held_from b pre = false.
Proof.
  intros Hok pre. revert b tr Hok.
  induction pre as [|x pre IH]; intros b tr Hok e post -> He.
  - cbn [app callbacks_unlocked] in Hok. rewrite He in Hok.
    apply andb_true_iff in Hok as [Hb _]. by destruct b.
  - cbn [app callbacks_unlocked] in Hok.
    apply andb_true_iff in Hok as [_ Hok].
    change (held_from b (x :: pre)) with (held_from (held_from b [x]) pre).
    by eapply IH.
Qed.

Lemma calls_trace_unlocked (cs : list api_call) :
  callbacks_unlocked false (calls_trace cs) = true ∧
  held_from false (calls_trace cs) = false.
Proof.
  induction cs as [|c cs [IH1 IH2]]; [done|].
  unfold calls_trace in *. cbn [mbind list_bind].
  rewrite callbacks_unlocked_app, held_from_app.
  change (held_from false [EvLock; EvUnlock]) with false.
  by rewrite IH1, IH2.
Qed.

Lemma cycle_trace_unlocked (cb : Callback) (t : Z) (dead : list Z) :
  callbacks_unlocked false (cycle_trace cb t dead) = true.
Proof.
  unfold cycle_trace.
  destruct (calls_trace_unlocked (Beat cb)) as [HB1 HB2].
  rewrite callbacks_unlocked_app.
  change (held_from false [EvLock; EvTick t; EvUnlock; EvBeat]) with false.
  rewrite callbacks_unlocked_app, HB1, HB2.
  change (callbacks_unlocked false [EvLock; EvTick t; EvUnlock; EvBeat])
    with true.
  cbn [andb].
  induction dead as [|d dead IH]; [done|].
  cbn [mbind list_bind].
  destruct (calls_trace_unlocked (Dead cb d)) as [HD1 HD2].
  rewrite callbacks_unlocked_app.
  change (EvDead d :: calls_trace (Dead cb d))
    with ([EvDead d] ++ calls_trace (Dead cb d)).
  rewrite callbacks_unlocked_app, held_from_app.
  change (held_from false [EvDead d]) with false.
  by rewrite HD1, HD2, IH.
Qed.

Lemma cycle_trace_callbacks (cb : Callback) (t : Z) (dead : list Z) :
  filter (λ e, is_callback e = true) (cycle_trace cb t dead) =
  EvBeat :: (EvDead <$> dead).
Proof.
  unfold cycle_trace.
  rewrite !filter_app, filter_calls_trace by done.
  rewrite !filter_cons_False by done.
  rewrite filter_cons_True by done. rewrite filter_nil. simpl. f_equal.
  induction dead as [|d dead IH]; [done|].
  cbn [mbind list_bind]. rewrite filter_app, IH.
  rewrite filter_cons_True by done.
  by rewrite filter_calls_trace by done.
Qed.

(** *** The claims on the heart *)

(** C7. On a heart whose mutex is free a beat cycle returns, and in its
    trace the callbacks are, in order, [Beat()] once and then [Dead(id)] once
    for each id of the scratch list in the order it was collected; every one
    of them is invoked at a point where the heart's mutex is not held. *)
Theorem beat_cycle_callbacks (h : Heart) :
  lock h = false →
  ∃ h' tr, beatCycle h = Ok ((), h', tr) ∧
    filter (λ e, is_callback e = true) tr =
      EvBeat :: (EvDead <$> collect (set_tick (wrap (tick h + 1)) h)) ∧
    (∀ pre e post, tr = pre ++ e :: post → is_callback e = true →
       held_after pre = false).
Proof.
  intros Hl.
  pose (P := λ h', lock h' = false ∧ call h' = call h).
  assert (∀ h0, P h0 → call h0 = call h) as HPc by (by intros h0 [_ ?]).
  assert (∀ c h0, True → P h0 →
    ∃ r h1, do_call c h0 = Ok (r, h1, [EvLock; EvUnlock]) ∧ P h1) as HPd.
  { intros c h0 _ [Hl0 Hc0].
    destruct (do_call_unlocked c h0 Hl0) as (r & h1 & Hr & Hl1 & _ & _ & Hc1).
    exists r, h1. split; [done|]. split; [done|congruence]. }
  assert (P (set_tick (wrap (tick h + 1)) h)) as HP1.
  { destruct h; simpl in *. by split. }
  destruct (beatCycle_P (call h) P (λ _, True) HPc HPd h Hl eq_refl)
    as (h' & Hrun & _); [by apply Forall_true| |done|].
  { intros d. by apply Forall_true. }
  eexists h', _. split; [exact Hrun|]. split.
  - apply cycle_trace_callbacks.
  - apply (callbacks_unlocked_split false), cycle_trace_unlocked.
Qed.

Lemma beat_cycle_callbacks_witness :
  let h := mkHeart [Entity 3 0; Entity 7 1] 3 2
             {| Beat := [CallMonitor 5]; Dead := λ d, [CallUnmonitor d] |}
             false in
  lock h = false ∧
  ∃ h' tr, beatCycle h = Ok ((), h', tr) ∧
    filter (λ e, is_callback e = true) tr =
      EvBeat :: (EvDead <$> collect (set_tick (wrap (tick h + 1)) h)) ∧
    (∀ pre e post, tr = pre ++ e :: post → is_callback e = true →
       held_after pre = false).
Proof. split; [reflexivity|]. apply beat_cycle_callbacks. reflexivity. Defined.

(** A refresh of [id] that returns [nil] leaves its entity with the current
    tick among the members. *)
Lemma refresh_entity (h h1 : Heart) (c : api_call) (id : Z)
    (tr : list event) :
  inv h → c = CallMonitor id ∨ c = CallPing id →
  do_call c h = Ok (None, h1, tr) →
  Entity id (tick h) ∈ mems h1.
Proof.
  intros [Hs Hl] [->| ->]; simpl.
  - rewrite Monitor_unlocked by done.
    destruct (found _ _ _); intros; simplify_eq.
    rewrite (proj1 (set_mems_fields _ _)), Sort_entities_perm.
    apply elem_of_app. right. by apply list_elem_of_singleton.
  - rewrite Ping_unlocked by done.
    destruct (found _ _ _) eqn:Hf; intros; simplify_eq.
    apply found_lookup in Hf as (m & Hm & <-).
    rewrite (proj1 (set_mems_fields _ _)).
    apply list_elem_of_lookup. exists (Search (mems h) (ent_id m)).
    by rewrite list_lookup_alter_eq, Hm.
Qed.






(** *** The methods, call by call *)

Lemma StronglySorted_ids (ms : list entity) :
  StronglySorted Z.lt (ent_id <$> ms) →
  StronglySorted (λ a b, (ent_id a < ent_id b)%Z) ms.
Proof.
  induction ms as [|m ms IH]; [constructor|].
  rewrite fmap_cons. intros [Hs Hm]%StronglySorted_inv.
  constructor; [by apply IH|].
  rewrite Forall_forall in Hm. apply Forall_forall. intros m' Hm'. apply Hm.
  apply list_elem_of_fmap. by exists m'.
Qed.

(** Members sorted by distinct ids are determined by which entities they
    are. *)
Lemma sorted_entities_unique (l1 l2 : list entity) :
  StronglySorted Z.lt (ent_id <$> l1) → StronglySorted Z.lt (ent_id <$> l2) →
  l1 ≡ₚ l2 → l1 = l2.
Proof.
  intros H1%StronglySorted_ids H2%StronglySorted_ids Hp.
  apply (StronglySorted_unique_strong (λ a b, (ent_id a < ent_id b)%Z));
    [|done..].
  intros x1 x2 _ _ ? ?. lia.
Qed.

Lemma filter_other_id (ms : list entity) (id : Z) :
  id ∉ (ent_id <$> ms) → filter (λ m, ent_id m ≠ id) ms = ms.
Proof.
  induction ms as [|m ms IH]; [done|].
  rewrite fmap_cons. intros [Hne Hni]%not_elem_of_cons.
  rewrite filter_cons_True by done. by rewrite IH.
Qed.

Lemma filter_other_delete (ms : list entity) (idx : nat) (m : entity) :
  NoDup (ent_id <$> ms) → ms !! idx = Some m →
  filter (λ m', ent_id m' ≠ ent_id m) ms = delete idx ms.
Proof.
  revert idx. induction ms as [|m0 ms IH]; intros idx Hnd Hidx; [done|].
  rewrite fmap_cons in Hnd. apply NoDup_cons in Hnd as [Hm0 Hnd].
  destruct idx as [|idx]; simpl in Hidx.
  - injection Hidx as ->. rewrite filter_cons_False by (intros ?; done).
    simpl. by apply filter_other_id.
  - rewrite filter_cons_True.
    + simpl. f_equal. by apply IH.
    + intros Heq. apply Hm0. rewrite Heq. apply list_elem_of_fmap.
      exists m. split; [done|]. by eapply list_elem_of_lookup_2.
Qed.

Lemma alter_refresh (ms : list entity) (idx : nat) (m : entity) (t : Z) :
  NoDup (ent_id <$> ms) → ms !! idx = Some m →
  alter (λ m', Entity (ent_id m') t) idx ms =
  (λ m', if bool_decide (ent_id m' = ent_id m) then Entity (ent_id m) t
         else m') <$> ms.
Proof.
  intros Hnd Hidx. apply list_eq. intros i. rewrite list_lookup_fmap.
  destruct (decide (i = idx)) as [->|Hne].
  - rewrite list_lookup_alter_eq, Hidx. simpl.
    by rewrite bool_decide_eq_true_2.
  - rewrite list_lookup_alter_ne by done.
    destruct (ms !! i) as [m'|] eqn:Hi; [|done]. simpl.
    rewrite bool_decide_eq_false_2; [done|]. intros Heq. apply Hne.
    eapply (NoDup_lookup _ _ _ _ Hnd);
      rewrite list_lookup_fmap, ?Hi, ?Hidx; simpl; [done|by f_equal].
Qed.

Lemma found_ids (h : Heart) (id : Z) :
  inv h → found (mems h) (Search (mems h) id) id = true ↔ id ∈ ids h.
Proof. intros [Hs _]. by apply Search_found_iff. Qed.

(** [Monitor] on a heart between operations. *)
Lemma Monitor_inv (h : Heart) (id : Z) :
  inv h →
  (id ∈ ids h →
     Monitor id h = Ok (Some DuplicateEntry, h, [EvLock; EvUnlock])) ∧
  (id ∉ ids h →
     ∃ h', Monitor id h = Ok (None, h', [EvLock; EvUnlock]) ∧ inv h' ∧
       mems h' ≡ₚ Entity id (tick h) :: mems h ∧
       tick h' = tick h ∧ kill h' = kill h ∧ call h' = call h).
Proof.
  intros Hinv. pose proof Hinv as [Hs Hl].
  rewrite Monitor_unlocked by done.
  split; intros Hid.
  - apply found_ids in Hid; [|done]. by rewrite Hid.
  - destruct (found _ _ _) eqn:Hf; [by apply found_ids in Hf|].
    eexists. split; [done|].
    destruct (do_call_inv (CallMonitor id) h Hinv)
      as (r & h' & Hrun & Hinv' & _). simpl in Hrun.
    rewrite Monitor_unlocked, Hf in Hrun by done. simplify_eq.
    split; [done|]. rewrite (proj1 (set_mems_fields _ _)).
    split; [|by destruct h].
    rewrite Sort_entities_perm. by rewrite Permutation_app_comm.
Qed.

(** [Unmonitor] on a heart between operations. *)
Lemma Unmonitor_inv (h : Heart) (id : Z) :
  inv h →
  (id ∉ ids h →
     Unmonitor id h = Ok (Some NonMonitored, h, [EvLock; EvUnlock])) ∧
  (id ∈ ids h →
     ∃ h', Unmonitor id h = Ok (None, h', [EvLock; EvUnlock]) ∧ inv h' ∧
       mems h' = filter (λ m, ent_id m ≠ id) (mems h) ∧
       tick h' = tick h ∧ kill h' = kill h ∧ call h' = call h).
Proof.
  intros Hinv. pose proof Hinv as [Hs Hl].
  split; intros Hid.
  - rewrite Unmonitor_unlocked by done.
    destruct (found _ _ _) eqn:Hf; [by apply found_ids in Hf|done].
  - destruct (do_call_inv (CallUnmonitor id) h Hinv)
      as (r & h' & Hrun & Hinv' & Ht & Hk & Hc & _). simpl in Hrun.
    apply found_ids in Hid as Hf; [|done].
    pose proof Hrun as Hrun'.
    rewrite Unmonitor_unlocked, Hf in Hrun' by done.
    apply found_lookup in Hf as (m & Hm & <-).
    destruct (mems h !! (length (mems h) - 1)%nat) as [ml|] eqn:Hlast;
      [|done].
    injection Hrun' as <- <-. exists (set_mems
      (GoSort.Sort entity_less
         (take (length (mems h) - 1)
            (<[Search (mems h) (ent_id m):=ml]> (mems h)))) h).
    split; [done|]. split; [done|]. split; [|done].
    destruct Hinv' as [Hs' _]. unfold ids in Hs'.
    rewrite (proj1 (set_mems_fields _ _)) in Hs' |- *.
    apply sorted_entities_unique; [done| |].
    + apply (StronglySorted_fmap _ (λ a b, (ent_id a < ent_id b)%Z)); [done|].
      apply StronglySorted_ids in Hs.
      clear -Hs. induction Hs as [|x l Hl IH Hx]; [constructor|].
      rewrite filter_cons. destruct (decide (ent_id x ≠ ent_id m)); [|done].
      constructor; [done|]. apply Forall_forall. intros y [_ Hy]%list_elem_of_filter.
      rewrite Forall_forall in Hx. by apply Hx.
    + rewrite Sort_entities_perm.
      rewrite swap_with_last_perm; [|by eapply lookup_lt_Some|done].
      rewrite (filter_other_delete _ _ _ (StronglySorted_lt_NoDup _ Hs) Hm).
      done.
Qed.

(** [Ping] on a heart between operations. *)
Lemma Ping_inv (h : Heart) (id : Z) :
  inv h →
  (id ∉ ids h →
     Ping id h = Ok (Some NonMonitored, h, [EvLock; EvUnlock])) ∧
  (id ∈ ids h →
     ∃ h', Ping id h = Ok (None, h', [EvLock; EvUnlock]) ∧ inv h' ∧
       mems h' = (λ m, if bool_decide (ent_id m = id)
                       then Entity id (tick h) else m) <$> mems h ∧
       tick h' = tick h ∧ kill h' = kill h ∧ call h' = call h).
Proof.
  intros Hinv. pose proof Hinv as [Hs Hl].
  split; intros Hid.
  - rewrite Ping_unlocked by done.
    destruct (found _ _ _) eqn:Hf; [by apply found_ids in Hf|done].
  - destruct (do_call_inv (CallPing id) h Hinv)
      as (r & h' & Hrun & Hinv' & Ht & Hk & Hc & _). simpl in Hrun.
    apply found_ids in Hid as Hf; [|done].
    pose proof Hrun as Hrun'.
    rewrite Ping_unlocked, Hf in Hrun' by done.
    apply found_lookup in Hf as (m & Hm & <-).
    injection Hrun' as <- <-. eexists. split; [done|]. split; [done|].
    split; [|done]. rewrite (proj1 (set_mems_fields _ _)).
    apply alter_refresh; [|done]. by apply StronglySorted_lt_NoDup.
Qed.

(** X1.  [Monitor(id)] fails with "duplicate entry" exactly when [id] is
    monitored, and then changes nothing; otherwise it adds the one entity [id]
    at the current tick and keeps the members sorted by id. *)
Theorem Monitor_spec (h : Heart) (id : Z) :
  reachable h →
  (id ∈ ids h →
     Monitor id h = Ok (Some DuplicateEntry, h, [EvLock; EvUnlock])) ∧
  (id ∉ ids h →
     ∃ h', Monitor id h = Ok (None, h', [EvLock; EvUnlock]) ∧
       mems h' ≡ₚ Entity id (tick h) :: mems h ∧
       StronglySorted Z.lt (ids h') ∧
       tick h' = tick h ∧ kill h' = kill h ∧ lock h' = false).
Proof.
  intros [Hinv _]%reachable_inv.
  destruct (Monitor_inv h id Hinv) as [Hdup Hnew]. split; [done|].
  intros Hid. destruct (Hnew Hid) as (h' & Hrun & [Hs Hl] & Hp & Ht & Hk & _).
  by exists h'.
Qed.

(** X2.  [Unmonitor(id)] fails with "non-monitored entity" exactly when [id]
    is not monitored, and then changes nothing; otherwise it removes the
    entity of [id] and leaves every other member, in order, as it was. *)
Theorem Unmonitor_spec (h : Heart) (id : Z) :
  reachable h →
  (id ∉ ids h →
     Unmonitor id h = Ok (Some NonMonitored, h, [EvLock; EvUnlock])) ∧
  (id ∈ ids h →
     ∃ h', Unmonitor id h = Ok (None, h', [EvLock; EvUnlock]) ∧
       mems h' = filter (λ m, ent_id m ≠ id) (mems h) ∧
       tick h' = tick h ∧ kill h' = kill h ∧ lock h' = false).
Proof.
  intros [Hinv _]%reachable_inv.
  destruct (Unmonitor_inv h id Hinv) as [Hno Hyes]. split; [done|].
  intros Hid. destruct (Hyes Hid) as (h' & Hrun & [Hs Hl] & Hm & Ht & Hk & _).
  by exists h'.
Qed.

(** X3.  [Ping(id)] fails with "non-monitored entity" exactly when [id] is not
    monitored, and then changes nothing; otherwise it sets the tick of the
    entity of [id] to the current tick and leaves every other member as it
    was. *)
Theorem Ping_spec (h : Heart) (id : Z) :
  reachable h →
  (id ∉ ids h →
     Ping id h = Ok (Some NonMonitored, h, [EvLock; EvUnlock])) ∧
  (id ∈ ids h →
     ∃ h', Ping id h = Ok (None, h', [EvLock; EvUnlock]) ∧
       mems h' = (λ m, if bool_decide (ent_id m = id)
                       then Entity id (tick h) else m) <$> mems h ∧
       tick h' = tick h ∧ kill h' = kill h ∧ lock h' = false).
Proof.
  intros [Hinv _]%reachable_inv.
  destruct (Ping_inv h id Hinv) as [Hno Hyes]. split; [done|].
  intros Hid. destruct (Hyes Hid) as (h' & Hrun & [Hs Hl] & Hm & Ht & Hk & _).
  by exists h'.
Qed.

(** X4.  [Monitor(id)] followed by [Unmonitor(id)], on a heart that does not
    monitor [id], gives the heart back as it was. *)
Theorem Monitor_Unmonitor (h : Heart) (id : Z) :
  reachable h → id ∉ ids h →
  ∃ h1, Monitor id h = Ok (None, h1, [EvLock; EvUnlock]) ∧
        Unmonitor id h1 = Ok (None, h, [EvLock; EvUnlock]).
Proof.
  intros [Hinv _]%reachable_inv Hid.
  destruct (Monitor_inv h id Hinv) as [_ Hnew].
  destruct (Hnew Hid) as (h1 & Hrun1 & Hinv1 & Hp & Ht1 & Hk1 & Hc1).
  exists h1. split; [done|].
  destruct (Unmonitor_inv h1 id Hinv1) as [_ Hyes].
  destruct Hyes as (h2 & Hrun2 & Hinv2 & Hm2 & Ht2 & Hk2 & Hc2).
  { unfold ids. rewrite Hp, fmap_cons. by left. }
  rewrite Hrun2. do 3 f_equal.
  assert (mems h2 = mems h) as Hmems.
  { apply sorted_entities_unique; [apply Hinv2|apply Hinv|].
    rewrite Hm2, Hp. rewrite filter_cons_False by (simpl; intros ?; done).
    by rewrite filter_other_id. }
  destruct Hinv as [_ Hl], Hinv2 as [_ Hl2].
  destruct h, h2; simpl in *. congruence.
Qed.

(** *** Beat cycles and runs *)

(** A call adds no id but the one it monitors. *)
Lemma do_call_ids (c : api_call) (h h' : Heart) (r : option error)
    (tr : list event) (id : Z) :
  inv h → do_call c h = Ok (r, h', tr) →
  id ∈ ids h' → id ∈ ids h ∨ c = CallMonitor id.
Proof.
  intros Hinv Hrun Hid. destruct c as [j|j|j]; simpl in Hrun.
  - destruct (Monitor_inv h j Hinv) as [Hdup Hnew].
    destruct (decide (j ∈ ids h)) as [Hj|Hj].
    + rewrite (Hdup Hj) in Hrun. simplify_eq. by left.
    + destruct (Hnew Hj) as (h1 & Hrun1 & _ & Hp & _).
      rewrite Hrun1 in Hrun. simplify_eq.
      unfold ids in Hid. rewrite Hp, fmap_cons in Hid.
      apply elem_of_cons in Hid as [->|Hid]; [by right|by left].
  - destruct (Unmonitor_inv h j Hinv) as [Hno Hyes].
    destruct (decide (j ∈ ids h)) as [Hj|Hj].
    + destruct (Hyes Hj) as (h1 & Hrun1 & _ & Hm & _).
      rewrite Hrun1 in Hrun. simplify_eq. left.
      unfold ids in Hid. rewrite Hm in Hid.
      apply list_elem_of_fmap in Hid as (m & -> & [_ Hin]%list_elem_of_filter).
      apply list_elem_of_fmap. by exists m.
    + rewrite (Hno Hj) in Hrun. simplify_eq. by left.
  - destruct (Ping_inv h j Hinv) as [Hno Hyes].
    destruct (decide (j ∈ ids h)) as [Hj|Hj].
    + destruct (Hyes Hj) as (h1 & Hrun1 & _ & Hm & _).
      rewrite Hrun1 in Hrun. simplify_eq. left.
      unfold ids in Hid. rewrite Hm in Hid.
      apply list_elem_of_fmap in Hid as (m & -> & (m' & -> & Hin)%list_elem_of_fmap).
      apply list_elem_of_fmap.
      case_bool_decide as Heq; [|by exists m'].
      simpl. exists m'. by rewrite Heq.
    + rewrite (Hno Hj) in Hrun. simplify_eq. by left.
Qed.

Lemma dead_count_call (id : Z) : dead_count id ([EvLock; EvUnlock] ++ []) = 0%nat.
Proof. reflexivity. Qed.

(** The beat cycle on a heart between operations. *)
Lemma beatCycle_inv (h : Heart) :
  inv h →
  ∃ h', beatCycle h =
          Ok ((), h',
              cycle_trace (call h) (wrap (tick h + 1))
                (collect (set_tick (wrap (tick h + 1)) h))) ∧
    inv h' ∧ tick h' = wrap (tick h + 1) ∧ kill h' = kill h ∧
    call h' = call h.
Proof.
  intros Hinv.
  pose (P := λ h', inv h' ∧ tick h' = wrap (tick h + 1) ∧ kill h' = kill h ∧
                   call h' = call h).
  assert (∀ h0, P h0 → call h0 = call h) as HPc by (by intros h0 (_ & _ & _ & ?)).
  assert (∀ c h0, True → P h0 →
    ∃ r h1, do_call c h0 = Ok (r, h1, [EvLock; EvUnlock]) ∧ P h1) as HPd.
  { intros c h0 _ (Hinv0 & Ht0 & Hk0 & Hc0).
    destruct (do_call_inv c h0 Hinv0)
      as (r & h1 & Hr & Hinv1 & Ht1 & Hk1 & Hc1 & _).
    exists r, h1. split; [done|]. repeat split; try apply Hinv1; congruence. }
  assert (P (set_tick (wrap (tick h + 1)) h)) as HP1.
  { destruct Hinv as [Hs Hl]. destruct h; simpl in *. by repeat split. }
  destruct (beatCycle_P (call h) P (λ _, True) HPc HPd h
              (proj2 Hinv) eq_refl)
    as (h1 & Hrun & HP); [by apply Forall_true|intros d; by apply Forall_true|done|].
  by exists h1.
Qed.

(** X5.  In one beat cycle [Dead(id)] is invoked once for the id of a member
    that is overdue at the incremented tick, and not at all for any other id. *)
Theorem beatCycle_reports (h : Heart) :
  reachable h →
  ∃ h' tr, beatCycle h = Ok ((), h', tr) ∧
    (∀ id T, Entity id T ∈ mems h →
       dead_count id tr =
         if bool_decide (kill h ≤ wrap (wrap (tick h + 1) - T))%Z
         then 1%nat else 0%nat) ∧
    (∀ id, id ∉ ids h → dead_count id tr = 0%nat).
Proof.
  intros [Hinv _]%reachable_inv.
  destruct (beatCycle_inv h Hinv) as (h' & Hrun & _).
  eexists h', _. split; [exact Hrun|]. split.
  - intros id T Hin. rewrite dead_count_cycle, (collect_count id T).
    + by destruct h.
    + destruct Hinv as [Hs _]. apply StronglySorted_lt_NoDup. by destruct h.
    + by destruct h.
  - intros id Hid. rewrite dead_count_cycle. unfold collect.
    rewrite collect_absent; [done|]. by destruct h.
Qed.

(** Runs on a heart between operations return, keep it so, and advance the
    tick by one for every beat cycle. *)
Lemma run_ticks (ss : list step) :
  ∀ h, inv h → is_int (tick h) →
    ∃ trs h', run ss h = Ok (trs, h') ∧ inv h' ∧
      tick h' = wrap (tick h + Z.of_nat (cycles ss)) ∧
      kill h' = kill h ∧ call h' = call h ∧ length trs = length ss.
Proof.
  induction ss as [|s ss IH]; intros h Hinv Hint.
  { exists [], h. repeat split; try apply Hinv. unfold cycles. simpl.
    rewrite Z.add_0_r. symmetry. by apply wrap_small. }
  destruct s as [|c]; cbn [run exec].
  - destruct (beatCycle_inv h Hinv) as (h1 & Hrun & Hinv1 & Ht1 & Hk1 & Hc1).
    rewrite Hrun.
    destruct (IH h1 Hinv1) as (trs & h2 & Hrun2 & Hinv2 & Ht2 & Hk2 & Hc2 & Hlen).
    { rewrite Ht1. apply wrap_is_int. }
    rewrite Hrun2. eexists _, h2. split; [done|]. split; [done|].
    split; [|repeat split; simpl; congruence].
    rewrite Ht2, Ht1, wrap_add_l. apply (f_equal wrap).
    unfold cycles. rewrite filter_cons_True by done. simpl length. lia.
  - destruct (do_call_inv c h Hinv)
      as (r & h1 & Hr & Hinv1 & Ht1 & Hk1 & Hc1 & _).
    unfold mbind, M_bind. rewrite Hr. cbn [mret M_ret].
    destruct (IH h1 Hinv1) as (trs & h2 & Hrun2 & Hinv2 & Ht2 & Hk2 & Hc2 & Hlen).
    { by rewrite Ht1. }
    rewrite Hrun2. eexists _, h2. split; [done|]. split; [done|].
    split; [|repeat split; simpl; congruence].
    rewrite Ht2, Ht1. unfold cycles. by rewrite filter_cons_False by done.
Qed.

(** X6.  From a reachable heart every sequence of beat cycles and calls
    returns, also when the handler calls back into the heart from [Beat] and
    [Dead]: no step blocks on the mutex or indexes out of range. The mutex is
    free at the end, the members are in strictly increasing order of id, and
    the tick has advanced by the number of beat cycles. *)
Theorem run_returns (h : Heart) (ss : list step) :
  reachable h →
  ∃ trs h', run ss h = Ok (trs, h') ∧ length trs = length ss ∧
    lock h' = false ∧ StronglySorted Z.lt (ids h') ∧
    tick h' = wrap (tick h + Z.of_nat (cycles ss)) ∧ kill h' = kill h.
Proof.
  intros [Hinv Hint]%reachable_inv.
  destruct (run_ticks ss h Hinv Hint)
    as (trs & h' & Hrun & [Hs Hl] & Ht & Hk & _ & Hlen).
  by exists trs, h'.
Qed.

(** While [id] is not monitored and nobody monitors it, [Dead(id)] is never
    invoked. *)
Lemma run_unmonitored (id : Z) (ss : list step) :
  ∀ h, inv h → id ∉ ids h →
    avoids (λ c, c = CallMonitor id) (call h) ss →
    ∃ trs h', run ss h = Ok (trs, h') ∧ (id ∉ ids h') ∧
      Forall (λ tr, dead_count id tr = 0%nat) trs.
Proof.
  induction ss as [|s ss IH]; intros h Hinv Hid (HB & HD & Hss).
  { by exists [], h. }
  apply Forall_cons in Hss as [Hs Hss].
  pose (P := λ h', inv h' ∧ (id ∉ ids h') ∧ call h' = call h).
  assert (∀ c h0, c ≠ CallMonitor id → P h0 →
    ∃ r h1, do_call c h0 = Ok (r, h1, [EvLock; EvUnlock]) ∧ P h1) as HPd.
  { intros c h0 Hc (Hinv0 & Hid0 & Hc0).
    destruct (do_call_inv c h0 Hinv0)
      as (r & h1 & Hr & Hinv1 & _ & _ & Hc1 & _).
    exists r, h1. split; [done|]. split; [done|]. split; [|congruence].
    intros Hin. by destruct (do_call_ids c h0 h1 r _ id Hinv0 Hr Hin). }
  destruct s as [|c]; cbn [run exec].
  - assert (∀ h0, P h0 → call h0 = call h) as HPc by (by intros h0 (_ & _ & ?)).
    assert (P (set_tick (wrap (tick h + 1)) h)) as HP1.
    { destruct Hinv as [Hs' Hl]. destruct h; simpl in *. by repeat split. }
    destruct (beatCycle_P (call h) P (λ c, c ≠ CallMonitor id) HPc HPd h
                (proj2 Hinv) eq_refl HB HD HP1)
      as (h1 & Hrun & Hinv1 & Hid1 & Hc1).
    rewrite Hrun.
    destruct (IH h1 Hinv1 Hid1) as (trs & h2 & Hrun2 & Hid2 & Hall).
    { by rewrite Hc1. }
    rewrite Hrun2. eexists _, h2. split; [done|]. split; [done|].
    constructor; [|done]. rewrite dead_count_cycle. unfold collect.
    rewrite collect_absent; [done|]. by destruct h.
  - destruct (HPd c h) as (r & h1 & Hr & Hinv1 & Hid1 & Hc1);
      [by apply Hs|done|].
    unfold mbind, M_bind. rewrite Hr. cbn [mret M_ret].
    destruct (IH h1 Hinv1 Hid1) as (trs & h2 & Hrun2 & Hid2 & Hall).
    { by rewrite Hc1. }
    rewrite Hrun2. eexists _, h2. split; [done|]. split; [done|].
    constructor; [apply dead_count_call|done].
Qed.

(** X7.  On a reachable heart that does not monitor [id] (it never did, or it
    was unmonitored), and as long as nobody calls [Monitor(id)], no beat cycle
    invokes [Dead(id)]. *)
Theorem unmonitored_never_dead (h : Heart) (id : Z) (ss : list step) :
  reachable h → id ∉ ids h →
  avoids (λ c, c = CallMonitor id) (call h) ss →
  ∃ trs h', run ss h = Ok (trs, h') ∧
    Forall (λ tr, dead_count id tr = 0%nat) trs.
Proof.
  intros [Hinv _]%reachable_inv Hid Hav.
  destruct (run_unmonitored id ss h Hinv Hid Hav) as (trs & h' & Hrun & _ & Hall).
  by exists trs, h'.
Qed.

(** *** An entity that is pinged in time *)

Lemma fresh_mono (id m m' : Z) (h : Heart) :
  (m ≤ m')%Z → fresh id m h → fresh id m' h.
Proof.
  intros Hm (Hinv & T & n & Hin & Ht & Hn).
  split; [done|]. exists T, n. repeat split; try done; lia.
Qed.

Lemma do_call_fresh (id m : Z) (c : api_call) (h : Heart) :
  c ≠ CallUnmonitor id → fresh id m h →
  ∃ r h', do_call c h = Ok (r, h', [EvLock; EvUnlock]) ∧
    fresh id (if bool_decide (c = CallPing id) then 0 else m) h' ∧
    tick h' = tick h ∧ kill h' = kill h ∧ call h' = call h.
Proof.
  intros Hc (Hinv & T & n & Hin & Ht & Hn).
  destruct (do_call_inv c h Hinv)
    as (r & h' & Hrun & Hinv' & Ht' & Hk' & Hc' & Hkeep).
  exists r, h'. split; [done|]. split; [|done].
  split; [done|]. case_bool_decide as Hp.
  - subst c. exists (tick h), 0%Z.
    split; [|split; [|lia]].
    + destruct (Ping_inv h id Hinv) as [_ Hyes].
      destruct Hyes as (h1 & Hrun1 & _ & Hm & _).
      { apply list_elem_of_fmap. by exists (Entity id T). }
      simpl in Hrun. rewrite Hrun1 in Hrun. simplify_eq.
      rewrite Hm. apply list_elem_of_fmap. exists (Entity id T).
      split; [|done]. simpl. by rewrite bool_decide_eq_true_2.
    + rewrite Ht', Ht, wrap_add_l. apply (f_equal wrap). lia.
  - exists T, n. split; [|split; [congruence|done]].
    apply Hkeep; [|done]. intros [?|?]; done.
Qed.

(** A cycle on a heart whose entity [id] is fresh enough does not report it,
    and leaves it one cycle older at most. *)
Lemma beatCycle_fresh (id m : Z) (h : Heart) :
  fresh id m h → (m + 1 < kill h)%Z → (kill h < 2 ^ 63)%Z →
  Forall (λ c, c ≠ CallUnmonitor id) (Beat (call h)) →
  (∀ d, Forall (λ c, c ≠ CallUnmonitor id) (Dead (call h) d)) →
  ∃ h' tr, beatCycle h = Ok ((), h', tr) ∧ dead_count id tr = 0%nat ∧
    fresh id (m + 1) h' ∧ kill h' = kill h ∧ call h' = call h.
Proof.
  intros (Hinv & T & n & Hin & Ht & Hn) Hm Hk HB HD.
  pose (P := λ h', fresh id (m + 1) h' ∧ kill h' = kill h ∧
                   call h' = call h).
  assert (∀ h0, P h0 → call h0 = call h) as HPc by (by intros h0 (_ & _ & ?)).
  assert (∀ c h0, c ≠ CallUnmonitor id → P h0 →
    ∃ r h1, do_call c h0 = Ok (r, h1, [EvLock; EvUnlock]) ∧ P h1) as HPd.
  { intros c h0 Hc (Hf0 & Hk0 & Hc0).
    destruct (do_call_fresh id (m + 1) c h0 Hc Hf0)
      as (r & h1 & Hr & Hf1 & _ & Hk1 & Hc1).
    exists r, h1. split; [done|]. split; [|split; congruence].
    eapply fresh_mono; [|exact Hf1]. case_bool_decide; lia. }
  assert (tick (set_tick (wrap (tick h + 1)) h) = wrap (T + (n + 1))) as Ht1.
  { destruct h; simpl in *. rewrite Ht, wrap_add_l. apply (f_equal wrap). lia. }
  assert (P (set_tick (wrap (tick h + 1)) h)) as HP1.
  { split; [|by destruct h]. split.
    - destruct Hinv as [Hs Hl]. by destruct h.
    - exists T, (n + 1)%Z. split; [by destruct h|]. split; [done|lia]. }
  destruct (beatCycle_P (call h) P (λ c, c ≠ CallUnmonitor id) HPc HPd h
              (proj2 Hinv) eq_refl HB HD HP1)
    as (h1 & Hrun & Hf1 & Hk1 & Hc1).
  eexists h1, _. split; [exact Hrun|]. split; [|done].
  rewrite dead_count_cycle, (collect_count id T).
  - rewrite bool_decide_eq_false_2; [done|].
    rewrite Ht1, wrap_sub_l.
    replace (T + (n + 1) - T)%Z with (n + 1)%Z by lia.
    rewrite (wrap_small (n + 1)) by lia.
    destruct h; simpl in *. lia.
  - destruct Hinv as [Hs _]. apply StronglySorted_lt_NoDup. by destruct h.
  - by destruct h.
Qed.

Lemma run_fresh (id : Z) (ss : list step) :
  ∀ (h : Heart) (n : Z),
    fresh id n h → (kill h < 2 ^ 63)%Z →
    avoids (λ c, c = CallUnmonitor id) (call h) ss →
    pinged_in_time id (kill h) n ss = true →
    ∃ trs h', run ss h = Ok (trs, h') ∧ (id ∈ ids h') ∧
      Forall (λ tr, dead_count id tr = 0%nat) trs.
Proof.
  induction ss as [|s ss IH]; intros h n Hf Hk (HB & HD & Hss) Hp.
  { exists [], h. split; [done|]. split; [|done].
    destruct Hf as (_ & T & n' & Hin & _).
    apply list_elem_of_fmap. by exists (Entity id T). }
  apply Forall_cons in Hss as [Hs Hss].
  destruct s as [|c]; cbn [run exec].
  - simpl in Hp. apply andb_prop in Hp as [Hn%bool_decide_eq_true Hp].
    destruct (beatCycle_fresh id n h Hf Hn Hk HB HD)
      as (h1 & tr & Hrun & Hdead & Hf1 & Hk1 & Hc1).
    rewrite Hrun.
    destruct (IH h1 (n + 1)%Z Hf1) as (trs & h2 & Hrun2 & Hid2 & Hall).
    { by rewrite Hk1. }
    { by rewrite Hc1. }
    { by rewrite Hk1. }
    rewrite Hrun2. eexists _, h2. split; [done|]. split; [done|].
    by constructor.
  - destruct (do_call_fresh id n c h) as (r & h1 & Hr & Hf1 & _ & Hk1 & Hc1);
      [by apply Hs|done|].
    unfold mbind, M_bind. rewrite Hr. cbn [mret M_ret].
    destruct (IH h1 (if bool_decide (c = CallPing id) then 0 else n)%Z Hf1)
      as (trs & h2 & Hrun2 & Hid2 & Hall).
    { by rewrite Hk1. }
    { by rewrite Hc1. }
    { rewrite Hk1. destruct c as [j|j|j]; simpl in Hp.
      - by rewrite bool_decide_eq_false_2 by done.
      - by rewrite bool_decide_eq_false_2 by done.
      - destruct (decide (j = id)) as [->|Hne].
        + rewrite bool_decide_eq_true_2 in Hp by done.
          by rewrite bool_decide_eq_true_2 by done.
        + rewrite bool_decide_eq_false_2 in Hp by done.
          rewrite bool_decide_eq_false_2; [done|]. by intros [= ?]. }
    rewrite Hrun2. eexists _, h2. split; [done|]. split; [done|].
    constructor; [apply dead_count_call|done].
Qed.

(** X8.  Let [Monitor(id)] or [Ping(id)] succeed on a reachable heart, and let
    [id] from then on be pinged before [kill] beat cycles have passed since
    its last refresh, and not be unmonitored. Then no beat cycle invokes
    [Dead(id)], whatever else is called in between or from the handler, and
    [id] is still monitored at the end. *)
Theorem pinged_never_dead (h h1 : Heart) (c : api_call) (id : Z)
    (tr : list event) (ss : list step) :
  reachable h → (kill h < 2 ^ 63)%Z →
  c = CallMonitor id ∨ c = CallPing id →
  do_call c h = Ok (None, h1, tr) →
  avoids (λ c, c = CallUnmonitor id) (call h) ss →
  pinged_in_time id (kill h) 0 ss = true →
  ∃ trs h2, run ss h1 = Ok (trs, h2) ∧ (id ∈ ids h2) ∧
    Forall (λ tr, dead_count id tr = 0%nat) trs.
Proof.
  intros [Hinv Hint]%reachable_inv Hk Hc Hrun Hav Hp.
  pose proof (refresh_entity h h1 c id tr Hinv Hc Hrun) as Hin.
  destruct (do_call_inv c h Hinv)
    as (r & h' & Hrun' & Hinv' & Ht' & Hk' & Hc' & _).
  rewrite Hrun in Hrun'. injection Hrun' as <- <- _.
  apply (run_fresh id ss h1 0%Z).
  - split; [done|]. exists (tick h), 0%Z. split; [done|]. split; [|lia].
    rewrite Ht', Z.add_0_r. symmetry. by apply wrap_small.
  - by rewrite Hk'.
  - by rewrite Hc'.
  - by rewrite Hk'.
Qed.

(** *** The theorems at a heart of one member *)

Lemma Monitor_spec_witness :
  let cb := {| Beat := []; Dead := λ _, [CallMonitor 9] |} in
  let h := mkHeart [Entity 3 4] 5 3 cb false in
  reachable h ∧ (3%Z ∈ ids h) ∧ (1%Z ∉ ids h) ∧
  Monitor 3 h = Ok (Some DuplicateEntry, h, [EvLock; EvUnlock]) ∧
  ∃ h', Monitor 1 h = Ok (None, h', [EvLock; EvUnlock]) ∧
    mems h' ≡ₚ Entity 1 (tick h) :: mems h ∧
    StronglySorted Z.lt (ids h') ∧
    tick h' = tick h ∧ kill h' = kill h ∧ lock h' = false.
Proof.
  intros cb h.
  assert (reachable h) as Hreach.
  { exists 3%Z, cb,
      [Cycle; Cycle; Cycle; Cycle; Call (CallMonitor 3); Cycle].
    eexists. reflexivity. }
  assert (3%Z ∈ ids h) as Hin by apply list_elem_of_here.
  assert (1%Z ∉ ids h) as Hni.
  { intros [?|?%elem_of_nil]%elem_of_cons; done. }
  split; [done|]. split; [done|]. split; [done|]. split.
  - exact (proj1 (Monitor_spec h 3 Hreach) Hin).
  - exact (proj2 (Monitor_spec h 1 Hreach) Hni).
Defined.

Lemma Unmonitor_spec_witness :
  let cb := {| Beat := []; Dead := λ _, [CallMonitor 9] |} in
  let h := mkHeart [Entity 3 4] 5 3 cb false in
  reachable h ∧ (3%Z ∈ ids h) ∧ (1%Z ∉ ids h) ∧
  Unmonitor 1 h = Ok (Some NonMonitored, h, [EvLock; EvUnlock]) ∧
  ∃ h', Unmonitor 3 h = Ok (None, h', [EvLock; EvUnlock]) ∧
    mems h' = filter (λ m, ent_id m ≠ 3%Z) (mems h) ∧
    tick h' = tick h ∧ kill h' = kill h ∧ lock h' = false.
Proof.
  intros cb h.
  assert (reachable h) as Hreach.
  { exists 3%Z, cb,
      [Cycle; Cycle; Cycle; Cycle; Call (CallMonitor 3); Cycle].
    eexists. reflexivity. }
  assert (3%Z ∈ ids h) as Hin by apply list_elem_of_here.
  assert (1%Z ∉ ids h) as Hni.
  { intros [?|?%elem_of_nil]%elem_of_cons; done. }
  split; [done|]. split; [done|]. split; [done|]. split.
  - exact (proj1 (Unmonitor_spec h 1 Hreach) Hni).
  - exact (proj2 (Unmonitor_spec h 3 Hreach) Hin).
Defined.

Lemma Ping_spec_witness :
  let cb := {| Beat := []; Dead := λ _, [CallMonitor 9] |} in
  let h := mkHeart [Entity 3 4] 5 3 cb false in
  reachable h ∧ (3%Z ∈ ids h) ∧ (1%Z ∉ ids h) ∧
  Ping 1 h = Ok (Some NonMonitored, h, [EvLock; EvUnlock]) ∧
  ∃ h', Ping 3 h = Ok (None, h', [EvLock; EvUnlock]) ∧
    mems h' = (λ m, if bool_decide (ent_id m = 3%Z)
                    then Entity 3 (tick h) else m) <$> mems h ∧
    tick h' = tick h ∧ kill h' = kill h ∧ lock h' = false.
Proof.
  intros cb h.
  assert (reachable h) as Hreach.
  { exists 3%Z, cb,
      [Cycle; Cycle; Cycle; Cycle; Call (CallMonitor 3); Cycle].
    eexists. reflexivity. }
  assert (3%Z ∈ ids h) as Hin by apply list_elem_of_here.
  assert (1%Z ∉ ids h) as Hni.
  { intros [?|?%elem_of_nil]%elem_of_cons; done. }
  split; [done|]. split; [done|]. split; [done|]. split.
  - exact (proj1 (Ping_spec h 1 Hreach) Hni).
  - exact (proj2 (Ping_spec h 3 Hreach) Hin).
Defined.

Lemma Monitor_Unmonitor_witness :
  let cb := {| Beat := []; Dead := λ _, [CallMonitor 9] |} in
  let h := mkHeart [Entity 3 4] 5 3 cb false in
  (reachable h ∧ (1%Z ∉ ids h)) ∧
  ∃ h1, Monitor 1 h = Ok (None, h1, [EvLock; EvUnlock]) ∧
        Unmonitor 1 h1 = Ok (None, h, [EvLock; EvUnlock]).
Proof.
  intros cb h.
  assert (reachable h) as Hreach.
  { exists 3%Z, cb,
      [Cycle; Cycle; Cycle; Cycle; Call (CallMonitor 3); Cycle].
    eexists. reflexivity. }
  assert (1%Z ∉ ids h) as Hni.
  { intros [?|?%elem_of_nil]%elem_of_cons; done. }
  split; [done|].
  exact (Monitor_Unmonitor h 1 Hreach Hni).
Defined.

Lemma beatCycle_reports_witness :
  let cb := {| Beat := [CallPing 8]; Dead := λ _, [CallMonitor 9] |} in
  let h := mkHeart [Entity 3 2; Entity 8 4] 4 3 cb false in
  reachable h ∧
  ∃ h' tr, beatCycle h = Ok ((), h', tr) ∧
    (∀ id T, Entity id T ∈ mems h →
       dead_count id tr =
         if bool_decide (kill h ≤ wrap (wrap (tick h + 1) - T))%Z
         then 1%nat else 0%nat) ∧
    (∀ id, id ∉ ids h → dead_count id tr = 0%nat).
Proof.
  intros cb h.
  assert (reachable h) as Hreach.
  { exists 3%Z, cb,
      [Cycle; Cycle; Call (CallMonitor 3); Cycle; Cycle;
       Call (CallMonitor 8)].
    eexists. reflexivity. }
  split; [done|].
  exact (beatCycle_reports h Hreach).
Defined.

Lemma run_returns_witness :
  let cb := {| Beat := [CallPing 8]; Dead := λ d, [CallUnmonitor d] |} in
  let h := mkHeart [Entity 3 2; Entity 8 4] 4 3 cb false in
  let ss := [Cycle; Call (CallMonitor 5); Cycle; Call (CallUnmonitor 8)] in
  reachable h ∧
  ∃ trs h', run ss h = Ok (trs, h') ∧ length trs = length ss ∧
    lock h' = false ∧ StronglySorted Z.lt (ids h') ∧
    tick h' = wrap (tick h + Z.of_nat (cycles ss)) ∧ kill h' = kill h.
Proof.
  intros cb h ss.
  assert (reachable h) as Hreach.
  { exists 3%Z, cb,
      [Cycle; Cycle; Call (CallMonitor 3); Cycle; Cycle;
       Call (CallMonitor 8)].
    eexists. reflexivity. }
  split; [done|].
  exact (run_returns h ss Hreach).
Defined.

Lemma unmonitored_never_dead_witness :
  let cb := {| Beat := [CallPing 8]; Dead := λ d, [CallUnmonitor d] |} in
  let h := mkHeart [Entity 3 2; Entity 8 4] 4 3 cb false in
  let ss := [Cycle; Call (CallMonitor 5); Cycle; Call (CallPing 7); Cycle] in
  (reachable h ∧ (7%Z ∉ ids h) ∧
   avoids (λ c, c = CallMonitor 7) (call h) ss) ∧
  ∃ trs h', run ss h = Ok (trs, h') ∧
    Forall (λ tr, dead_count 7 tr = 0%nat) trs.
Proof.
  intros cb h ss.
  assert (reachable h) as Hreach.
  { exists 3%Z, cb,
      [Cycle; Cycle; Call (CallMonitor 3); Cycle; Cycle;
       Call (CallMonitor 8)].
    eexists. reflexivity. }
  assert (7%Z ∉ ids h) as Hni.
  { intros [?|[?|?%elem_of_nil]%elem_of_cons]%elem_of_cons; done. }
  assert (avoids (λ c, c = CallMonitor 7) (call h) ss) as Hav.
  { split; [by repeat constructor|]. split.
    - intros d. by repeat constructor.
    - repeat constructor; intros c' [= <-]; discriminate. }
  split; [done|].
  exact (unmonitored_never_dead h 7 ss Hreach Hni Hav).
Defined.

Lemma pinged_never_dead_witness :
  let cb := {| Beat := []; Dead := λ d, [CallMonitor d] |} in
  let h := mkHeart [Entity 3 4] 5 3 cb false in
  let h1 := mkHeart [Entity 3 4; Entity 7 5] 5 3 cb false in
  let ss := [Cycle; Cycle; Call (CallPing 7); Cycle; Call (CallPing 3);
             Cycle; Call (CallPing 7); Cycle; Cycle] in
  (reachable h ∧ (kill h < 2 ^ 63)%Z ∧
   do_call (CallMonitor 7) h = Ok (None, h1, [EvLock; EvUnlock]) ∧
   avoids (λ c, c = CallUnmonitor 7) (call h) ss ∧
   pinged_in_time 7 (kill h) 0 ss = true) ∧
  ∃ trs h2, run ss h1 = Ok (trs, h2) ∧ (7%Z ∈ ids h2) ∧
    Forall (λ tr, dead_count 7 tr = 0%nat) trs.
Proof.
  intros cb h h1 ss.
  assert (reachable h) as Hreach.
  { exists 3%Z, cb,
      [Cycle; Cycle; Cycle; Cycle; Call (CallMonitor 3); Cycle].
    eexists. reflexivity. }
  assert (kill h < 2 ^ 63)%Z as Hkill by (simpl; lia).
  assert (do_call (CallMonitor 7) h = Ok (None, h1, [EvLock; EvUnlock]))
    as Hrun by reflexivity.
  assert (avoids (λ c, c = CallUnmonitor 7) (call h) ss) as Hav.
  { split; [constructor|]. split.
    - intros d. by repeat constructor.
    - repeat constructor; intros c' [= <-]; discriminate. }
  assert (pinged_in_time 7 (kill h) 0 ss = true) as Hp by reflexivity.
  split; [done|].
  exact (pinged_never_dead h h1 (CallMonitor 7) 7 [EvLock; EvUnlock] ss
           Hreach Hkill (or_introl eq_refl) Hrun Hav Hp).
Defined.

End Heart.

(** ** The [sortext] package: [ext/sortext/search.go] *)

Module Sortext.

(** [SearchBigInts(a, x)]:
    [sort.Search(len(a), func(i int) bool { return a[i].Cmp(x) >= 0 })].
    [sort.Search] calls the closure below [len(a)] only. *)
Definition SearchBigInts (a : list Z) (x : Z) : nat :=
  GoSort.Search (length a)
    (λ i, from_option (λ y, bool_decide (x ≤ y)%Z) false (a !! i)).

(** Modelled from the spec: [sortext.BigInts] is not among the sources; it is
    the package's counterpart of [sort.Ints], sorting a slice of [*big.Int]
    in increasing order, which is what [SearchBigInts] requires of its
    argument. *)
Definition BigInts (a : list Z) : list Z :=
  GoSort.Sort (λ x y, bool_decide (x < y)%Z) a.

(** Modelled from the spec: [sortext.Unique] is not among the sources;
    [mergeLeaves] uses it to "deduplicate" the sorted slice, keeping
    [res[:Unique(...)]].  [Unique] sees the slice as a [sort.Interface], so an
    element is a duplicate when the last one kept is not [Less] than it.
    [unique_from less u l]: what is kept of [l] after [u] was kept. *)
Fixpoint unique_from {A : Type} (less : A → A → bool) (u : A) (l : list A)
    : list A :=
  match l with
  | [] => []
  | x :: l' =>
      if less u x then x :: unique_from less x l' else unique_from less u l'
  end.

(** Modelled from the spec: see [unique_from]. *)
Definition Unique {A : Type} (less : A → A → bool) (l : list A) : list A :=
  match l with
  | [] => []
  | x :: l' => x :: unique_from less x l'
  end.

(** [SearchBigRats(a, x)]: the same search on a slice of [*big.Rat]; a
    [big.Rat] is a fraction in lowest terms. *)
Definition SearchBigRats (a : list Qcanon.Qc) (x : Qcanon.Qc) : nat :=
  GoSort.Search (length a)
    (λ i, from_option (λ y, bool_decide (x ≤ y)%Qc) false (a !! i)).

(** *** Searching a sorted slice *)

Lemma BigInts_perm (a : list Z) : BigInts a ≡ₚ a.
Proof. apply merge_sort_Permutation. Qed.

Lemma BigInts_sorted (a : list Z) : StronglySorted Z.le (BigInts a).
Proof.
  assert (∀ x y : Z, GoSort.not_after (λ x y, bool_decide (x < y)%Z) x y ↔
                      (x ≤ y)%Z) as Hle.
  { intros x y. unfold GoSort.not_after. rewrite bool_decide_eq_false. lia. }
  eapply GoSort.StronglySorted_mono; [intros x y; apply Hle|].
  apply StronglySorted_merge_sort.
  - intros x y z. rewrite !Hle. lia.
  - intros x y. rewrite !Hle. lia.
Qed.

(** On a slice in increasing order the search finds [x] exactly when [x] is
    in the slice. *)
Lemma SearchBigInts_found (a : list Z) (x : Z) :
  StronglySorted Z.le a →
  (∃ y, a !! SearchBigInts a x = Some y ∧ y = x) ↔ x ∈ a.
Proof.
  intros Hs. unfold SearchBigInts.
  set (f := λ i : nat, from_option (λ y, bool_decide (x ≤ y)%Z) false (a !! i)).
  destruct (GoSort.Search_spec (length a) f) as (Hle & Hlo & Hhi).
  { intros i j Hij Hj. unfold f.
    destruct (a !! i) as [yi|] eqn:Hi; [|done].
    destruct (lookup_lt_is_Some_2 a j Hj) as [yj Hyj]. rewrite Hyj. simpl.
    rewrite !bool_decide_eq_true. intros Hx.
    destruct (decide (i = j)) as [->|]; [congruence|].
    assert (yi ≤ yj)%Z; [|lia].
    eapply (GoSort.StronglySorted_lookup_lt _ _ Hs i j); eauto with lia. }
  set (k := GoSort.Search (length a) f) in *.
  split.
  - intros (y & Hk & ->). by eapply list_elem_of_lookup_2.
  - intros [j Hj]%list_elem_of_lookup.
    assert (f j = true) as Hfj.
    { unfold f. rewrite Hj. simpl. apply bool_decide_eq_true. lia. }
    assert (k ≤ j)%nat as Hkj.
    { destruct (decide (k ≤ j)%nat); [done|].
      rewrite Hlo in Hfj by lia. done. }
    pose proof (lookup_lt_Some _ _ _ Hj) as Hjn.
    destruct (lookup_lt_is_Some_2 a k ltac:(lia)) as [yk Hyk].
    exists yk. split; [done|].
    destruct (decide (k = j)) as [->|Hne]; [congruence|].
    assert (f k = true) as Hfk by (apply Hhi; lia).
    unfold f in Hfk. rewrite Hyk in Hfk. simpl in Hfk.
    apply bool_decide_eq_true in Hfk.
    assert (yk ≤ x)%Z; [|lia].
    eapply (GoSort.StronglySorted_lookup_lt _ _ Hs k j); eauto with lia.
Qed.

(** *** Removing duplicates from a sorted slice *)

Section UniqueSorted.
Context {A : Type} (less : A → A → bool).

Lemma unique_from_sublist (u : A) (l : list A) :
  unique_from less u l `sublist_of` l.
Proof.
  revert u. induction l as [|x l IH]; intros u; simpl; [done|].
  destruct (less u x).
  - by apply sublist_skip.
  - by apply sublist_cons.
Qed.

Lemma Unique_sublist (l : list A) : Unique less l `sublist_of` l.
Proof.
  destruct l as [|x l]; simpl; [done|].
  apply sublist_skip, unique_from_sublist.
Qed.

Context (Hless : GoSort.strict_total less).

Lemma unique_from_spec (u : A) (l : list A) :
  Forall (GoSort.not_after less u) l →
  StronglySorted (GoSort.not_after less) l →
  (∀ x, x ∈ u :: unique_from less u l ↔ x ∈ u :: l) ∧
  StronglySorted (λ x y, less x y = true) (u :: unique_from less u l).
Proof using Hless.
  revert u. induction l as [|x l IH]; intros u Hu Hs.
  { split; [done|]. repeat constructor. }
  apply Forall_cons in Hu as [Hux Hu].
  apply StronglySorted_inv in Hs as [Hs Hx].
  cbn [unique_from]. destruct (less u x) eqn:Hlt.
  - destruct (IH x Hx Hs) as [Hel Hst]. split.
    + intros y. rewrite !(elem_of_cons _ y u). by rewrite Hel.
    + constructor; [done|].
      apply Forall_forall. intros y Hy. apply Hel in Hy.
      apply elem_of_cons in Hy as [->|Hy]; [done|].
      rewrite Forall_forall in Hx.
      eapply GoSort.less_not_after; [done..|]. by apply Hx.
  - assert (x = u) as ->.
    { destruct Hless as (_ & _ & Htot). by apply Htot. }
    destruct (IH u Hu Hs) as [Hel Hst]. split; [|done].
    intros y. rewrite Hel, !elem_of_cons. tauto.
Qed.

Lemma Unique_elem_of (l : list A) (x : A) :
  StronglySorted (GoSort.not_after less) l → x ∈ Unique less l ↔ x ∈ l.
Proof using Hless.
  destruct l as [|u l]; [done|]. intros [Hs Hu]%StronglySorted_inv.
  by apply unique_from_spec.
Qed.

Lemma Unique_sorted (l : list A) :
  StronglySorted (GoSort.not_after less) l →
  StronglySorted (λ x y, less x y = true) (Unique less l).
Proof using Hless.
  destruct l as [|u l]; [constructor|]. intros [Hs Hu]%StronglySorted_inv.
  by apply unique_from_spec.
Qed.

Lemma Unique_NoDup (l : list A) :
  StronglySorted (GoSort.not_after less) l → NoDup (Unique less l).
Proof using Hless.
  intros Hs%Unique_sorted. destruct Hless as (Hirr & _ & _).
  induction Hs as [|x l' Hs IH Hx]; constructor; [|done].
  rewrite Forall_forall in Hx. intros Hin. specialize (Hx x Hin).
  by rewrite Hirr in Hx.
Qed.

End UniqueSorted.

(** *** The index to insert at *)

(** X9.  Whatever the slice, sorted or not, [SearchBigInts] and
    [SearchBigRats] return an index between [0] and [len(a)]. *)
Theorem Search_within (a : list Z) (x : Z) (b : list Qcanon.Qc) (y : Qcanon.Qc) :
  (SearchBigInts a x ≤ length a)%nat ∧ (SearchBigRats b y ≤ length b)%nat.
Proof. split; apply GoSort.Search_le. Qed.

(** X10.  On a slice in increasing order [SearchBigInts(a, x)] is the index to
    insert [x] at: every element before it is below [x], every element from it
    on is at least [x], and [a] with [x] put in at that index is in increasing
    order. *)
Theorem SearchBigInts_insert (a : list Z) (x : Z) :
  StronglySorted Z.le a →
  Forall (λ y, y < x)%Z (take (SearchBigInts a x) a) ∧
  Forall (λ y, x ≤ y)%Z (drop (SearchBigInts a x) a) ∧
  StronglySorted Z.le
    (take (SearchBigInts a x) a ++ x :: drop (SearchBigInts a x) a).
Proof.
  intros Hs.
  destruct (GoSort.Search_sorted Z.le (λ y, bool_decide (x ≤ y)%Z) a Hs)
    as [Hlo Hhi].
  { intros y z Hyz. rewrite !bool_decide_eq_true. lia. }
  fold (SearchBigInts a x) in Hlo, Hhi.
  assert (Forall (λ y, y < x)%Z (take (SearchBigInts a x) a)) as Hlo'.
  { eapply Forall_impl; [exact Hlo|]. intros y Hy. simpl in Hy.
    apply bool_decide_eq_false in Hy. lia. }
  assert (Forall (λ y, x ≤ y)%Z (drop (SearchBigInts a x) a)) as Hhi'.
  { eapply Forall_impl; [exact Hhi|]. intros y Hy. simpl in Hy.
    by apply bool_decide_eq_true in Hy. }
  split; [done|]. split; [done|].
  rewrite <- (take_drop (SearchBigInts a x) a) in Hs.
  apply StronglySorted_app in Hs as (Hcross & Hs1 & Hs2).
  apply StronglySorted_app_2; [|done|by constructor].
  rewrite Forall_forall in Hlo'. rewrite Forall_forall in Hhi'.
  intros y z Hy [->|Hz]%elem_of_cons.
  - specialize (Hlo' y Hy). lia.
  - by apply Hcross.
Qed.

Lemma SearchBigInts_insert_witness :
  StronglySorted Z.le [2; 3; 5; 5; 8]%Z ∧
  Forall (λ y, y < 5)%Z (take (SearchBigInts [2; 3; 5; 5; 8]%Z 5) [2; 3; 5; 5; 8]%Z) ∧
  Forall (λ y, 5 ≤ y)%Z (drop (SearchBigInts [2; 3; 5; 5; 8]%Z 5) [2; 3; 5; 5; 8]%Z) ∧
  StronglySorted Z.le
    (take (SearchBigInts [2; 3; 5; 5; 8]%Z 5) [2; 3; 5; 5; 8]%Z ++
     5%Z :: drop (SearchBigInts [2; 3; 5; 5; 8]%Z 5) [2; 3; 5; 5; 8]%Z).
Proof.
  assert (StronglySorted Z.le [2; 3; 5; 5; 8]%Z) as Hs.
  { repeat constructor; lia. }
  split; [done|].
  exact (SearchBigInts_insert [2; 3; 5; 5; 8]%Z 5 Hs).
Defined.

(** X11.  On a slice of rationals in increasing order [SearchBigRats(a, x)] is
    the index to insert [x] at: every element before it is below [x], every
    element from it on is at least [x], and an element equal to [x], if there
    is one, sits at that index. *)
Theorem SearchBigRats_insert (a : list Qcanon.Qc) (x : Qcanon.Qc) :
  StronglySorted Qcanon.Qcle a →
  Forall (λ y, Qcanon.Qclt y x) (take (SearchBigRats a x) a) ∧
  Forall (λ y, x ≤ y)%Qc (drop (SearchBigRats a x) a) ∧
  (x ∈ a → a !! SearchBigRats a x = Some x).
Proof.
  intros Hs.
  destruct (GoSort.Search_sorted Qcanon.Qcle (λ y, bool_decide (x ≤ y)%Qc) a Hs)
    as [Hlo Hhi].
  { intros y z Hyz. rewrite !bool_decide_eq_true. intros Hxy.
    by eapply Qcanon.Qcle_trans. }
  fold (SearchBigRats a x) in Hlo, Hhi.
  assert (Forall (λ y, Qcanon.Qclt y x) (take (SearchBigRats a x) a)) as Hlo'.
  { eapply Forall_impl; [exact Hlo|]. intros y Hy. simpl in Hy.
    apply bool_decide_eq_false in Hy. by apply Qcanon.Qcnot_le_lt. }
  assert (Forall (λ y, x ≤ y)%Qc (drop (SearchBigRats a x) a)) as Hhi'.
  { eapply Forall_impl; [exact Hhi|]. intros y Hy. simpl in Hy.
    by apply bool_decide_eq_true in Hy. }
  split; [done|]. split; [done|].
  intros Hin. rewrite <- (take_drop (SearchBigRats a x) a) in Hin, Hs.
  apply elem_of_app in Hin as [Hin|Hin].
  { rewrite Forall_forall in Hlo'. specialize (Hlo' x Hin).
    by apply Qcanon.Qclt_not_eq in Hlo'. }
  apply StronglySorted_app_1_r in Hs.
  destruct (drop (SearchBigRats a x) a) as [|z l] eqn:Hd.
  { by apply elem_of_nil in Hin. }
  assert (a !! SearchBigRats a x = Some z) as Hz.
  { rewrite <- (Nat.add_0_r (SearchBigRats a x)), <- lookup_drop, Hd. done. }
  rewrite Hz. f_equal.
  apply Forall_cons in Hhi' as [Hxz _].
  apply StronglySorted_inv in Hs as [_ Hzl].
  apply elem_of_cons in Hin as [->|Hin]; [done|].
  rewrite Forall_forall in Hzl. specialize (Hzl x Hin).
  by apply Qcanon.Qcle_antisym.
Qed.

Lemma SearchBigRats_insert_witness :
  let a := [Qcanon.Q2Qc (QArith_base.Qmake 1 3); Qcanon.Q2Qc (QArith_base.Qmake 1 2); Qcanon.Q2Qc (QArith_base.Qmake 3 4)] in
  StronglySorted Qcanon.Qcle a ∧
  Forall (λ y, Qcanon.Qclt y (Qcanon.Q2Qc (QArith_base.Qmake 1 2))) (take (SearchBigRats a (Qcanon.Q2Qc (QArith_base.Qmake 1 2))) a) ∧
  Forall (λ y, Qcanon.Q2Qc (QArith_base.Qmake 1 2) ≤ y)%Qc (drop (SearchBigRats a (Qcanon.Q2Qc (QArith_base.Qmake 1 2))) a) ∧
  (Qcanon.Q2Qc (QArith_base.Qmake 1 2) ∈ a → a !! SearchBigRats a (Qcanon.Q2Qc (QArith_base.Qmake 1 2)) = Some (Qcanon.Q2Qc (QArith_base.Qmake 1 2))).
Proof.
  intros a.
  assert (StronglySorted Qcanon.Qcle a) as Hs.
  { repeat constructor; by intros [=]. }
  split; [done|].
  exact (SearchBigRats_insert a (Qcanon.Q2Qc (QArith_base.Qmake 1 2)) Hs).
Defined.

End Sortext.

(** ** [math/big]: reading an id *)

Module Big.

(** The value of a decimal digit. *)
Definition digit (c : ascii) : option Z :=
  let n := Z.of_nat (nat_of_ascii c) in
  if bool_decide (48 ≤ n ≤ 57)%Z then Some (n - 48)%Z else None.

(** The number that the digits of [s] continue from [acc]; [None] when [s]
    holds anything but decimal digits. *)
Fixpoint digits (acc : Z) (s : string) : option Z :=
  match s with
  | EmptyString => Some acc
  | String c s' =>
      match digit c with
      | Some d => digits (10 * acc + d) s'
      | None => None
      end
  end.

(** [new(big.Int).SetString(s, 10)]: an optional sign and then one or more
    decimal digits, the whole string; [None] is [ok == false]. *)
Definition SetString10 (s : string) : option Z :=
  match s with
  | EmptyString => None
  | String c s' =>
      if bool_decide (c = "-"%char) then
        match s' with
        | EmptyString => None
        | _ => Z.opp <$> digits 0 s'
        end
      else if bool_decide (c = "+"%char) then
        match s' with
        | EmptyString => None
        | _ => digits 0 s'
        end
      else digits 0 s
  end.

(** [x.String()]: the decimal text of [x], with a [-] before the digits of a
    negative number. *)
Definition String (x : Z) : string := pretty x.

(** *** Reading back what [String] writes *)

Lemma digit_pretty (d : N) :
  (d < 10)%N → digit (pretty_N_char d) = Some (Z.of_N d).
Proof.
  intros Hd.
  assert (d = 0 ∨ d = 1 ∨ d = 2 ∨ d = 3 ∨ d = 4 ∨ d = 5 ∨ d = 6 ∨ d = 7 ∨
          d = 8 ∨ d = 9)%N as Hcases by lia.
  repeat (destruct Hcases as [->|Hcases]; [reflexivity|]).
  by subst d.
Qed.

Lemma digits_pretty_N_go (x : N) :
  ∀ s acc, ∃ k : nat,
    digits acc (pretty_N_go x s) =
    digits (acc * 10 ^ Z.of_nat k + Z.of_N x) s.
Proof.
  induction (N.lt_wf_0 x) as [x _ IH]; intros s acc.
  destruct (decide (0 < x)%N) as [Hx|Hx].
  - rewrite pretty_N_go_step by done.
    destruct (IH (x `div` 10)%N (N.div_lt x 10 Hx eq_refl)
                (String.String (pretty_N_char (x `mod` 10)) s) acc)
      as [k Hk].
    exists (S k). rewrite Hk. cbn [digits].
    rewrite digit_pretty by (by apply N.mod_lt).
    f_equal. rewrite Nat2Z.inj_succ, Z.pow_succ_r by lia.
    rewrite (N.div_mod x 10) at 3 by done.
    rewrite N2Z.inj_add, N2Z.inj_mul. simpl Z.of_N at 3. lia.
  - assert (x = 0%N) as -> by lia. exists 0%nat.
    rewrite pretty_N_go_0. f_equal. simpl. lia.
Qed.

Lemma digits_pretty_pos (p : positive) :
  digits 0 (pretty_N_go (N.pos p) "") = Some (Z.pos p).
Proof.
  destruct (digits_pretty_N_go (N.pos p) "" 0) as [k ->]. done.
Qed.

Lemma SetString10_digits (s : string) (v : Z) :
  s ≠ ""%string → digits 0 s = Some v → SetString10 s = Some v.
Proof.
  destruct s as [|c s]; [done|]. intros _ Hd. unfold SetString10.
  cbn [digits] in Hd.
  case_bool_decide as H1; [by subst c|].
  case_bool_decide as H2; [by subst c|]. done.
Qed.

(** Reading the decimal text of a number gives the number back. *)
Lemma SetString10_String_eq (x : Z) : SetString10 (String x) = Some x.
Proof.
  destruct x as [|p|p].
  - reflexivity.
  - change (String (Z.pos p)) with (pretty_N_go (N.pos p) "").
    pose proof (digits_pretty_pos p) as Hd.
    apply SetString10_digits; [|done]. by intros Heq; rewrite Heq in Hd.
  - change (String (Z.neg p))
      with (String.String "-" (pretty_N_go (N.pos p) "")).
    pose proof (digits_pretty_pos p) as Hd.
    unfold SetString10. rewrite bool_decide_eq_true_2 by done.
    destruct (pretty_N_go (N.pos p) "") as [|c s] eqn:Hs; [done|].
    by rewrite Hd.
Qed.

(** X12.  [SetString(x.String(), 10)] gives [x] back, and two numbers with the
    same text are equal. *)
Theorem String_round_trip (x y : Z) :
  SetString10 (String x) = Some x ∧ (String x = String y → x = y).
Proof.
  split; [apply SetString10_String_eq|]. apply pretty_Z_inj.
Qed.

End Big.

(** ** Routing-table maintenance: [proto/overlay/maintenance.go] *)

Module Overlay.

(** [type table struct]: the leaf set and the prefix table; an empty cell of
    [routes] is [nil]. *)
Record table : Type := Table {
  leaves : list Z;
  routes : list (list (option Z))
}.

(** [type peer struct]: its fields [nodeId] and [addrs]. *)
Record peer : Type := Peer { peer_nodeId : Z; peer_addrs : list string }.

(** [type state struct].  [Addrs] is a Go map; it is listed in the order in
    which [range] visits it, which Go leaves unspecified. *)
Record state : Type := mkState {
  Addrs : list (string * list string);
  Updated : Z;
  Repair : bool;
  Passive : bool
}.

(** [type header struct]: the destination and the state of a system
    message. *)
Record header : Type := Header { Dest : Z; State : state }.

(** [type Overlay struct]: the local id, the connection pool (its peers, in
    the order of one [range] over the map), the routing table in use (the
    field [routes] of the Go struct) and the epoch. *)
Record Overlay : Type := mkOverlay {
  nodeId : Z;
  pool : list peer;
  live : table;
  time : Z
}.

(** [routes[r][c]]: [None] outside the table, [Some None] for an empty cell. *)
Definition cell (rt : list (list (option Z))) (r c : nat)
    : option (option Z) :=
  rt !! r ≫= λ row, row !! c.

(** [res[min:max]]: Go requires [0 <= min <= max <= cap(res)]; every use
    below has [max <= len(res)]. *)
Definition slice {A : Type} (res : list A) (min max : Z) : result (list A) :=
  if bool_decide (0 ≤ min ∧ min ≤ max ∧ max ≤ Z.of_nat (length res))%Z
  then Ok (take (Z.to_nat (max - min)) (drop (Z.to_nat min) res))
  else Fault SliceBoundsOutOfRange.

(** Modelled from the spec: "the circular order anchored at [self]: treat the
    ring as starting immediately after [self] and increasing", on ids of
    [space] bits.  Ids outside the id space, which no overlay holds, are
    ordered by value after their place on the ring, so that the order is
    total. *)
Definition ring_less (space : Z) (origin a b : Z) : bool :=
  let key x := ((x - origin - 1) `mod` 2 ^ space)%Z in
  bool_decide (key a < key b ∨ (key a = key b ∧ a < b))%Z.

(** Modelled from the spec: the [k]-th base-[base] digit of an id of
    [ndigits] digits, most significant first. *)
Definition digit_at (base : Z) (ndigits : nat) (x : Z) (k : nat) : Z :=
  ((x `div` base ^ Z.of_nat (ndigits - 1 - k)) `mod` base)%Z.

(** Modelled from the spec: the number of leading digits that [a] and [b]
    share, counted from position [k] with [fuel] digits left. *)
Fixpoint shared (base : Z) (ndigits : nat) (a b : Z) (fuel k : nat) : nat :=
  match fuel with
  | O => k
  | S fuel' =>
      if bool_decide (digit_at base ndigits a k = digit_at base ndigits b k)
      then shared base ndigits a b fuel' (S k)
      else k
  end.

(** Modelled from the spec: "[prefix(self, other) = (row, col)] where [row] is
    the length of the shared leading base-[b] digit prefix and [col] is the
    next digit of [other]". *)
Definition prefix_digits (base : Z) (ndigits : nat) (a b : Z) : nat * nat :=
  let row := shared base ndigits a b ndigits 0 in
  (row, Z.to_nat (digit_at base ndigits b row)).

(** A node of an 8-bit id space with base-4 digits, for the examples: the
    node 100 with two peers, 17 in its table and 200 passive, and a state it
    may receive. *)
Definition node100 : Overlay :=
  mkOverlay 100 [Peer 17 []; Peer 200 []]
    (Table [17; 100]%Z
       [[Some 17%Z; None; None; None]; [None; None; None; None];
        [None; None; None; None]; [None; None; None; None]])
    3.

Definition state100 : state :=
  mkState [("101"%string, ["10.0.0.101:55555"%string]);
         ("x1"%string, []);
         ("100"%string, []);
         ("36"%string, ["10.0.0.36:55555"%string]);
         ("9"%string, [])] 1 false false.

Section Maintenance.

(** [config.OverlayLeaves]. *)
Variable OverlayLeaves : Z.

(** [idSlice{origin, data}.Less], on the values compared: the declaration of
    [idSlice] is not among the sources, so the order it sorts by is a
    parameter.  [idLess origin a b] says that [a] comes before [b] in the
    circular order anchored at [origin]. *)
Variable idLess : Z → Z → Z → bool.

(** [prefix(a, b)]: the row and the column of [b] in the table of [a].  Its
    definition is not among the sources. *)
Variable prefix : Z → Z → nat * nat.

(** The loop [for o.nodeId.Cmp(res[origin]) != 0 { origin++ }]; [rest] is
    [res[origin:]].  Reading [res[origin]] past the end stops the program. *)
Fixpoint origin_loop (self : Z) (rest : list Z) (origin : Z) : result Z :=
  match rest with
  | [] => Fault IndexOutOfRange
  | x :: rest' =>
      if bool_decide (self = x) then Ok origin
      else origin_loop self rest' (origin + 1)
  end.

Definition mergeLeaves (o : Overlay) (a b : list Z) : result (list Z) :=
  let res := a ++ b in
  let res := GoSort.Sort (idLess (nodeId o)) res in
  let res := Sortext.Unique (idLess (nodeId o)) res in
  origin ← origin_loop (nodeId o) res 0;
  let min := Z.max 0 (origin - OverlayLeaves `quot` 2) in
  let max := Z.min (Z.of_nat (length res)) (origin + OverlayLeaves `quot` 2) in
  slice res min max.

(** The first loop of [merge]: the ids of the state that parse and are not
    the local id, in the order visited, and the addresses recorded for
    them. *)
Fixpoint extract (self : Z) (entries : list (string * list string))
    (ids : list Z) (a : gmap string (list string))
    : list Z * gmap string (list string) :=
  match entries with
  | [] => (ids, a)
  | (sid, addrs) :: entries' =>
      match Big.SetString10 sid with
      | Some id =>
          if bool_decide (self ≠ id)
          then extract self entries' (ids ++ [id]) (<[sid := addrs]> a)
          else extract self entries' ids a
      | None => extract self entries' ids a
      end
  end.

(** The ids that [merge] takes from the state [s]. *)
Definition received (o : Overlay) (a : gmap string (list string)) (s : state)
    : list Z :=
  (extract (nodeId o) (Addrs s) [] a).1.

(** The body of the second loop of [merge]. *)
Definition install (self : Z) (rt : list (list (option Z))) (id : Z)
    : result (list (list (option Z))) :=
  let '(row, col) := prefix self id in
  r ← index rt row;
  old ← index r col;
  match old with
  | None => Ok (<[row := <[col := Some id]> r]> rt)
  | Some old => Ok rt
  end.

Fixpoint install_all (self : Z) (rt : list (list (option Z))) (ids : list Z)
    : result (list (list (option Z))) :=
  match ids with
  | [] => Ok rt
  | id :: ids' => rt' ← install self rt id; install_all self rt' ids'
  end.

Definition merge (o : Overlay) (t : table) (a : gmap string (list string))
    (s : state) : result (table * gmap string (list string)) :=
  let '(ids, a') := extract (nodeId o) (Addrs s) [] a in
  lv ← mergeLeaves o (leaves t) ids;
  rt ← install_all (nodeId o) (routes t) ids;
  Ok (Table lv rt, a').

(** [idx := sortext.SearchBigInts(downs, id);
     idx < len(downs) && downs[idx].Cmp(id) == 0]. *)
Definition is_down (downs : list Z) (id : Z) : bool :=
  from_option (λ d, bool_decide (d = id)) false
    (downs !! Sortext.SearchBigInts downs id).

(** The first loop of [revoke], from index [i]: a leaf that is down is
    overwritten by the last one and the slice is cut by one; [i] advances
    otherwise.  [len(lv) - i] falls at every iteration and bounds [fuel]. *)
Fixpoint clean_loop (fuel : nat) (downs lv : list Z) (i : nat)
    (intact : bool) : list Z * bool :=
  match fuel with
  | O => (lv, intact)
  | S fuel' =>
      match lv !! i with
      | None => (lv, intact)
      | Some x =>
          if is_down downs x then
            let lv' :=
              match lv !! (length lv - 1)%nat with
              | Some y => take (length lv - 1) (<[i := y]> lv)
              | None => lv
              end in
            clean_loop fuel' downs lv' i false
          else clean_loop fuel' downs lv (i + 1) intact
      end
  end.

(** The inner loop of the second part of [revoke]: the first peer, in the
    order [visited], whose id has the prefix of the cell. *)
Definition repair (self : Z) (r i : nat) (visited : list peer) : option Z :=
  peer_nodeId <$>
    head (filter (λ p, prefix self (peer_nodeId p) = (r, i)) visited).

(** [revoke].  [visit r i] is the order in which the [range] over the pool
    that repairs cell [(r, i)] visits the peers. *)
Definition revoke (o : Overlay) (visit : nat → nat → list peer)
    (t : table) (downs : list Z) : result table :=
  let downs := Sortext.BigInts downs in
  let '(lv, intact) := clean_loop (length (leaves t)) downs (leaves t) 0 true in
  lv' ← (if intact then Ok lv
         else mergeLeaves o lv (peer_nodeId <$> pool o));
  let rt :=
    imap (λ r row,
      imap (λ i c,
        match c with
        | Some id =>
            if is_down downs id then repair (nodeId o) r i (visit r i)
            else Some id
        | None => None
        end) row) (routes t) in
  Ok (Table lv' rt).

(** The [switch] of [changed] on one cell. *)
Definition changed_cell (oldId newId : option Z) (acc : bool * bool)
    : bool * bool :=
  match newId, oldId with
  | None, Some _ => (true, true)
  | Some _, None => (true, acc.2)
  | None, None => acc
  | Some n, Some o => if bool_decide (n ≠ o) then (true, acc.2) else acc
  end.

(** The loop over [c] of [changed], for the row [r]. *)
Fixpoint changed_row (o : Overlay) (t : table) (r : nat) (cs : list nat)
    (acc : bool * bool) : result (bool * bool) :=
  match cs with
  | [] => Ok acc
  | c :: cs' =>
      oldRow ← index (routes (live o)) r;
      oldId ← index oldRow c;
      newRow ← index (routes t) r;
      newId ← index newRow c;
      changed_row o t r cs' (changed_cell oldId newId acc)
  end.

(** The loop over [r] of [changed]; its inner bound is [len(t.routes[0])]. *)
Fixpoint changed_rows (o : Overlay) (t : table) (rs : list nat)
    (acc : bool * bool) : result (bool * bool) :=
  match rs with
  | [] => Ok acc
  | r :: rs' =>
      row0 ← index (routes t) 0;
      acc' ← changed_row o t r (seq 0 (length row0)) acc;
      changed_rows o t rs' acc'
  end.

(** [changed(t)]: [t] against the live table [o.routes]. *)
Definition changed (o : Overlay) (t : table) : result (bool * bool) :=
  let ch :=
    if bool_decide (length (leaves t) ≠ length (leaves (live o))) then true
    else existsb (λ '(x, y), bool_decide (x ≠ y))
           (zip (leaves t) (leaves (live o))) in
  changed_rows o t (seq 0 (length (routes t))) (ch, false).

(** [active(p)]. *)
Definition active (o : Overlay) (p : Z) : bool :=
  existsb (λ id, bool_decide (p = id)) (leaves (live o)) ||
  existsb (λ row,
    existsb (λ c, from_option (λ id, bool_decide (p = id)) false c) row)
    (routes (live o)).

(** [sendBeat(p, passive)] up to the send: the receiver and the message.
    [o'] is the overlay at the time the goroutine reads [o.time]. *)
Definition sendBeat (o' : Overlay) (p : peer) (passive : bool)
    : peer * header :=
  (p, Header (peer_nodeId p) (mkState [] (time o') false passive)).

(** One [case <-tick] of [beater]: a heartbeat for every peer of the pool.
    [passive] is evaluated at the [go] statement, on [o]; each goroutine runs
    later, on the overlay [later p]. *)
Definition beater (o : Overlay) (later : peer → Overlay)
    : list (peer * header) :=
  (λ p, sendBeat (later p) p (negb (active o (peer_nodeId p)))) <$> pool o.


(** What a table holds. *)
Definition occurs (id : Z) (t : table) : Prop :=
  id ∈ leaves t ∨ ∃ r c, cell (routes t) r c = Some (Some id).

(** The state of a routing table of the node [self] between operations: the
    leaves are distinct and hold [self]; an id in cell [(r, c)] is not [self]
    and has the prefix [(r, c)]. *)
Definition table_ok (self : Z) (t : table) : Prop :=
  NoDup (leaves t) ∧ self ∈ leaves t ∧
  ∀ r c id, cell (routes t) r c = Some (Some id) →
    id ≠ self ∧ prefix self id = (r, c).

(** A prefix table of [rows] rows of [cols] cells. *)
Definition rectangular (rows cols : nat) (rt : list (list (option Z))) : Prop :=
  length rt = rows ∧ Forall (λ row, length row = cols) rt.

(** A route slot that the live table of [o] fills and [t] leaves empty. *)
Definition lost (o : Overlay) (t : table) (r c : nat) : Prop :=
  cell (routes t) r c = Some None ∧
  ∃ id, cell (routes (live o)) r c = Some (Some id).

(** No id sits in two cells of the prefix table. *)
Definition routes_distinct (t : table) : Prop :=
  ∀ r c r' c' id,
    cell (routes t) r c = Some (Some id) →
    cell (routes t) r' c' = Some (Some id) → (r, c) = (r', c').

(** The sorted, duplicate-free slice of [mergeLeaves]. *)
Definition merged (self : Z) (a b : list Z) : list Z :=
  Sortext.Unique (idLess self) (GoSort.Sort (idLess self) (a ++ b)).

(** [_, ok := o.pool[id.String()]]: the pool is keyed by the decimal text of
    the ids of its peers (see [drop]), which tells ids apart. *)
Definition pooled (o : Overlay) (id : Z) : bool :=
  bool_decide (id ∈ peer_nodeId <$> pool o).

(** [discover(t)]: the ids of the leaves other than the local id, and then
    of the cells row by row, that the pool does not hold; sorted by value
    and without duplicates. *)
Definition discover (o : Overlay) (t : table) : list Z :=
  let ids :=
    filter (λ id, id ≠ nodeId o ∧ pooled o id = false) (leaves t) in
  let ids :=
    ids ++ filter (λ id, pooled o id = false) (omap id (mjoin (routes t))) in
  Sortext.Unique (λ x y, bool_decide (x < y)%Z) (Sortext.BigInts ids).

(** [sendWrap(s, dest, p)] up to the send: the receiver and the message. *)
Definition sendWrap (s : state) (dest : Z) (p : peer) : peer * header :=
  (p, Header dest s).

(** [sendJoin(p)]: a state of update time 0 that holds the local addresses
    only.  [addrs] is the field [o.addrs]. *)
Definition sendJoin (o : Overlay) (addrs : list string) (p : peer)
    : peer * header :=
  sendWrap (mkState [(Big.String (nodeId o), addrs)] 0 false false)
    (nodeId o) p.

(** [node, ok := o.pool[id.String()]]: the peer of the pool with the id
    [id]. *)
Definition pool_lookup (o : Overlay) (id : Z) : option peer :=
  head (filter (λ q, peer_nodeId q = id) (pool o)).

(** [if node, ok := o.pool[sid]; ok { s.Addrs[sid] = node.addrs }]. *)
Definition put_peer (o : Overlay) (m : gmap string (list string)) (id : Z)
    : gmap string (list string) :=
  match pool_lookup o id with
  | Some node => <[Big.String id := peer_addrs node]> m
  | None => m
  end.

(** The address map that [sendState(p, repair)] fills: the local addresses,
    the leaves other than the local id, and the cells of row [idx] of the
    prefix table, each if the pool has its peer. *)
Definition state_addrs (o : Overlay) (addrs : list string)
    (row : list (option Z)) : gmap string (list string) :=
  let m := <[Big.String (nodeId o) := addrs]> ∅ in
  let m :=
    foldl (λ m id, if bool_decide (id ≠ nodeId o) then put_peer o m id else m)
      m (leaves (live o)) in
  foldl (λ m c, match c with Some id => put_peer o m id | None => m end)
    m row.

(** [sendState(p, repair)] up to the send.  [addrs] is the field [o.addrs];
    the address map is listed in the order of the [gmap], and a receiver may
    range over it in any order. *)
Definition sendState (o : Overlay) (addrs : list string) (p : peer)
    (repair : bool) : result (peer * header) :=
  row ← index (routes (live o)) (prefix (nodeId o) (peer_nodeId p)).1;
  Ok (sendWrap
        (mkState (map_to_list (state_addrs o addrs row)) (time o) repair false)
        (nodeId o) p).

(** The ids that a state of [sendState] speaks of: the sender, and the ids
    of its leaves and of row [row] that are in its pool. *)
Definition spoken (o : Overlay) (row : list (option Z)) (id : Z) : Prop :=
  id = nodeId o ∨
  (id ∈ (peer_nodeId <$> pool o) ∧ (id ∈ leaves (live o) ∨ Some id ∈ row)).

(** *** [mergeLeaves] *)

Lemma origin_loop_Ok (self : Z) (rest : list Z) (k origin : Z) :
  origin_loop self rest k = Ok origin →
  ∃ i : nat, origin = (k + Z.of_nat i)%Z ∧ rest !! i = Some self.
Proof.
  revert k. induction rest as [|x rest IH]; intros k; simpl; [done|].
  case_bool_decide as Hx.
  - intros [= <-]. exists 0%nat. split; [lia|by subst].
  - intros (i & -> & Hi)%IH. exists (S i). split; [lia|done].
Qed.

Lemma origin_loop_elem (self : Z) (rest : list Z) (k : Z) :
  self ∈ rest → is_Ok (origin_loop self rest k).
Proof.
  revert k. induction rest as [|x rest IH]; intros k Hin; simpl.
  { by apply elem_of_nil in Hin. }
  case_bool_decide as Hx; [by eexists|].
  apply IH. apply elem_of_cons in Hin as [?|?]; done.
Qed.

Lemma origin_loop_fault (self : Z) (rest : list Z) (k : Z) :
  self ∉ rest → origin_loop self rest k = Fault IndexOutOfRange.
Proof.
  revert k. induction rest as [|x rest IH]; intros k Hni; simpl; [done|].
  apply not_elem_of_cons in Hni as [Hne Hni].
  rewrite bool_decide_eq_false_2 by done. by apply IH.
Qed.

Lemma merged_subseteq (self : Z) (a b : list Z) (x : Z) :
  x ∈ merged self a b → x ∈ a ++ b.
Proof.
  intros Hx. rewrite <- (GoSort.Sort_perm (idLess self)).
  eapply sublist_subseteq; [apply Sortext.Unique_sublist|done].
Qed.

Lemma merged_elem_of (self : Z) (a b : list Z) (x : Z) :
  GoSort.strict_total (idLess self) → x ∈ merged self a b ↔ x ∈ a ++ b.
Proof.
  intros Hless. unfold merged.
  rewrite Sortext.Unique_elem_of; [|done|by apply GoSort.Sort_sorted].
  by rewrite GoSort.Sort_perm.
Qed.

Lemma merged_NoDup (self : Z) (a b : list Z) :
  GoSort.strict_total (idLess self) → NoDup (merged self a b).
Proof.
  intros Hless. apply Sortext.Unique_NoDup; [done|].
  by apply GoSort.Sort_sorted.
Qed.


Lemma mergeLeaves_merged (o : Overlay) (a b : list Z) :
  mergeLeaves o a b =
    match origin_loop (nodeId o) (merged (nodeId o) a b) 0 with
    | Ok origin =>
        slice (merged (nodeId o) a b)
          (Z.max 0 (origin - OverlayLeaves `quot` 2))
          (Z.min (Z.of_nat (length (merged (nodeId o) a b)))
                 (origin + OverlayLeaves `quot` 2))
    | Fault f => Fault f
    end.
Proof. reflexivity. Qed.

(** What [mergeLeaves] returns, when it returns: the window of the merged
    slice around the position [i] of the local id. *)
Lemma mergeLeaves_Ok (o : Overlay) (a b r : list Z) :
  mergeLeaves o a b = Ok r →
  ∃ (i : nat) (min max : Z),
    merged (nodeId o) a b !! i = Some (nodeId o) ∧
    min = Z.max 0 (Z.of_nat i - OverlayLeaves `quot` 2) ∧
    max = Z.min (Z.of_nat (length (merged (nodeId o) a b)))
                (Z.of_nat i + OverlayLeaves `quot` 2) ∧
    (0 ≤ min ≤ max)%Z ∧
    r = take (Z.to_nat (max - min))
          (drop (Z.to_nat min) (merged (nodeId o) a b)).
Proof.
  rewrite mergeLeaves_merged.
  destruct (origin_loop _ _ _) as [origin|f] eqn:Ho; [|done].
  apply origin_loop_Ok in Ho as (i & -> & Hi).
  unfold slice. case_bool_decide as Hb; [|done]. intros [= <-].
  eexists i, _, _. rewrite Z.add_0_l.
  split; [done|]. split; [done|]. split; [done|]. split; [lia|done].
Qed.

Lemma mergeLeaves_sublist (o : Overlay) (a b r : list Z) :
  mergeLeaves o a b = Ok r → r `sublist_of` merged (nodeId o) a b.
Proof.
  intros (i & min & max & _ & _ & _ & _ & ->)%mergeLeaves_Ok.
  etrans; [apply sublist_take|apply sublist_drop].
Qed.

Lemma mergeLeaves_subseteq (o : Overlay) (a b r : list Z) (x : Z) :
  mergeLeaves o a b = Ok r → x ∈ r → x ∈ a ++ b.
Proof.
  intros Hs%mergeLeaves_sublist Hx.
  eapply merged_subseteq, sublist_subseteq; done.
Qed.

Lemma mergeLeaves_NoDup (o : Overlay) (a b r : list Z) :
  GoSort.strict_total (idLess (nodeId o)) →
  mergeLeaves o a b = Ok r → NoDup r.
Proof.
  intros Hless Hs%mergeLeaves_sublist.
  eapply sublist_NoDup; [by apply merged_NoDup|done].
Qed.

Lemma half_leaves_bound : (0 ≤ OverlayLeaves)%Z →
  (0 ≤ OverlayLeaves `quot` 2 ∧ 2 * (OverlayLeaves `quot` 2) ≤ OverlayLeaves)%Z.
Proof.
  intros HL. rewrite Z.quot_div_nonneg by lia.
  pose proof (Z.mul_div_le OverlayLeaves 2). 
  pose proof (Z.div_pos OverlayLeaves 2). lia.
Qed.


Lemma mergeLeaves_self (o : Overlay) (a b r : list Z) :
  (2 ≤ OverlayLeaves)%Z →
  mergeLeaves o a b = Ok r → nodeId o ∈ r.
Proof.
  intros HL (i & min & max & Hi & -> & -> & Hmm & ->)%mergeLeaves_Ok.
  pose proof (lookup_lt_Some _ _ _ Hi) as Hlen.
  assert (1 ≤ OverlayLeaves `quot` 2)%Z as Hq.
  { rewrite Z.quot_div_nonneg by lia.
    apply (Z.div_le_lower_bound OverlayLeaves 2 1); lia. }
  set (q := (OverlayLeaves `quot` 2)%Z) in *.
  apply list_elem_of_lookup.
  exists (i - Z.to_nat (Z.max 0 (Z.of_nat i - q)))%nat.
  rewrite lookup_take_lt by lia. rewrite lookup_drop.
  rewrite <- Hi. f_equal. lia.
Qed.

Lemma mergeLeaves_total (o : Overlay) (a b : list Z) :
  GoSort.strict_total (idLess (nodeId o)) → (0 ≤ OverlayLeaves)%Z →
  nodeId o ∈ a ++ b → is_Ok (mergeLeaves o a b).
Proof.
  intros Hless HL Hin. rewrite mergeLeaves_merged.
  destruct (origin_loop_elem (nodeId o) (merged (nodeId o) a b) 0)
    as [origin Ho]; [by apply merged_elem_of|].
  rewrite Ho. apply origin_loop_Ok in Ho as (i & -> & Hi).
  apply lookup_lt_Some in Hi. pose proof (half_leaves_bound HL).
  unfold slice. rewrite bool_decide_eq_true_2 by lia. by eexists.
Qed.

Lemma mergeLeaves_fault (o : Overlay) (a b : list Z) :
  nodeId o ∉ a ++ b → mergeLeaves o a b = Fault IndexOutOfRange.
Proof.
  intros Hni. rewrite mergeLeaves_merged, origin_loop_fault; [done|].
  intros Hin. by apply Hni, (merged_subseteq (nodeId o)).
Qed.


(** *** [merge] *)

Lemma extract_ids (self : Z) (entries : list (string * list string))
    (ids : list Z) (a : gmap string (list string)) (id : Z) :
  id ∈ (extract self entries ids a).1 ↔
  id ∈ ids ∨
  ∃ sid addrs, (sid, addrs) ∈ entries ∧
    Big.SetString10 sid = Some id ∧ id ≠ self.
Proof.
  revert ids a. induction entries as [|[sid addrs] entries IH]; intros ids a.
  { simpl. split; [by left|]. intros [?|(? & ? & []%elem_of_nil & _)]; done. }
  cbn [extract].
  assert ((∃ sid' addrs', (sid', addrs') ∈ (sid, addrs) :: entries ∧
             Big.SetString10 sid' = Some id ∧ id ≠ self) ↔
          (Big.SetString10 sid = Some id ∧ id ≠ self) ∨
          (∃ sid' addrs', (sid', addrs') ∈ entries ∧
             Big.SetString10 sid' = Some id ∧ id ≠ self)) as ->.
  { split.
    - intros (sid' & addrs' & [[= -> ->]|Hin]%elem_of_cons & Hp); [by left|].
      right. by exists sid', addrs'.
    - intros [Hp|(sid' & addrs' & Hin & Hp)].
      + exists sid, addrs. split; [by left|done].
      + exists sid', addrs'. split; [by right|done]. }
  destruct (Big.SetString10 sid) as [id'|] eqn:Hparse.
  - case_bool_decide as Hne; rewrite IH.
    + rewrite elem_of_app, list_elem_of_singleton. split.
      * intros [[H|H]|H]; [by left| |right; by right].
        right; left. split; congruence.
      * intros [H|[[H1 H2]|H]]; [left; by left| |by right].
        left; right. congruence.
    + split.
      * intros [H|H]; [by left|right; by right].
      * intros [H|[[H1 H2]|H]]; [by left| |by right].
        congruence.
  - rewrite IH. split.
    + intros [H|H]; [by left|right; by right].
    + intros [H|[[H1 H2]|H]]; [by left|done|by right].
Qed.

Lemma cell_insert (rt : list (list (option Z))) (r c : nat)
    (row : list (option Z)) (v : option Z) (r' c' : nat) :
  rt !! r = Some row → (c < length row)%nat →
  cell (<[r := <[c := v]> row]> rt) r' c' =
    if bool_decide ((r', c') = (r, c)) then Some v else cell rt r' c'.
Proof.
  intros Hrow Hc. unfold cell.
  destruct (decide (r' = r)) as [->|Hr].
  - rewrite list_lookup_insert_eq by (by eapply lookup_lt_Some).
    rewrite Hrow. simpl.
    destruct (decide (c' = c)) as [->|Hc'].
    + rewrite bool_decide_eq_true_2 by done.
      by rewrite list_lookup_insert_eq.
    + rewrite bool_decide_eq_false_2 by congruence.
      by rewrite list_lookup_insert_ne.
  - rewrite bool_decide_eq_false_2 by congruence.
    by rewrite list_lookup_insert_ne.
Qed.

(** The body of the loop on one id: an empty cell takes the id and no other
    cell changes; a taken cell leaves the whole table as it is. *)
Lemma install_cell (self : Z) (rt rt' : list (list (option Z))) (id : Z)
    (r c : nat) :
  prefix self id = (r, c) → install self rt id = Ok rt' →
  (cell rt r c = Some None ∧
   ∀ r' c', cell rt' r' c' =
     if bool_decide ((r', c') = (r, c)) then Some (Some id)
     else cell rt r' c') ∨
  (∃ old, cell rt r c = Some (Some old) ∧ rt' = rt).
Proof.
  intros Hp. unfold install, index. rewrite Hp.
  destruct (rt !! r) as [row|] eqn:Hrow; [|done]. simpl.
  destruct (row !! c) as [[old|]|] eqn:Hc; simpl; [| |done].
  - intros [= <-]. right. exists old. split; [|done].
    unfold cell. by rewrite Hrow.
  - intros [= <-]. left. split; [unfold cell; by rewrite Hrow|].
    intros r' c'. apply cell_insert; [done|]. by eapply lookup_lt_Some.
Qed.

Lemma install_total (self : Z) (rt : list (list (option Z))) (id : Z) :
  is_Some (cell rt (prefix self id).1 (prefix self id).2) →
  is_Ok (install self rt id).
Proof.
  unfold install, index, cell. destruct (prefix self id) as [r c]. simpl.
  destruct (rt !! r) as [row|]; simpl; [|by intros [? ?]].
  destruct (row !! c) as [[old|]|]; simpl; [by eexists..|by intros [? ?]].
Qed.

Lemma install_is_Some (self : Z) (rt rt' : list (list (option Z))) (id : Z)
    (r c : nat) :
  install self rt id = Ok rt' → is_Some (cell rt' r c) ↔ is_Some (cell rt r c).
Proof.
  intros Hi. destruct (prefix self id) as [r0 c0] eqn:Hp.
  destruct (install_cell self rt rt' id r0 c0 Hp Hi)
    as [[He Hc]|(old & Ho & ->)]; [|done].
  rewrite Hc. case_bool_decide as Heq; [|done].
  injection Heq as -> ->. rewrite He. split; by eexists.
Qed.

Lemma install_all_app (self : Z) (rt : list (list (option Z)))
    (ids1 ids2 : list Z) :
  install_all self rt (ids1 ++ ids2) =
  rt1 ← install_all self rt ids1; install_all self rt1 ids2.
Proof.
  revert rt. induction ids1 as [|id ids1 IH]; intros rt; simpl; [done|].
  destruct (install self rt id) as [rt'|f]; simpl; [apply IH|done].
Qed.

Lemma install_all_total (self : Z) (ids : list Z)
    (rt : list (list (option Z))) :
  (∀ id, id ∈ ids →
     is_Some (cell rt (prefix self id).1 (prefix self id).2)) →
  is_Ok (install_all self rt ids).
Proof.
  revert rt. induction ids as [|id ids IH]; intros rt Hshape; simpl.
  { by eexists. }
  destruct (install_total self rt id) as [rt' Hi].
  { apply Hshape. by left. }
  rewrite Hi. simpl. apply IH. intros id' Hin.
  rewrite (install_is_Some self rt rt' id); [|done].
  apply Hshape. by right.
Qed.

(** A cell that holds an id keeps it through the loop. *)
Lemma install_all_keeps (self : Z) (ids : list Z)
    (rt rt' : list (list (option Z))) (r c : nat) (old : Z) :
  install_all self rt ids = Ok rt' →
  cell rt r c = Some (Some old) → cell rt' r c = Some (Some old).
Proof.
  revert rt. induction ids as [|id ids IH]; intros rt; simpl.
  { by intros [= <-]. }
  destruct (install self rt id) as [rt1|f] eqn:Hi; simpl; [|done].
  intros Hall Hc. apply (IH rt1 Hall).
  destruct (prefix self id) as [r0 c0] eqn:Hp.
  destruct (install_cell self rt rt1 id r0 c0 Hp Hi)
    as [[He Hcell]|(old' & Ho & ->)]; [|done].
  rewrite Hcell. case_bool_decide as Heq; [|done].
  injection Heq as -> ->. congruence.
Qed.

Lemma merge_Ok (o : Overlay) (t t' : table)
    (a a' : gmap string (list string)) (s : state) :
  merge o t a s = Ok (t', a') →
  mergeLeaves o (leaves t) (received o a s) = Ok (leaves t') ∧
  install_all (nodeId o) (routes t) (received o a s) = Ok (routes t').
Proof.
  unfold merge, received. destruct (extract _ _ _ _) as [ids a1]. simpl.
  destruct (mergeLeaves o (leaves t) ids) as [lv|f]; simpl; [|done].
  destruct (install_all (nodeId o) (routes t) ids) as [rt|f]; simpl; [|done].
  by intros [= <- <-].
Qed.

(** *** [revoke] *)

Lemma is_down_iff (downs : list Z) (id : Z) :
  StronglySorted Z.le downs → is_down downs id = true ↔ id ∈ downs.
Proof.
  intros Hs. rewrite <- (Sortext.SearchBigInts_found downs id Hs).
  unfold is_down.
  destruct (downs !! Sortext.SearchBigInts downs id) as [y|]; simpl.
  - rewrite bool_decide_eq_true. split; [by exists y|].
    by intros (? & [= <-] & ?).
  - split; [done|]. by intros (? & ? & _).
Qed.

Lemma is_down_BigInts (downs : list Z) (id : Z) :
  is_down (Sortext.BigInts downs) id = true ↔ id ∈ downs.
Proof.
  rewrite is_down_iff by apply Sortext.BigInts_sorted.
  by rewrite Sortext.BigInts_perm.
Qed.

(** Once a leaf was removed the loop reports it. *)
Lemma clean_loop_false (fuel : nat) (downs lv : list Z) (i : nat) :
  (clean_loop fuel downs lv i false).2 = false.
Proof.
  revert lv i. induction fuel as [|fuel IH]; intros lv i; simpl; [done|].
  destruct (lv !! i) as [x|]; [|done].
  destruct (is_down downs x); apply IH.
Qed.

(** A leaf set reported intact is the one the loop started from. *)
Lemma clean_loop_intact (fuel : nat) (downs lv lv' : list Z) (i : nat)
    (intact : bool) :
  clean_loop fuel downs lv i intact = (lv', true) → lv' = lv.
Proof.
  revert lv i. induction fuel as [|fuel IH]; intros lv i; simpl.
  { by intros [= <-]. }
  destruct (lv !! i) as [x|]; [|by intros [= <-]].
  destruct (is_down downs x).
  - intros Heq. pose proof (clean_loop_false fuel downs
      match lv !! (length lv - 1)%nat with
      | Some y => take (length lv - 1) (<[i:=y]> lv)
      | None => lv
      end i) as Hf.
    rewrite Heq in Hf. done.
  - apply IH.
Qed.

(** Leaves none of which is down are left as they are. *)
Lemma clean_loop_none_down (fuel : nat) (downs lv : list Z) (i : nat)
    (intact : bool) :
  Forall (λ x, is_down downs x = false) lv →
  (length lv - i ≤ fuel)%nat →
  clean_loop fuel downs lv i intact = (lv, intact).
Proof.
  intros Hnd. revert i. induction fuel as [|fuel IH]; intros i Hf; simpl.
  { done. }
  destruct (lv !! i) as [x|] eqn:Hi; [|done].
  rewrite Forall_forall in Hnd.
  rewrite (Hnd x) by (by eapply list_elem_of_lookup_2).
  apply IH. lia.
Qed.

(** The loop keeps exactly the leaves that are not down. *)
Lemma clean_loop_elem_of (fuel : nat) (downs : list Z) :
  ∀ (lv lv' : list Z) (i : nat) (intact intact' : bool),
    (length lv - i ≤ fuel)%nat →
    Forall (λ x, is_down downs x = false) (take i lv) →
    clean_loop fuel downs lv i intact = (lv', intact') →
    ∀ x, x ∈ lv' ↔ x ∈ lv ∧ is_down downs x = false.
Proof.
  induction fuel as [|fuel IH]; intros lv lv' i intact intact' Hf Hpre;
    cbn [clean_loop].
  { intros [= <- <-] x. rewrite take_ge in Hpre by lia.
    rewrite Forall_forall in Hpre. split; [|by intros [? _]].
    intros Hx. split; [done|]. by apply Hpre. }
  destruct (lv !! i) as [x0|] eqn:Hi.
  2:{ intros [= <- <-] x. apply lookup_ge_None in Hi.
      rewrite take_ge in Hpre by lia.
      rewrite Forall_forall in Hpre. split; [|by intros [? _]].
      intros Hx. split; [done|]. by apply Hpre. }
  pose proof (lookup_lt_Some _ _ _ Hi) as Hlen.
  destruct (is_down downs x0) eqn:Hd.
  - destruct (lookup_lt_is_Some_2 lv (length lv - 1)%nat ltac:(lia))
      as [y Hy].
    rewrite Hy. intros Hrun x.
    pose proof (swap_with_last_perm lv i y Hlen Hy) as Hperm.
    assert (length (take (length lv - 1) (<[i:=y]> lv)) - i ≤ fuel)%nat
      as Hf'.
    { rewrite length_take, length_insert. lia. }
    assert (Forall (λ x, is_down downs x = false)
              (take i (take (length lv - 1) (<[i:=y]> lv)))) as Hpre'.
    { rewrite take_take, Nat.min_l by lia.
      by rewrite take_insert_ge by lia. }
    rewrite (IH _ _ _ _ _ Hf' Hpre' Hrun).
    rewrite Hperm. split.
    + intros [Hx ?]. split; [|done]. by eapply list_elem_of_delete_inv.
    + intros [Hx Hnd]. split; [|done].
      rewrite (delete_Permutation _ _ _ Hi) in Hx.
      apply elem_of_cons in Hx as [->|Hx]; [congruence|done].
  - intros Hrun.
    assert (length lv - (i + 1) ≤ fuel)%nat as Hf' by lia.
    apply (IH lv lv' (i + 1)%nat intact intact' Hf'); [|done].
    rewrite Nat.add_1_r, (take_S_r _ _ _ Hi). apply Forall_app.
    split; [done|]. by apply Forall_singleton.
Qed.

Lemma clean_elem_of (downs lv lv' : list Z) (intact' : bool) (x : Z) :
  clean_loop (length lv) downs lv 0 true = (lv', intact') →
  x ∈ lv' ↔ x ∈ lv ∧ is_down downs x = false.
Proof.
  intros Hrun. eapply clean_loop_elem_of; [| |done]; [lia|by rewrite take_0].
Qed.

Lemma cell_imap (f : nat → nat → option Z → option Z)
    (rt : list (list (option Z))) (r c : nat) :
  cell (imap (λ r row, imap (f r) row) rt) r c = f r c <$> cell rt r c.
Proof.
  unfold cell. rewrite list_lookup_imap.
  destruct (rt !! r) as [row|]; simpl; [|done].
  by rewrite list_lookup_imap.
Qed.

Lemma imap_id_cells (f : nat → nat → option Z → option Z)
    (rt : list (list (option Z))) :
  (∀ r c v, cell rt r c = Some v → f r c v = v) →
  imap (λ r row, imap (f r) row) rt = rt.
Proof.
  intros Hf. apply list_eq. intros r. rewrite list_lookup_imap.
  destruct (rt !! r) as [row|] eqn:Hr; simpl; [|done]. f_equal.
  apply list_eq. intros c. rewrite list_lookup_imap.
  destruct (row !! c) as [v|] eqn:Hc; simpl; [|done]. f_equal.
  apply Hf. unfold cell. by rewrite Hr.
Qed.

Lemma repair_Some (self : Z) (r i : nat) (visited : list peer) (id : Z) :
  repair self r i visited = Some id →
  id ∈ (peer_nodeId <$> visited) ∧ prefix self id = (r, i).
Proof.
  unfold repair.
  destruct (head _) as [p|] eqn:Hh; simpl; [|done]. intros [= <-].
  apply head_Some_elem_of in Hh. apply list_elem_of_filter in Hh as [Hp Hin].
  split; [|done]. apply list_elem_of_fmap. by exists p.
Qed.

(** The parts of what [revoke] returns. *)
Lemma revoke_Ok (o : Overlay) (visit : nat → nat → list peer)
    (t t' : table) (downs : list Z) :
  revoke o visit t downs = Ok t' →
  ∃ lv intact,
    clean_loop (length (leaves t)) (Sortext.BigInts downs) (leaves t) 0 true
      = (lv, intact) ∧
    (if intact then Ok lv
     else mergeLeaves o lv (peer_nodeId <$> pool o)) = Ok (leaves t') ∧
    ∀ r c, cell (routes t') r c =
      (λ v, match v with
            | Some id =>
                if is_down (Sortext.BigInts downs) id
                then repair (nodeId o) r c (visit r c)
                else Some id
            | None => None
            end) <$> cell (routes t) r c.
Proof.
  unfold revoke. destruct (clean_loop _ _ _ _ _) as [lv intact].
  intros Hrun. exists lv, intact. split; [done|].
  destruct (if intact then _ else _) as [lv'|f]; simpl in Hrun; [|done].
  injection Hrun as <-. simpl. split; [done|].
  intros r c. apply (cell_imap (λ r i c, match c with
    | Some id => if is_down (Sortext.BigInts downs) id
                 then repair (nodeId o) r i (visit r i) else Some id
    | None => None end)).
Qed.

(** *** [changed] *)

Lemma cell_index (rt : list (list (option Z))) (r c : nat) (v : option Z) :
  cell rt r c = Some v →
  ∃ row, index rt r = Ok row ∧ index row c = Ok v.
Proof.
  unfold cell, index. destruct (rt !! r) as [row|]; simpl; [|done].
  intros Hc. exists row. by rewrite Hc.
Qed.

Lemma rectangular_cell (rows cols : nat) (rt : list (list (option Z)))
    (r c : nat) :
  rectangular rows cols rt →
  is_Some (cell rt r c) ↔ (r < rows)%nat ∧ (c < cols)%nat.
Proof.
  intros [Hrows Hcols]. unfold cell. split.
  - intros [v Hv]. destruct (rt !! r) as [row|] eqn:Hr; simpl in Hv; [|done].
    rewrite Forall_forall in Hcols.
    rewrite <- (Hcols row) by (by eapply list_elem_of_lookup_2).
    rewrite <- Hrows. split; by eapply lookup_lt_Some.
  - intros [Hr Hc].
    destruct (lookup_lt_is_Some_2 rt r ltac:(lia)) as [row Hrow].
    rewrite Hrow. simpl. apply lookup_lt_is_Some_2.
    rewrite Forall_forall in Hcols.
    rewrite (Hcols row) by (by eapply list_elem_of_lookup_2). done.
Qed.

Lemma changed_cell_rep (oldId newId : option Z) (acc : bool * bool) :
  (changed_cell oldId newId acc).2 = true ↔
  acc.2 = true ∨ (newId = None ∧ ∃ id, oldId = Some id).
Proof.
  destruct newId as [n|], oldId as [old|]; simpl.
  - case_bool_decide; simpl; split; auto; by intros [?|[? _]].
  - split; auto. by intros [?|[? _]].
  - split; [right; eauto|done].
  - split; auto. by intros [?|[_ [? ?]]].
Qed.

Lemma changed_row_spec (o : Overlay) (t : table) (r : nat) (cs : list nat) :
  ∀ acc,
    (∀ c, c ∈ cs → is_Some (cell (routes (live o)) r c) ∧
                     is_Some (cell (routes t) r c)) →
    ∃ acc', changed_row o t r cs acc = Ok acc' ∧
      (acc'.2 = true ↔ acc.2 = true ∨ ∃ c, c ∈ cs ∧ lost o t r c).
Proof.
  induction cs as [|c cs IH]; intros acc Hcells.
  { exists acc. split; [done|]. split; [by left|].
    by intros [?|(? & []%elem_of_nil & _)]. }
  destruct (Hcells c) as [[oldId Hold] [newId Hnew]]; [by left|].
  destruct (cell_index _ _ _ _ Hold) as (oldRow & HoldRow & HoldId).
  destruct (cell_index _ _ _ _ Hnew) as (newRow & HnewRow & HnewId).
  destruct (IH (changed_cell oldId newId acc)) as (acc' & Hrun & Hrep).
  { intros c' Hc'. apply Hcells. by right. }
  exists acc'. split.
  - cbn [changed_row]. rewrite HoldRow. simpl. rewrite HoldId. simpl.
    rewrite HnewRow. simpl. rewrite HnewId. simpl. done.
  - rewrite Hrep, changed_cell_rep. unfold lost. split.
    + intros [[?|[-> [id ->]]]|(c' & Hc' & Hl)].
      * by left.
      * right. exists c. split; [by left|]. split; [done|by exists id].
      * right. exists c'. split; [by right|done].
    + intros [?|(c' & [->|Hc']%elem_of_cons & Hl)].
      * left. by left.
      * left. right. destruct Hl as [Hn [id Ho]].
        split; [congruence|]. exists id. congruence.
      * right. by exists c'.
Qed.

Lemma changed_rows_spec (o : Overlay) (t : table) (cols : nat)
    (row0 : list (option Z)) (rs : list nat) :
  routes t !! 0%nat = Some row0 → length row0 = cols →
  ∀ acc,
    (∀ r c, r ∈ rs → (c < cols)%nat →
       is_Some (cell (routes (live o)) r c) ∧ is_Some (cell (routes t) r c)) →
    ∃ acc', changed_rows o t rs acc = Ok acc' ∧
      (acc'.2 = true ↔
       acc.2 = true ∨ ∃ r c, r ∈ rs ∧ (c < cols)%nat ∧ lost o t r c).
Proof.
  intros Hrow0 Hlen.
  induction rs as [|r rs IH]; intros acc Hcells.
  { exists acc. split; [done|]. split; [by left|].
    by intros [?|(? & ? & []%elem_of_nil & _)]. }
  destruct (changed_row_spec o t r (seq 0 cols) acc) as (acc1 & Hrun1 & Hrep1).
  { intros c [_ Hc]%elem_of_seq. apply Hcells; [by left|lia]. }
  destruct (IH acc1) as (acc' & Hrun & Hrep).
  { intros r' c Hr' Hc. apply Hcells; [by right|done]. }
  exists acc'. split.
  - cbn [changed_rows]. unfold index at 1. rewrite Hrow0. simpl.
    rewrite Hlen, Hrun1. simpl. done.
  - rewrite Hrep, Hrep1. split.
    + intros [[?|(c & [_ Hc]%elem_of_seq & Hl)]|(r' & c & Hr' & Hc & Hl)].
      * by left.
      * right. exists r, c. split; [by left|]. split; [lia|done].
      * right. exists r', c. split; [by right|done].
    + intros [?|(r' & c & [->|Hr']%elem_of_cons & Hc & Hl)].
      * left. by left.
      * left. right. exists c. split; [|done]. apply elem_of_seq. lia.
      * right. by exists r', c.
Qed.

(** *** [active] *)

Lemma active_occurs (o : Overlay) (p : Z) :
  active o p = true ↔ occurs p (live o).
Proof.
  unfold active, occurs. rewrite orb_true_iff.
  apply Morphisms_Prop.or_iff_morphism.
  - rewrite existsb_exists. split.
    + intros (id & Hin & ->%bool_decide_eq_true). by apply list_elem_of_In.
    + intros Hin. exists p. split; [by apply list_elem_of_In|].
      by apply bool_decide_eq_true.
  - rewrite existsb_exists. split.
    + intros (row & Hrow & Hex). apply existsb_exists in Hex as (c & Hc & Hp).
      destruct c as [id|]; simpl in Hp; [|done].
      apply bool_decide_eq_true in Hp as <-.
      apply list_elem_of_In, list_elem_of_lookup in Hrow as [r Hr].
      apply list_elem_of_In, list_elem_of_lookup in Hc as [c Hc].
      exists r, c. unfold cell. by rewrite Hr.
    + intros (r & c & Hcell). unfold cell in Hcell.
      destruct (routes (live o) !! r) as [row|] eqn:Hr; simpl in Hcell; [|done].
      exists row. split.
      { apply list_elem_of_In. by eapply list_elem_of_lookup_2. }
      apply existsb_exists. exists (Some p). split.
      { apply list_elem_of_In. by eapply list_elem_of_lookup_2. }
      simpl. by apply bool_decide_eq_true.
Qed.

(** *** The claims on the routing table *)



(** C4. Let [merge] take a state into a table [t] whose leaves hold the
    local id and whose prefix table has a cell for every id received.  The
    ids received are those of the state that parse and differ from the local
    id.  [merge] returns, and for each id received, with
    [(r, c) = prefix(self, id)] and the table as the loop finds it at that
    id: if cell [(r, c)] is empty the id is installed there and stays there;
    if the cell holds an id, the table is left as it is and the cell still
    holds the incumbent when [merge] returns.  In particular every cell that
    was taken in [t] holds the same id afterwards. *)
Theorem merge_keeps_incumbent (o : Overlay) (t : table)
    (a : gmap string (list string)) (s : state) :
  GoSort.strict_total (idLess (nodeId o)) → (0 ≤ OverlayLeaves)%Z →
  nodeId o ∈ leaves t →
  (∀ id, id ∈ received o a s →
     is_Some (cell (routes t) (prefix (nodeId o) id).1
                (prefix (nodeId o) id).2)) →
  (∀ id, id ∈ received o a s ↔
     ∃ sid addrs, (sid, addrs) ∈ Addrs s ∧
       Big.SetString10 sid = Some id ∧ id ≠ nodeId o) ∧
  ∃ t' a', merge o t a s = Ok (t', a') ∧
    (∀ r c old, cell (routes t) r c = Some (Some old) →
       cell (routes t') r c = Some (Some old)) ∧
    ∀ pre id post r c,
      received o a s = pre ++ id :: post → prefix (nodeId o) id = (r, c) →
      ∃ rt1 rt2,
        install_all (nodeId o) (routes t) pre = Ok rt1 ∧
        install (nodeId o) rt1 id = Ok rt2 ∧
        install_all (nodeId o) rt2 post = Ok (routes t') ∧
        (cell rt1 r c = Some None →
           cell rt2 r c = Some (Some id) ∧
           cell (routes t') r c = Some (Some id)) ∧
        (∀ old, cell rt1 r c = Some (Some old) →
           rt2 = rt1 ∧ cell (routes t') r c = Some (Some old)).
Proof.
  intros Hless HL Hself Hshape.
  set (self := nodeId o) in *. set (ids := received o a s) in *. split.
  { intros id. unfold ids, received. fold self. rewrite extract_ids.
    split; [intros [[]%elem_of_nil|?]; done|by right]. }
  destruct (mergeLeaves_total o (leaves t) ids Hless HL) as [lv Hlv].
  { apply elem_of_app. by left. }
  destruct (install_all_total self ids (routes t) Hshape) as [rt Hrt].
  exists (Table lv rt), (extract self (Addrs s) [] a).2.
  split; [|split].
  - unfold merge. fold self. unfold ids, received in Hlv, Hrt. fold self in Hlv, Hrt.
    destruct (extract self (Addrs s) [] a) as [ids' a'] eqn:He.
    simpl in *. rewrite Hlv. simpl. by rewrite Hrt.
  - intros r c old. simpl. by apply (install_all_keeps self ids).
  - intros pre id post r c Hsplit Hp. simpl.
    rewrite Hsplit, install_all_app in Hrt.
    destruct (install_all self (routes t) pre) as [rt1|f]; [|done].
    simpl in Hrt.
    destruct (install self rt1 id) as [rt2|f] eqn:Hi; [|done].
    simpl in Hrt. exists rt1, rt2. split; [done|]. split; [done|].
    split; [done|].
    destruct (install_cell self rt1 rt2 id r c Hp Hi)
      as [[He Hcell]|(old & Ho & ->)].
    + assert (cell rt2 r c = Some (Some id)) as Hc2.
      { by rewrite Hcell, bool_decide_eq_true_2. }
      split; [|intros old; congruence].
      intros _. split; [done|].
      by apply (install_all_keeps self post rt2 (routes (Table lv rt))).
    + split; [congruence|]. intros old' Hold'. split; [done|].
      by apply (install_all_keeps self post rt1 (routes (Table lv rt))).
Qed.

(** C5. For a live table and a table [t] that are both [rows] by [cols],
    [changed(t)] returns, and its second result [rep] is [true] exactly when
    some cell is empty in [t] and holds an id in the live table. *)
Theorem changed_needs_repair (o : Overlay) (t : table) (rows cols : nat) :
  rectangular rows cols (routes (live o)) →
  rectangular rows cols (routes t) →
  ∃ ch rep, changed o t = Ok (ch, rep) ∧
    (rep = true ↔
     ∃ r c, cell (routes t) r c = Some None ∧
       ∃ id, cell (routes (live o)) r c = Some (Some id)).
Proof.
  intros Hlive Ht. unfold changed.
  set (ch0 := if bool_decide _ then true else _).
  destruct (routes t) as [|row0 rt] eqn:Hrt.
  { exists ch0, false. split; [done|]. split; [done|].
    intros (r & c & Hc & _). unfold cell in Hc. by destruct r. }
  rewrite <- Hrt in *.
  assert (length row0 = cols) as Hlen.
  { destruct Ht as [_ Hc]. rewrite Hrt in Hc.
    by apply Forall_cons in Hc as [? _]. }
  destruct (changed_rows_spec o t cols row0 (seq 0 (length (routes t))))
    with (acc := (ch0, false)) as ([ch rep] & Hrun & Hrep).
  { by rewrite Hrt. }
  { done. }
  { intros r c [_ Hr]%elem_of_seq Hc.
    rewrite !(rectangular_cell rows cols) by done.
    destruct Ht as [Hrows _]. lia. }
  exists ch, rep. split; [done|]. simpl in Hrep. rewrite Hrep.
  split.
  - intros [?|(r & c & _ & _ & Hl)]; [done|]. by exists r, c.
  - intros (r & c & Hl). right. exists r, c.
    assert (is_Some (cell (routes t) r c)) as Hs by (rewrite (proj1 Hl); eauto).
    apply (rectangular_cell rows cols) in Hs as [Hr Hc]; [|done].
    split; [|done]. apply elem_of_seq. destruct Ht as [Hrows _]. lia.
Qed.

(** C9. At a tick of the beater every peer of the pool is sent one
    heartbeat, addressed to it, whose state has [Passive] set exactly when
    the peer's id occurs neither in the leaves nor in the routes of the live
    table; for a peer whose id is in the leaves [Passive] is [false]. *)
Theorem beater_passive (o : Overlay) (later : peer → Overlay) (p : peer) :
  p ∈ pool o →
  ∃ h, (p, h) ∈ beater o later ∧
    (∀ h', (p, h') ∈ beater o later → h' = h) ∧
    Dest h = peer_nodeId p ∧
    (Passive (State h) = true ↔ ¬ occurs (peer_nodeId p) (live o)) ∧
    (peer_nodeId p ∈ leaves (live o) → Passive (State h) = false).
Proof.
  intros Hp.
  assert (negb (active o (peer_nodeId p)) = true ↔
          ¬ occurs (peer_nodeId p) (live o)) as Hpassive.
  { rewrite <- active_occurs.
    destruct (active o (peer_nodeId p)); simpl; split; done. }
  eexists. split; [|split; [|split; [|split]]].
  - unfold beater. apply list_elem_of_fmap. by exists p.
  - intros h' (p' & [= <- ->] & _)%list_elem_of_fmap. done.
  - done.
  - done.
  - intros Hin. simpl. apply negb_false_iff, active_occurs. by left.
Qed.

Lemma table_ok_distinct (self : Z) (t : table) :
  table_ok self t → routes_distinct t.
Proof.
  intros (_ & _ & Hcells) r c r' c' id Hc Hc'.
  destruct (Hcells r c id Hc) as [_ <-].
  by destruct (Hcells r' c' id Hc') as [_ <-].
Qed.

Lemma install_all_cells (self : Z) (ids : list Z) :
  ∀ rt rt',
    (∀ r c id, cell rt r c = Some (Some id) →
       id ≠ self ∧ prefix self id = (r, c)) →
    (∀ id, id ∈ ids → id ≠ self) →
    install_all self rt ids = Ok rt' →
    ∀ r c id, cell rt' r c = Some (Some id) →
      id ≠ self ∧ prefix self id = (r, c).
Proof.
  induction ids as [|id0 ids IH]; intros rt rt' Hrt Hids; simpl.
  { by intros [= <-]. }
  destruct (install self rt id0) as [rt1|f] eqn:Hi; simpl; [|done].
  apply IH; [|intros id Hin; apply Hids; by right].
  destruct (prefix self id0) as [r0 c0] eqn:Hp.
  destruct (install_cell self rt rt1 id0 r0 c0 Hp Hi)
    as [[He Hcell]|(old & Ho & ->)]; [|done].
  intros r c id. rewrite Hcell. case_bool_decide as Heq; [|by apply Hrt].
  injection Heq as -> ->. intros [= <-]. split; [|done].
  apply Hids. by left.
Qed.

Lemma revoke_intro (o : Overlay) (visit : nat → nat → list peer)
    (t : table) (downs lv lv' : list Z) (intact : bool) :
  clean_loop (length (leaves t)) (Sortext.BigInts downs) (leaves t) 0 true
    = (lv, intact) →
  (if intact then Ok lv
   else mergeLeaves o lv (peer_nodeId <$> pool o)) = Ok lv' →
  ∃ rt, revoke o visit t downs = Ok (Table lv' rt).
Proof.
  intros Hclean Hlv. unfold revoke. rewrite Hclean, Hlv. simpl. by eexists.
Qed.

(** C1, as it holds.  For an [idSlice] order that is a strict total order
    and [2 ≤ OverlayLeaves]: a list returned by [mergeLeaves] has pairwise
    distinct ids and holds the local id.  A table returned by [merge], or by
    [revoke] with a pool that does not hold the local id, from a table for
    which this holds, has pairwise distinct leaves among which is the local
    id, and a prefix table whose ids each sit in the cell of their prefix,
    are pairwise distinct and differ from the local id. *)
Theorem table_ok_preserved (o : Overlay) (t : table) :
  GoSort.strict_total (idLess (nodeId o)) → (2 ≤ OverlayLeaves)%Z →
  table_ok (nodeId o) t →
  (∀ a b r, mergeLeaves o a b = Ok r → NoDup r ∧ nodeId o ∈ r) ∧
  (∀ a s t' a', merge o t a s = Ok (t', a') →
     table_ok (nodeId o) t' ∧ routes_distinct t') ∧
  (∀ visit downs t',
     (∀ r i, visit r i ≡ₚ pool o) →
     nodeId o ∉ (peer_nodeId <$> pool o) →
     revoke o visit t downs = Ok t' →
     table_ok (nodeId o) t' ∧ routes_distinct t').
Proof.
  intros Hless HL Hok. set (self := nodeId o) in *.
  assert (∀ a b r, mergeLeaves o a b = Ok r → NoDup r ∧ self ∈ r) as Hml.
  { intros a b r Hr. split; [by eapply mergeLeaves_NoDup|].
    by eapply mergeLeaves_self. }
  split; [done|]. destruct Hok as (Hnd & Hself & Hcells).
  assert (∀ t', table_ok self t' → table_ok self t' ∧ routes_distinct t')
    as Hboth.
  { intros t' Hok. split; [done|by eapply table_ok_distinct]. }
  split.
  - intros a s t' a' [Hlv Hrt]%merge_Ok. apply Hboth.
    destruct (Hml _ _ _ Hlv) as [Hnd' Hself'].
    split; [done|]. split; [done|].
    refine (install_all_cells self _ _ _ Hcells _ Hrt).
    unfold received. fold self.
    intros id [[]%elem_of_nil|(_ & _ & _ & _ & ?)]%extract_ids. done.
  - intros visit downs t' Hvisit Hpool
      (lv & intact & Hclean & Hlv & Hrt)%revoke_Ok.
    apply Hboth. split; [|split].
    + destruct intact.
      * injection Hlv as <-. by rewrite (clean_loop_intact _ _ _ _ _ _ Hclean).
      * by apply Hml in Hlv as [? _].
    + destruct intact.
      * injection Hlv as <-. by rewrite (clean_loop_intact _ _ _ _ _ _ Hclean).
      * by apply Hml in Hlv as [_ ?].
    + intros r c id. rewrite Hrt.
      destruct (cell (routes t) r c) as [[id0|]|] eqn:Hc; simpl; [|done..].
      destruct (is_down _ id0).
      * intros [= Hrep]. apply repair_Some in Hrep as [Hin Hp].
        split; [|done]. intros ->. apply Hpool.
        by rewrite <- (Hvisit r c).
      * intros [= <-]. by apply Hcells.
Qed.

(** C3, as it holds.  An id that [t] does not hold makes [revoke(t, [id])]
    return [t] as it is.  For an [idSlice] order that is a strict total order
    and [0 ≤ OverlayLeaves], a table whose leaves hold the local id, and an
    id that is neither the local id nor the id of a peer of the pool,
    [revoke(t, [id])] returns a table that does not hold [id]. *)
Theorem revoke_single (o : Overlay) (visit : nat → nat → list peer)
    (t : table) (id : Z) :
  (¬ occurs id t → revoke o visit t [id] = Ok t) ∧
  (GoSort.strict_total (idLess (nodeId o)) → (0 ≤ OverlayLeaves)%Z →
   nodeId o ∈ leaves t → id ≠ nodeId o →
   (∀ r i, visit r i ≡ₚ pool o) → id ∉ (peer_nodeId <$> pool o) →
   ∃ t', revoke o visit t [id] = Ok t' ∧ ¬ occurs id t').
Proof.
  set (self := nodeId o).
  assert (∀ x, is_down (Sortext.BigInts [id]) x = true ↔ x = id) as Hdown.
  { intros x. by rewrite is_down_BigInts, list_elem_of_singleton. }
  assert (∀ x, x ≠ id → is_down (Sortext.BigInts [id]) x = false) as Hup.
  { intros x Hx. destruct (is_down _ x) eqn:Hd; [|done].
    by apply Hdown in Hd. }
  split.
  - intros Hno. unfold revoke.
    rewrite clean_loop_none_down; [|..|lia].
    2:{ apply Forall_forall. intros x Hx. apply Hup. intros ->.
        apply Hno. by left. }
    simpl. rewrite imap_id_cells; [by destruct t|].
    intros r c [x|] Hc; [|done]. rewrite Hup; [done|].
    intros ->. apply Hno. right. by exists r, c.
  - intros Hless HL Hself Hne Hvisit Hpool.
    destruct (clean_loop (length (leaves t)) (Sortext.BigInts [id])
                (leaves t) 0 true) as [lv intact] eqn:Hclean.
    assert (∀ x, x ∈ lv ↔ x ∈ leaves t ∧ x ≠ id) as Hlv.
    { intros x. rewrite (clean_elem_of _ _ _ _ _ Hclean).
      destruct (is_down _ x) eqn:Hd.
      - apply Hdown in Hd. split; [by intros [_ ?]|by intros [_ ?]].
      - split; intros [? _]; (split; [done|]); [|done].
        intros ->. rewrite (proj2 (Hdown id)) in Hd; done. }
    assert (∃ lv', (if intact then Ok lv
              else mergeLeaves o lv (peer_nodeId <$> pool o)) = Ok lv' ∧
              id ∉ lv') as (lv' & Hlv' & Hid).
    { destruct intact.
      - exists lv. split; [done|]. rewrite Hlv. by intros [_ ?].
      - destruct (mergeLeaves_total o lv (peer_nodeId <$> pool o) Hless HL)
          as [lv' Hm].
        { apply elem_of_app. left. apply Hlv. split; [done|].
          intros Heq. apply Hne. by rewrite <- Heq. }
        exists lv'. split; [done|]. intros Hin.
        apply (mergeLeaves_subseteq _ _ _ _ _ Hm) in Hin.
        apply elem_of_app in Hin as [Hin|Hin]; [|done].
        apply Hlv in Hin as [_ ?]. done. }
    destruct (revoke_intro o visit t [id] lv lv' intact Hclean Hlv')
      as [rt Hrun].
    exists (Table lv' rt). split; [done|].
    apply revoke_Ok in Hrun as (lv1 & intact1 & _ & _ & Hrt).
    simpl in Hrt. intros [Hin|(r & c & Hc)]; [done|].
    simpl in Hc. rewrite Hrt in Hc.
    destruct (cell (routes t) r c) as [[x|]|]; simpl in Hc; [|done..].
    destruct (is_down _ x) eqn:Hd.
    + injection Hc as Hrep. apply repair_Some in Hrep as [Hin _].
      apply Hpool. by rewrite <- (Hvisit r c).
    + injection Hc as ->. rewrite (proj2 (Hdown id)) in Hd; done.
Qed.
(** *** [discover] *)

Lemma Zlt_strict_total : GoSort.strict_total (λ x y : Z, bool_decide (x < y)%Z).
Proof.
  split; [|split].
  - intros x. apply bool_decide_eq_false. lia.
  - intros x y z. rewrite !bool_decide_eq_true. lia.
  - intros x y. rewrite !bool_decide_eq_false. lia.
Qed.

Lemma pooled_iff (o : Overlay) (id : Z) :
  pooled o id = false ↔ id ∉ (peer_nodeId <$> pool o).
Proof. unfold pooled. by rewrite bool_decide_eq_false. Qed.

(** The ids of the cells, row by row. *)
Lemma cells_elem_of (rt : list (list (option Z))) (x : Z) :
  x ∈ omap id (mjoin rt) ↔ ∃ r c, cell rt r c = Some (Some x).
Proof.
  rewrite list_elem_of_omap. unfold cell. split.
  - intros (v & Hv & Heq). simpl in Heq. subst v.
    apply list_elem_of_join in Hv as (row & Hx & Hrow).
    apply list_elem_of_lookup in Hrow as [r Hr].
    apply list_elem_of_lookup in Hx as [c Hc].
    exists r, c. by rewrite Hr.
  - intros (r & c & Hc).
    destruct (rt !! r) as [row|] eqn:Hr; simpl in Hc; [|done].
    exists (Some x). split; [|done].
    apply list_elem_of_join. exists row.
    split; by eapply list_elem_of_lookup_2.
Qed.

Lemma discover_elem_of (o : Overlay) (t : table) (x : Z) :
  x ∈ discover o t ↔
  (x ∉ (peer_nodeId <$> pool o)) ∧
  ((x ∈ leaves t ∧ x ≠ nodeId o) ∨
   ∃ r c, cell (routes t) r c = Some (Some x)).
Proof.
  unfold discover.
  rewrite Sortext.Unique_elem_of; [|apply Zlt_strict_total|].
  2:{ apply GoSort.Sort_sorted, Zlt_strict_total. }
  rewrite Sortext.BigInts_perm, elem_of_app, !list_elem_of_filter.
  rewrite cells_elem_of, !pooled_iff. split.
  - intros [[[Hne Hp] Hin]|[Hp Hc]]; (split; [done|]); [left|right]; done.
  - intros [Hp [[Hin Hne]|Hc]]; [left|right]; done.
Qed.

Lemma discover_sorted (o : Overlay) (t : table) :
  StronglySorted Z.lt (discover o t).
Proof.
  eapply GoSort.StronglySorted_mono;
    [|apply Sortext.Unique_sorted; [apply Zlt_strict_total|]].
  - intros x y Hxy. simpl in Hxy. by apply bool_decide_eq_true in Hxy.
  - apply GoSort.Sort_sorted, Zlt_strict_total.
Qed.

(** X13.  [discover(t)] returns, in strictly increasing order, the ids that
    [t] holds in a leaf other than the local id or in a cell, and that are not
    the id of a peer of the pool. *)
Theorem discover_spec (o : Overlay) (t : table) :
  StronglySorted Z.lt (discover o t) ∧
  ∀ id, id ∈ discover o t ↔
    (id ∉ (peer_nodeId <$> pool o)) ∧
    ((id ∈ leaves t ∧ id ≠ nodeId o) ∨
     ∃ r c, cell (routes t) r c = Some (Some id)).
Proof. split; [apply discover_sorted|apply discover_elem_of]. Qed.

(** *** [revoke], for any list of ids *)

Lemma is_down_false (downs : list Z) (id : Z) :
  is_down (Sortext.BigInts downs) id = false ↔ id ∉ downs.
Proof.
  rewrite <- is_down_BigInts. by destruct (is_down _ id).
Qed.

Lemma repair_None (self : Z) (r i : nat) (visited : list peer) :
  repair self r i visited = None →
  ∀ p, p ∈ visited → prefix self (peer_nodeId p) ≠ (r, i).
Proof.
  unfold repair. intros Hrep p Hp Hpre.
  destruct (head _) as [q|] eqn:Hh; [done|].
  apply head_None in Hh.
  assert (p ∈ filter (λ p, prefix self (peer_nodeId p) = (r, i)) visited)
    as Hin by (by apply list_elem_of_filter).
  rewrite Hh in Hin. by apply elem_of_nil in Hin.
Qed.

Lemma repair_Some_peer (self : Z) (r i : nat) (visited : list peer) (id : Z) :
  repair self r i visited = Some id →
  ∃ p, p ∈ visited ∧ prefix self (peer_nodeId p) = (r, i) ∧
       id = peer_nodeId p.
Proof.
  unfold repair.
  destruct (head _) as [p|] eqn:Hh; simpl; [|done]. intros [= <-].
  apply head_Some_elem_of in Hh. apply list_elem_of_filter in Hh as [Hp Hin].
  by exists p.
Qed.

(** [revoke] returns when the local id is a leaf and is not revoked. *)
Lemma revoke_inv (o : Overlay) (visit : nat → nat → list peer)
    (t : table) (downs : list Z) :
  GoSort.strict_total (idLess (nodeId o)) → (0 ≤ OverlayLeaves)%Z →
  nodeId o ∈ leaves t → nodeId o ∉ downs →
  ∃ t', revoke o visit t downs = Ok t' ∧
    (∀ id, id ∈ leaves t' →
       (id ∈ leaves t ∧ id ∉ downs) ∨ id ∈ (peer_nodeId <$> pool o)) ∧
    (Forall (λ x, x ∉ downs) (leaves t) → leaves t' = leaves t) ∧
    ∀ r c, cell (routes t') r c =
      (λ v, match v with
            | Some id =>
                if is_down (Sortext.BigInts downs) id
                then repair (nodeId o) r c (visit r c)
                else Some id
            | None => None
            end) <$> cell (routes t) r c.
Proof.
  intros Hless HL Hself Hup.
  destruct (clean_loop (length (leaves t)) (Sortext.BigInts downs)
              (leaves t) 0 true) as [lv intact] eqn:Hclean.
  assert (∀ x, x ∈ lv ↔ x ∈ leaves t ∧ x ∉ downs) as Hlv.
  { intros x. rewrite (clean_elem_of _ _ _ _ _ Hclean).
    by rewrite is_down_false. }
  assert (∃ lv', (if intact then Ok lv
            else mergeLeaves o lv (peer_nodeId <$> pool o)) = Ok lv' ∧
            ∀ id, id ∈ lv' →
              (id ∈ leaves t ∧ id ∉ downs) ∨
              id ∈ (peer_nodeId <$> pool o)) as (lv' & Hlv' & Hsub).
  { destruct intact.
    - exists lv. split; [done|]. intros id Hid. left. by apply Hlv.
    - destruct (mergeLeaves_total o lv (peer_nodeId <$> pool o) Hless HL)
        as [lv' Hm].
      { apply elem_of_app. left. by apply Hlv. }
      exists lv'. split; [done|]. intros id Hin.
      apply (mergeLeaves_subseteq _ _ _ _ _ Hm) in Hin.
      apply elem_of_app in Hin as [Hin|Hin]; [left; by apply Hlv|by right]. }
  destruct (revoke_intro o visit t downs lv lv' intact Hclean Hlv')
    as [rt Hrun].
  exists (Table lv' rt). split; [done|]. split; [done|]. split.
  - intros Hall. simpl.
    rewrite clean_loop_none_down in Hclean; [|..|lia].
    + injection Hclean as <- <-. by injection Hlv' as <-.
    + eapply Forall_impl; [exact Hall|]. intros x. apply is_down_false.
  - by apply revoke_Ok in Hrun as (lv1 & intact1 & _ & _ & Hrt).
Qed.

(** X14.  [revoke(t, downs)], for a table whose leaves hold the local id and a
    list [downs] that does not: it returns. A leaf of the table returned is a
    leaf of [t] that is not in [downs], or the id of a peer of the pool; the
    leaves are left as they are when none is in [downs]. The prefix table
    keeps its shape, its empty cells and every id that is not in [downs]; the
    cell of an id in [downs] holds the id of a peer of the pool with the
    prefix of the cell, or is empty when the pool has none. *)
Theorem revoke_spec (o : Overlay) (visit : nat → nat → list peer)
    (t : table) (downs : list Z) :
  GoSort.strict_total (idLess (nodeId o)) → (0 ≤ OverlayLeaves)%Z →
  nodeId o ∈ leaves t → nodeId o ∉ downs →
  (∀ r i, visit r i ≡ₚ pool o) →
  ∃ t', revoke o visit t downs = Ok t' ∧
    (∀ id, id ∈ leaves t' →
       (id ∈ leaves t ∧ id ∉ downs) ∨ id ∈ (peer_nodeId <$> pool o)) ∧
    (Forall (λ x, x ∉ downs) (leaves t) → leaves t' = leaves t) ∧
    (∀ r c, cell (routes t) r c = None → cell (routes t') r c = None) ∧
    (∀ r c, cell (routes t) r c = Some None →
       cell (routes t') r c = Some None) ∧
    (∀ r c id, cell (routes t) r c = Some (Some id) → id ∉ downs →
       cell (routes t') r c = Some (Some id)) ∧
    (∀ r c id, cell (routes t) r c = Some (Some id) → id ∈ downs →
       (cell (routes t') r c = Some None ∧
        ∀ p, p ∈ pool o → prefix (nodeId o) (peer_nodeId p) ≠ (r, c)) ∨
       (∃ p, p ∈ pool o ∧ prefix (nodeId o) (peer_nodeId p) = (r, c) ∧
          cell (routes t') r c = Some (Some (peer_nodeId p)))).
Proof.
  intros Hless HL Hself Hup Hvisit.
  destruct (revoke_inv o visit t downs Hless HL Hself Hup)
    as (t' & Hrun & Hlv & Hsame & Hrt).
  exists t'. split; [done|]. split; [done|]. split; [done|].
  split; [|split; [|split]].
  - intros r c Hc. by rewrite Hrt, Hc.
  - intros r c Hc. by rewrite Hrt, Hc.
  - intros r c id Hc Hid. rewrite Hrt, Hc. simpl.
    by rewrite (proj2 (is_down_false downs id) Hid).
  - intros r c id Hc Hid. rewrite Hrt, Hc. simpl.
    rewrite (proj2 (is_down_BigInts downs id) Hid).
    destruct (repair (nodeId o) r c (visit r c)) as [id'|] eqn:Hrep.
    + right. apply repair_Some_peer in Hrep as (p & Hp & Hpre & ->).
      exists p. split; [by rewrite <- (Hvisit r c)|done].
    + left. split; [done|]. intros p Hp.
      apply (repair_None _ _ _ _ Hrep). by rewrite (Hvisit r c).
Qed.

(** X15.  Revoking the local id from a table that holds it as a leaf, with no
    peer of that id in the pool, stops the program: [mergeLeaves] looks for
    the local id past the end of the repaired leaves. *)
Theorem revoke_self (o : Overlay) (visit : nat → nat → list peer)
    (t : table) (downs : list Z) :
  nodeId o ∈ leaves t → nodeId o ∈ downs →
  nodeId o ∉ (peer_nodeId <$> pool o) →
  revoke o visit t downs = Fault IndexOutOfRange.
Proof.
  intros Hself Hdown Hpool. unfold revoke.
  destruct (clean_loop (length (leaves t)) (Sortext.BigInts downs)
              (leaves t) 0 true) as [lv intact] eqn:Hclean.
  assert (nodeId o ∉ lv) as Hlv.
  { rewrite (clean_elem_of _ _ _ _ _ Hclean), is_down_false.
    by intros [_ ?]. }
  destruct intact.
  { apply clean_loop_intact in Hclean. by subst lv. }
  rewrite mergeLeaves_fault; [done|].
  intros [?|?]%elem_of_app; done.
Qed.

(** X16.  The second round of discovery in [manager]: revoking from a table
    what [discover] finds in it leaves a table in which [discover] finds
    nothing. *)
Theorem revoke_discover (o : Overlay) (visit : nat → nat → list peer)
    (t : table) :
  GoSort.strict_total (idLess (nodeId o)) → (0 ≤ OverlayLeaves)%Z →
  table_ok (nodeId o) t → (∀ r i, visit r i ≡ₚ pool o) →
  ∃ t', revoke o visit t (discover o t) = Ok t' ∧ discover o t' = [].
Proof.
  intros Hless HL (Hnd & Hself & Hcells) Hvisit.
  destruct (revoke_inv o visit t (discover o t) Hless HL Hself)
    as (t' & Hrun & Hlv & _ & Hrt).
  { rewrite discover_elem_of. intros [_ [[_ ?]|(r & c & Hc)]]; [done|].
    by destruct (Hcells r c _ Hc). }
  exists t'. split; [done|]. apply elem_of_nil_inv. intros x.
  rewrite discover_elem_of. intros [Hpool [[Hin Hne]|(r & c & Hc)]].
  - destruct (Hlv x Hin) as [[Hin' Hnd']|Hp]; [|done].
    apply Hnd'. apply discover_elem_of. split; [done|]. by left.
  - rewrite Hrt in Hc.
    destruct (cell (routes t) r c) as [[id0|]|] eqn:Hc0; simpl in Hc;
      [|done..].
    destruct (is_down _ id0) eqn:Hd.
    + injection Hc as Hrep. apply repair_Some in Hrep as [Hp _].
      apply Hpool. by rewrite <- (Hvisit r c).
    + injection Hc as ->. apply is_down_false in Hd. apply Hd.
      apply discover_elem_of. split; [done|]. right. by exists r, c.
Qed.

(** *** [changed] against the live table *)

Lemma changed_cell_ch (oldId newId : option Z) (acc : bool * bool) :
  ((changed_cell oldId newId acc).1 = true ↔
   acc.1 = true ∨ newId ≠ oldId) ∧
  ((acc.2 = true → acc.1 = true) →
   (changed_cell oldId newId acc).2 = true →
   (changed_cell oldId newId acc).1 = true).
Proof.
  destruct newId as [n|], oldId as [old|]; simpl.
  - case_bool_decide as Hne; simpl.
    + split; [|done]. split; [|done]. intros _. right. congruence.
    + split; [|done]. split; [by left|]. intros [?|?]; [done|].
      congruence.
  - split; [|done]. split; [by right|done].
  - split; [|done]. split; [by right|done].
  - split; [|done]. split; [by left|]. by intros [?|?].
Qed.

Lemma changed_row_ch (o : Overlay) (t : table) (r : nat) (cs : list nat) :
  ∀ acc,
    (∀ c, c ∈ cs → is_Some (cell (routes (live o)) r c) ∧
                     is_Some (cell (routes t) r c)) →
    ∃ acc', changed_row o t r cs acc = Ok acc' ∧
      (acc'.1 = true ↔
       acc.1 = true ∨
       ∃ c, c ∈ cs ∧ cell (routes t) r c ≠ cell (routes (live o)) r c) ∧
      ((acc.2 = true → acc.1 = true) → acc'.2 = true → acc'.1 = true).
Proof.
  induction cs as [|c cs IH]; intros acc Hcells.
  { exists acc. split; [done|]. split; [|done]. split; [by left|].
    by intros [?|(? & []%elem_of_nil & _)]. }
  destruct (Hcells c) as [[oldId Hold] [newId Hnew]]; [by left|].
  destruct (cell_index _ _ _ _ Hold) as (oldRow & HoldRow & HoldId).
  destruct (cell_index _ _ _ _ Hnew) as (newRow & HnewRow & HnewId).
  destruct (IH (changed_cell oldId newId acc)) as (acc' & Hrun & Hch & Himp).
  { intros c' Hc'. apply Hcells. by right. }
  destruct (changed_cell_ch oldId newId acc) as [Hch1 Himp1].
  exists acc'. split; [|split].
  - cbn [changed_row]. rewrite HoldRow. simpl. rewrite HoldId. simpl.
    rewrite HnewRow. simpl. rewrite HnewId. simpl. done.
  - rewrite Hch, Hch1. split.
    + intros [[?|Hne]|(c' & Hc' & Hne)].
      * by left.
      * right. exists c. split; [by left|]. rewrite Hold, Hnew. congruence.
      * right. exists c'. split; [by right|done].
    + intros [?|(c' & [->|Hc']%elem_of_cons & Hne)].
      * left. by left.
      * left. right. rewrite Hold, Hnew in Hne. congruence.
      * right. by exists c'.
  - intros Hacc. apply Himp. by apply Himp1.
Qed.

Lemma changed_rows_ch (o : Overlay) (t : table) (cols : nat)
    (row0 : list (option Z)) (rs : list nat) :
  routes t !! 0%nat = Some row0 → length row0 = cols →
  ∀ acc,
    (∀ r c, r ∈ rs → (c < cols)%nat →
       is_Some (cell (routes (live o)) r c) ∧ is_Some (cell (routes t) r c)) →
    ∃ acc', changed_rows o t rs acc = Ok acc' ∧
      (acc'.1 = true ↔
       acc.1 = true ∨
       ∃ r c, r ∈ rs ∧ (c < cols)%nat ∧
         cell (routes t) r c ≠ cell (routes (live o)) r c) ∧
      ((acc.2 = true → acc.1 = true) → acc'.2 = true → acc'.1 = true).
Proof.
  intros Hrow0 Hlen.
  induction rs as [|r rs IH]; intros acc Hcells.
  { exists acc. split; [done|]. split; [|done]. split; [by left|].
    by intros [?|(? & ? & []%elem_of_nil & _)]. }
  destruct (changed_row_ch o t r (seq 0 cols) acc)
    as (acc1 & Hrun1 & Hch1 & Himp1).
  { intros c [_ Hc]%elem_of_seq. apply Hcells; [by left|lia]. }
  destruct (IH acc1) as (acc' & Hrun & Hch & Himp).
  { intros r' c Hr' Hc. apply Hcells; [by right|done]. }
  exists acc'. split; [|split].
  - cbn [changed_rows]. unfold index at 1. rewrite Hrow0. simpl.
    rewrite Hlen, Hrun1. simpl. done.
  - rewrite Hch, Hch1. split.
    + intros [[?|(c & [_ Hc]%elem_of_seq & Hne)]|(r' & c & Hr' & Hc & Hne)].
      * by left.
      * right. exists r, c. split; [by left|]. split; [lia|done].
      * right. exists r', c. split; [by right|done].
    + intros [?|(r' & c & [->|Hr']%elem_of_cons & Hc & Hne)].
      * left. by left.
      * left. right. exists c. split; [|done]. apply elem_of_seq. lia.
      * right. by exists r', c.
  - intros Hacc. apply Himp. by apply Himp1.
Qed.

(** The comparison of the leaves in [changed]. *)
Lemma leaves_differ (l k : list Z) :
  (if bool_decide (length l ≠ length k) then true
   else existsb (λ '(x, y), bool_decide (x ≠ y)) (zip l k)) = false ↔ l = k.
Proof.
  case_bool_decide as Hlen.
  { split; [done|]. intros ->. done. }
  revert k Hlen. induction l as [|x l IH]; intros [|y k] Hlen; try done.
  simpl. rewrite orb_false_iff, bool_decide_eq_false.
  injection Hlen as Hlen. rewrite (IH k Hlen). split.
  - intros [Hxy ->]. apply dec_stable in Hxy. by subst.
  - intros [= -> ->]. split; [|done]. by intros ?.
Qed.

(** Two prefix tables of the same shape are equal when their cells are. *)
Lemma rectangular_eq (rows cols : nat) (rt1 rt2 : list (list (option Z))) :
  rectangular rows cols rt1 → rectangular rows cols rt2 →
  (∀ r c, (r < rows)%nat → (c < cols)%nat → cell rt1 r c = cell rt2 r c) →
  rt1 = rt2.
Proof.
  intros [Hr1 Hc1] [Hr2 Hc2] Hcells. apply list_eq. intros r.
  destruct (decide (r < rows)%nat) as [Hr|Hr].
  - destruct (lookup_lt_is_Some_2 rt1 r ltac:(lia)) as [row1 Hrow1].
    destruct (lookup_lt_is_Some_2 rt2 r ltac:(lia)) as [row2 Hrow2].
    rewrite Hrow1, Hrow2. f_equal.
    rewrite Forall_forall in Hc1. rewrite Forall_forall in Hc2.
    pose proof (Hc1 row1 (list_elem_of_lookup_2 _ _ _ Hrow1)) as Hl1.
    pose proof (Hc2 row2 (list_elem_of_lookup_2 _ _ _ Hrow2)) as Hl2.
    apply list_eq. intros c.
    destruct (decide (c < cols)%nat) as [Hc|Hc].
    + specialize (Hcells r c Hr Hc). unfold cell in Hcells.
      by rewrite Hrow1, Hrow2 in Hcells.
    + rewrite !lookup_ge_None_2; [done|lia..].
  - rewrite !lookup_ge_None_2; [done|lia..].
Qed.

(** X17.  For a live table and a table [t] of the same shape, [changed(t)]
    returns; its first result [ch] is [false] exactly when [t] is the live
    table, leaf by leaf and cell by cell, and [rep] is never set without [ch]. *)
Theorem changed_iff_differs (o : Overlay) (t : table) (rows cols : nat) :
  rectangular rows cols (routes (live o)) →
  rectangular rows cols (routes t) →
  ∃ ch rep, changed o t = Ok (ch, rep) ∧
    (ch = false ↔ t = live o) ∧ (rep = true → ch = true).
Proof.
  intros Hlive Ht. unfold changed.
  pose proof (leaves_differ (leaves t) (leaves (live o))) as Hlv.
  set (ch0 := if bool_decide _ then true else _) in *.
  assert (∀ ch, (ch = false ↔ leaves t = leaves (live o) ∧
                   routes t = routes (live o)) → ch = false ↔ t = live o)
    as Hfin.
  { intros ch ->. destruct t as [lv rt], (live o) as [lv' rt']. simpl.
    split; [by intros [-> ->]|by intros [= -> ->]]. }
  destruct (routes t) as [|row0 rt] eqn:Hrt.
  { exists ch0, false. split; [done|]. split; [|done]. apply Hfin.
    rewrite Hlv. split; [|by intros [? _]]. intros Heq. split; [done|].
    destruct Ht as [Hrows _], Hlive as [Hrows' _]. simpl in Hrows.
    subst rows. by destruct (routes (live o)). }
  rewrite <- Hrt in *.
  assert (length row0 = cols) as Hlen.
  { destruct Ht as [_ Hc]. rewrite Hrt in Hc.
    by apply Forall_cons in Hc as [? _]. }
  assert (length (routes t) = rows) as Hrows by apply Ht.
  destruct (changed_rows_ch o t cols row0 (seq 0 (length (routes t))))
    with (acc := (ch0, false)) as ([ch rep] & Hrun & Hch & Himp).
  { by rewrite Hrt. }
  { done. }
  { intros r c [_ Hr]%elem_of_seq Hc.
    rewrite !(rectangular_cell rows cols) by done. lia. }
  exists ch, rep. split; [done|]. simpl in Hch, Himp.
  split; [|by apply Himp]. apply Hfin.
  destruct ch.
  - split; [done|]. intros [Hl Hr].
    destruct (proj1 Hch eq_refl) as [Hc0|(r & c & _ & _ & Hne)].
    + apply Hlv in Hl. congruence.
    + by rewrite Hr in Hne.
  - split; [|done]. intros _.
    assert (ch0 = false) as Hc0.
    { destruct ch0; [|done]. symmetry. apply Hch. by left. }
    split; [by apply Hlv|].
    apply (rectangular_eq rows cols); [done..|].
    intros r c Hr Hc.
    destruct (decide (cell (routes t) r c = cell (routes (live o)) r c))
      as [|Hne]; [done|].
    assert (false = true) as Habs; [|done].
    apply Hch. right. exists r, c. split; [|done].
    apply elem_of_seq. lia.
Qed.

(** *** [mergeLeaves] on its own result *)

Lemma unique_from_strict {A : Type} (less : A → A → bool) (u : A)
    (l : list A) :
  Forall (λ x, less u x = true) l →
  StronglySorted (λ x y, less x y = true) l →
  Sortext.unique_from less u l = l.
Proof.
  revert u. induction l as [|x l IH]; intros u Hu Hs; [done|].
  apply Forall_cons in Hu as [Hux Hu].
  apply StronglySorted_inv in Hs as [Hs Hx].
  cbn [Sortext.unique_from]. rewrite Hux. f_equal. by apply IH.
Qed.

Lemma Unique_strict {A : Type} (less : A → A → bool) (l : list A) :
  StronglySorted (λ x y, less x y = true) l → Sortext.Unique less l = l.
Proof.
  destruct l as [|u l]; [done|]. intros [Hs Hu]%StronglySorted_inv.
  simpl. f_equal. by apply unique_from_strict.
Qed.

Lemma merged_sorted (self : Z) (a b : list Z) :
  GoSort.strict_total (idLess self) →
  StronglySorted (λ x y, idLess self x y = true) (merged self a b).
Proof.
  intros Hless. apply Sortext.Unique_sorted; [done|].
  by apply GoSort.Sort_sorted.
Qed.

(** A list in strictly increasing order is what [mergeLeaves] sorts it to. *)
Lemma merged_strict (self : Z) (r : list Z) :
  GoSort.strict_total (idLess self) →
  StronglySorted (λ x y, idLess self x y = true) r →
  merged self r [] = r.
Proof.
  intros Hless Hs. unfold merged. rewrite app_nil_r.
  assert (GoSort.Sort (idLess self) r = r) as ->; [|by apply Unique_strict].
  apply (@StronglySorted_unique _ (GoSort.not_after (idLess self))
           (GoSort.not_after_antisymm _ Hless)).
  - by apply GoSort.Sort_sorted.
  - eapply GoSort.StronglySorted_mono; [|exact Hs].
    intros x y Hxy. by apply GoSort.less_asym.
  - apply GoSort.Sort_perm.
Qed.

Lemma mergeLeaves_sorted (o : Overlay) (a b r : list Z) :
  GoSort.strict_total (idLess (nodeId o)) →
  mergeLeaves o a b = Ok r →
  StronglySorted (λ x y, idLess (nodeId o) x y = true) r.
Proof.
  intros Hless (i & min & max & _ & _ & _ & _ & ->)%mergeLeaves_Ok.
  pose proof (merged_sorted (nodeId o) a b Hless) as Hs.
  rewrite <- (take_drop (Z.to_nat min) (merged (nodeId o) a b)) in Hs.
  apply StronglySorted_app_1_r in Hs.
  rewrite <- (take_drop (Z.to_nat (max - min))
                (drop (Z.to_nat min) (merged (nodeId o) a b))) in Hs.
  by apply StronglySorted_app_1_l in Hs.
Qed.

Lemma mergeLeaves_idem (o : Overlay) (a b r : list Z) :
  GoSort.strict_total (idLess (nodeId o)) → (2 ≤ OverlayLeaves)%Z →
  mergeLeaves o a b = Ok r → mergeLeaves o r [] = Ok r.
Proof.
  intros Hless HL Hm.
  pose proof (mergeLeaves_sorted o a b r Hless Hm) as Hs.
  pose proof (mergeLeaves_NoDup o a b r Hless Hm) as Hnd.
  rewrite mergeLeaves_merged, (merged_strict _ r Hless Hs).
  apply mergeLeaves_Ok in Hm as (i & min & max & Hi & -> & -> & Hmm & Hr).
  pose proof (lookup_lt_Some _ _ _ Hi) as Hlen.
  pose proof (half_leaves_bound ltac:(lia)) as [Hq0 _].
  assert (1 ≤ OverlayLeaves `quot` 2)%Z as Hq.
  { rewrite Z.quot_div_nonneg by lia.
    apply (Z.div_le_lower_bound OverlayLeaves 2 1); lia. }
  set (q := (OverlayLeaves `quot` 2)%Z) in *.
  set (m := merged (nodeId o) a b) in *.
  set (lo := Z.to_nat (Z.max 0 (Z.of_nat i - q))) in *.
  assert (r !! (i - lo)%nat = Some (nodeId o)) as Hj.
  { rewrite Hr. rewrite lookup_take_lt by lia. rewrite lookup_drop.
    rewrite <- Hi. f_equal. lia. }
  assert (length r = Z.to_nat (Z.min (Z.of_nat (length m)) (Z.of_nat i + q)
                               - Z.max 0 (Z.of_nat i - q))) as Hlr.
  { rewrite Hr, length_take, length_drop. lia. }
  destruct (origin_loop_elem (nodeId o) r 0) as [origin Ho].
  { by eapply list_elem_of_lookup_2. }
  rewrite Ho. apply origin_loop_Ok in Ho as (j & -> & Hj').
  assert (j = (i - lo)%nat) as ->.
  { by eapply NoDup_lookup. }
  unfold slice. rewrite bool_decide_eq_true_2 by lia.
  f_equal.
  replace (Z.to_nat (Z.max 0 (0 + Z.of_nat (i - lo) - q))) with 0%nat by lia.
  rewrite drop_0. apply take_ge. lia.
Qed.

(** X18.  For an [idSlice] order that is a strict total order and [2 ≤
    OverlayLeaves]: a leaf set that [mergeLeaves] returns is in strictly
    increasing order of [idSlice], and merging nothing into it gives it back. *)
Theorem mergeLeaves_stable (o : Overlay) (a b r : list Z) :
  GoSort.strict_total (idLess (nodeId o)) → (2 ≤ OverlayLeaves)%Z →
  mergeLeaves o a b = Ok r →
  StronglySorted (λ x y, idLess (nodeId o) x y = true) r ∧
  mergeLeaves o r [] = Ok r.
Proof.
  intros Hless HL Hm. split.
  - by eapply mergeLeaves_sorted.
  - by eapply mergeLeaves_idem.
Qed.

(** X19.  For an [idSlice] order that is a strict total order: when the ids to
    merge, the local id among them, are no more than half of [OverlayLeaves],
    [mergeLeaves] drops none of them. *)
Theorem mergeLeaves_small (o : Overlay) (a b : list Z) :
  GoSort.strict_total (idLess (nodeId o)) →
  nodeId o ∈ a ++ b →
  (Z.of_nat (length (a ++ b)) ≤ OverlayLeaves `quot` 2)%Z →
  ∃ r, mergeLeaves o a b = Ok r ∧ ∀ x, x ∈ r ↔ x ∈ a ++ b.
Proof.
  intros Hless Hself Hlen.
  assert (0 < length (a ++ b))%nat as Hpos.
  { destruct (a ++ b); [by apply elem_of_nil in Hself|simpl; lia]. }
  assert (0 ≤ OverlayLeaves)%Z as HL.
  { destruct (decide (0 ≤ OverlayLeaves)%Z) as [|Hneg]; [done|].
    pose proof (Z.quot_opp_l OverlayLeaves 2 ltac:(lia)) as Hopp.
    pose proof (Z.quot_pos (- OverlayLeaves) 2 ltac:(lia) ltac:(lia)). lia. }
  destruct (mergeLeaves_total o a b Hless HL Hself) as [r Hm].
  exists r. split; [done|]. intros x.
  rewrite <- (merged_elem_of (nodeId o) a b x Hless).
  apply mergeLeaves_Ok in Hm as (i & min & max & Hi & -> & -> & Hmm & ->).
  pose proof (lookup_lt_Some _ _ _ Hi) as Hi'.
  assert (length (merged (nodeId o) a b) ≤ length (a ++ b))%nat as Hle.
  { rewrite <- (Permutation_length (GoSort.Sort_perm (idLess (nodeId o)) (a ++ b))).
    apply sublist_length, Sortext.Unique_sublist. }
  replace (Z.to_nat (Z.max 0 (Z.of_nat i - OverlayLeaves `quot` 2)))
    with 0%nat by lia.
  rewrite drop_0, take_ge by lia. done.
Qed.

(** *** [merge] of a state without ids to take *)

Lemma extract_none (self : Z) (entries : list (string * list string)) :
  ∀ ids a,
    ∃ new, (extract self entries ids a).1 = ids ++ new ∧
      (new = [] → (extract self entries ids a).2 = a).
Proof.
  induction entries as [|[sid addrs] entries IH]; intros ids a.
  { exists []. by rewrite app_nil_r. }
  cbn [extract].
  destruct (Big.SetString10 sid) as [id|]; [|apply IH].
  case_bool_decide; [|apply IH].
  destruct (IH (ids ++ [id]) (<[sid:=addrs]> a)) as (new & Hnew & _).
  exists (id :: new). split; [|done].
  by rewrite Hnew, <- app_assoc.
Qed.

(** X21.  For an [idSlice] order that is a strict total order and [2 ≤
    OverlayLeaves]: a state that brings no id but malformed ones and the local
    id (a heartbeat, whose address map is empty, is one) leaves a table whose
    leaves came from [mergeLeaves], and the address map, as they are. *)
Theorem merge_nothing (o : Overlay) (t : table)
    (a : gmap string (list string)) (s : state) (a0 b0 : list Z) :
  GoSort.strict_total (idLess (nodeId o)) → (2 ≤ OverlayLeaves)%Z →
  mergeLeaves o a0 b0 = Ok (leaves t) →
  received o a s = [] →
  merge o t a s = Ok (t, a).
Proof.
  intros Hless HL Hlv Hrec. unfold merge. unfold received in Hrec.
  destruct (extract_none (nodeId o) (Addrs s) [] a) as (new & Hnew & Ha).
  destruct (extract _ _ _ _) as [ids a'] eqn:Hex. simpl in *.
  assert (a' = a) as -> by (apply Ha; congruence).
  subst ids.
  rewrite (mergeLeaves_idem o a0 b0 (leaves t) Hless HL Hlv). simpl.
  by destruct t.
Qed.

(** *** State messages and the receiver's [merge] *)

Lemma pool_lookup_is_Some (o : Overlay) (id : Z) :
  is_Some (pool_lookup o id) ↔ id ∈ (peer_nodeId <$> pool o).
Proof.
  unfold pool_lookup. split.
  - intros [q Hq]. apply head_Some_elem_of in Hq.
    apply list_elem_of_filter in Hq as [<- Hq].
    apply list_elem_of_fmap. by exists q.
  - intros (q & -> & Hq)%list_elem_of_fmap.
    destruct (filter _ (pool o)) as [|q' l] eqn:Hf; [|by eexists].
    assert (q ∈ filter (λ q0, peer_nodeId q0 = peer_nodeId q) (pool o))
      as Hin by (by apply list_elem_of_filter).
    rewrite Hf in Hin. by apply elem_of_nil in Hin.
Qed.

(** The keys that a loop of [sendState] adds. *)
Lemma put_peer_keys (o : Overlay) (m : gmap string (list string)) (id : Z)
    (sid : string) :
  is_Some (put_peer o m id !! sid) ↔
  is_Some (m !! sid) ∨
  (sid = Big.String id ∧ id ∈ (peer_nodeId <$> pool o)).
Proof.
  unfold put_peer. rewrite <- pool_lookup_is_Some.
  destruct (pool_lookup o id) as [node|].
  - rewrite lookup_insert_is_Some'. split.
    + intros [<-|?]; [right|by left]. split; [done|by eexists].
    + intros [?|[-> _]]; [by right|by left].
  - split; [by left|]. intros [?|[_ []]]; done.
Qed.

Lemma foldl_keys {B : Type} (f : gmap string (list string) → B →
                                 gmap string (list string))
    (Q : B → string → Prop) (l : list B) :
  (∀ m x sid, is_Some (f m x !! sid) ↔ is_Some (m !! sid) ∨ Q x sid) →
  ∀ m sid, is_Some (foldl f m l !! sid) ↔
           is_Some (m !! sid) ∨ ∃ x, x ∈ l ∧ Q x sid.
Proof.
  intros Hf. induction l as [|x l IH]; intros m sid; simpl.
  { split; [by left|]. by intros [?|(? & []%elem_of_nil & _)]. }
  rewrite IH, Hf. split.
  - intros [[?|?]|(y & Hy & HQ)]; [by left|right|right].
    + exists x. split; [by left|done].
    + exists y. split; [by right|done].
  - intros [?|(y & [->|Hy]%elem_of_cons & HQ)].
    + left. by left.
    + left. by right.
    + right. by exists y.
Qed.

Lemma state_addrs_keys (o : Overlay) (addrs : list string)
    (row : list (option Z)) (sid : string) :
  is_Some (state_addrs o addrs row !! sid) ↔
  ∃ id, sid = Big.String id ∧ spoken o row id.
Proof.
  unfold state_addrs, spoken.
  rewrite (foldl_keys _
    (λ c sid, ∃ id, c = Some id ∧ sid = Big.String id ∧
                    id ∈ (peer_nodeId <$> pool o))).
  2:{ intros m [id|] sid'.
      - rewrite put_peer_keys. split.
        + intros [?|[-> ?]]; [by left|]. right. by exists id.
        + intros [?|(id' & [= <-] & -> & ?)]; [by left|by right].
      - split; [by left|]. by intros [?|(? & ? & _)]. }
  rewrite (foldl_keys _
    (λ id sid, id ≠ nodeId o ∧ sid = Big.String id ∧
               id ∈ (peer_nodeId <$> pool o))).
  2:{ intros m id sid'. case_bool_decide as Hne.
      - rewrite put_peer_keys. split.
        + intros [?|[-> ?]]; [by left|by right].
        + intros [?|(_ & -> & ?)]; [by left|by right].
      - split; [by left|]. by intros [?|[? _]]. }
  rewrite lookup_insert_is_Some', lookup_empty. split.
  - intros [[[<-|[? Hx]]|(id & Hin & Hne & -> & Hp)]|(c & Hc & id & -> & -> & Hp)].
    + exists (nodeId o). split; [done|by left].
    + done.
    + exists id. split; [done|]. right. split; [done|by left].
    + exists id. split; [done|]. right. split; [done|by right].
  - intros (id & -> & [->|[Hp [Hin|Hin]]]).
    + left. left. by left.
    + destruct (decide (id = nodeId o)) as [->|Hne].
      * left. left. by left.
      * left. right. by exists id.
    + right. exists (Some id). split; [done|]. by exists id.
Qed.

Lemma merge_Ok_addrs (o : Overlay) (t t' : table)
    (a a' : gmap string (list string)) (s : state) :
  merge o t a s = Ok (t', a') →
  a' = (extract (nodeId o) (Addrs s) [] a).2.
Proof.
  unfold merge. destruct (extract _ _ _ _) as [ids a1]. simpl.
  destruct (mergeLeaves o (leaves t) ids) as [lv|f]; simpl; [|done].
  destruct (install_all (nodeId o) (routes t) ids) as [rt|f]; simpl; [|done].
  by intros [= <- <-].
Qed.

(** The addresses that the first loop of [merge] records. *)
Lemma extract_addrs (self : Z) (entries : list (string * list string)) :
  ∀ ids a,
    (∀ sid,
       sid ∉ entries.*1 ∨ Big.SetString10 sid = None ∨
       Big.SetString10 sid = Some self →
       (extract self entries ids a).2 !! sid = a !! sid) ∧
    (NoDup entries.*1 →
     ∀ sid addrs id, (sid, addrs) ∈ entries →
       Big.SetString10 sid = Some id → id ≠ self →
       (extract self entries ids a).2 !! sid = Some addrs).
Proof.
  induction entries as [|[sid0 addrs0] entries IH]; intros ids a.
  { split; [done|]. intros _ sid addrs id []%elem_of_nil. }
  cbn [extract]. split.
  - intros sid Hsid.
    assert (sid ∉ entries.*1 ∨ Big.SetString10 sid = None ∨
            Big.SetString10 sid = Some self) as Hsid'.
    { destruct Hsid as [Hni|?]; [|by right]. left.
      rewrite fmap_cons in Hni. by apply not_elem_of_cons in Hni as [_ ?]. }
    destruct (Big.SetString10 sid0) as [id0|] eqn:Hp; [|by apply IH].
    case_bool_decide as Hne; [|by apply IH].
    rewrite (proj1 (IH _ _) sid Hsid'). apply lookup_insert_ne.
    intros <-. destruct Hsid as [Hni|[?|?]]; [|congruence..].
    apply Hni. rewrite fmap_cons. by left.
  - rewrite fmap_cons. intros [Hni Hnd]%NoDup_cons sid addrs id Hin Hparse Hid.
    apply elem_of_cons in Hin as [[= -> ->]|Hin].
    + rewrite Hparse, bool_decide_eq_true_2 by done.
      rewrite (proj1 (IH _ _) sid0 (or_introl Hni)).
      apply lookup_insert_eq.
    + destruct (Big.SetString10 sid0) as [id0|] eqn:Hp;
        [|by eapply (proj2 (IH _ _))].
      case_bool_decide as Hne; by eapply (proj2 (IH _ _)).
Qed.

(** X22.  "Also each peer's network address is saved for later use": after
    [merge], the address map holds, under its text, the addresses of every id
    of the state that parses and is not the local id; every other key is left
    as it was. *)
Theorem merge_addrs (o : Overlay) (t t' : table)
    (a a' : gmap string (list string)) (s : state) :
  NoDup (Addrs s).*1 →
  merge o t a s = Ok (t', a') →
  (∀ sid addrs id, (sid, addrs) ∈ Addrs s →
     Big.SetString10 sid = Some id → id ≠ nodeId o →
     a' !! sid = Some addrs) ∧
  (∀ sid,
     sid ∉ (Addrs s).*1 ∨ Big.SetString10 sid = None ∨
     Big.SetString10 sid = Some (nodeId o) →
     a' !! sid = a !! sid).
Proof.
  intros Hnd ->%merge_Ok_addrs.
  destruct (extract_addrs (nodeId o) (Addrs s) [] a) as [Hkeep Hrec].
  split; [by apply Hrec|done].
Qed.

(** X23.  [sendState(p, repair)] stops when the prefix table has no row for
    [p]; otherwise it sends [p] a message from the local id with the epoch and
    the repair flag, and a receiver that merges its state, ranging over the
    address map in any order, takes from it the sender's id and the ids of the
    sender's leaves and of that row that are in the sender's pool, its own id
    apart. *)
Theorem sendState_received (o : Overlay) (addrs : list string) (p : peer)
    (repair : bool) :
  (routes (live o) !! (prefix (nodeId o) (peer_nodeId p)).1 = None →
   sendState o addrs p repair = Fault IndexOutOfRange) ∧
  (∀ row,
     routes (live o) !! (prefix (nodeId o) (peer_nodeId p)).1 = Some row →
     ∃ s, sendState o addrs p repair = Ok (p, Header (nodeId o) s) ∧
       Updated s = time o ∧ Repair s = repair ∧ Passive s = false ∧
       ∀ o2 a s', Addrs s' ≡ₚ Addrs s →
         ∀ id, id ∈ received o2 a s' ↔ id ≠ nodeId o2 ∧ spoken o row id).
Proof.
  unfold sendState, index. split.
  - by intros ->.
  - intros row ->. simpl. eexists. split; [done|]. simpl.
    split; [done|]. split; [done|]. split; [done|].
    intros o2 a s' Hperm id. unfold received. rewrite extract_ids.
    split.
    + intros [[]%elem_of_nil|(sid & ad & Hin & Hparse & Hne)].
      split; [done|]. rewrite Hperm in Hin.
      apply elem_of_map_to_list in Hin.
      destruct (proj1 (state_addrs_keys o addrs row sid))
        as (id' & -> & Hsp); [by eexists|].
      rewrite Big.SetString10_String_eq in Hparse. by injection Hparse as <-.
    + intros [Hne Hsp]. right.
      destruct (proj2 (state_addrs_keys o addrs row (Big.String id)))
        as [ad Had]; [by exists id|].
      exists (Big.String id), ad. rewrite Hperm.
      split; [by apply elem_of_map_to_list|].
      split; [apply Big.SetString10_String_eq|done].
Qed.

(** X24.  A join message carries the sender's id as destination, update time 0
    and the sender's addresses alone; a receiver other than the sender that
    merges it takes the sender's id, and records the sender's addresses under
    the text of that id, which is the key [manager] looks them up by. *)
Theorem sendJoin_merge (o o2 : Overlay) (addrs : list string) (p : peer)
    (t t' : table) (a a' : gmap string (list string)) :
  nodeId o2 ≠ nodeId o →
  merge o2 t a (State (sendJoin o addrs p).2) = Ok (t', a') →
  (sendJoin o addrs p).1 = p ∧
  Dest (sendJoin o addrs p).2 = nodeId o ∧
  Updated (State (sendJoin o addrs p).2) = 0%Z ∧
  received o2 a (State (sendJoin o addrs p).2) = [nodeId o] ∧
  a' !! Big.String (nodeId o) = Some addrs ∧
  (∀ sid, sid ≠ Big.String (nodeId o) → a' !! sid = a !! sid).
Proof.
  intros Hne ->%merge_Ok_addrs. unfold received. simpl.
  rewrite Big.SetString10_String_eq, bool_decide_eq_true_2 by done. simpl.
  split; [done|]. split; [done|]. split; [done|]. split; [done|].
  split; [apply lookup_insert_eq|].
  intros sid Hsid. by apply lookup_insert_ne.
Qed.

(** *** The nearest ids on both sides *)

(** In a list in strictly increasing order, what is below an element stands
    before it and what is above it stands after it. *)
Lemma sorted_sides {A : Type} (less : A → A → bool) (m : list A) (i : nat)
    (s : A) :
  GoSort.strict_total less →
  StronglySorted (λ x y, less x y = true) m → m !! i = Some s →
  ∀ y, y ∈ m →
    (less y s = true → y ∈ take i m) ∧
    (less s y = true → y ∈ drop (S i) m).
Proof.
  intros Hless Hs Hi y Hy. pose proof Hless as (Hirr & _ & _).
  rewrite <- (take_drop_middle m i s Hi) in Hs, Hy.
  apply StronglySorted_app in Hs as (Hcross & _ & Hs2).
  apply StronglySorted_inv in Hs2 as [_ Hafter].
  rewrite Forall_forall in Hafter.
  apply elem_of_app in Hy as [Hy|[->|Hy]%elem_of_cons]; split; intros Hlt;
    try done.
  - specialize (Hcross y s Hy ltac:(by left)).
    by rewrite (GoSort.less_asym less Hless _ _ Hcross) in Hlt.
  - by rewrite Hirr in Hlt.
  - by rewrite Hirr in Hlt.
  - specialize (Hafter y Hy).
    by rewrite (GoSort.less_asym less Hless _ _ Hafter) in Hlt.
Qed.

(** X20.  "Fetch the nearest nodes in both directions". For an [idSlice] order
    that is a strict total order and [2 ≤ OverlayLeaves], with [q] for
    [OverlayLeaves/2]: the list that [mergeLeaves] returns is the local id
    between at most [q] ids below it and fewer than [q] ids above it, in
    increasing order. An id to merge that is below the local id is kept,
    unless [q] ids are kept on that side, all of them above it; an id that is
    above the local id is kept, unless [q - 1] ids are kept on that side, all
    of them below it. *)
Theorem mergeLeaves_nearest (o : Overlay) (a b r : list Z) :
  GoSort.strict_total (idLess (nodeId o)) → (2 ≤ OverlayLeaves)%Z →
  mergeLeaves o a b = Ok r →
  ∃ before after,
    r = before ++ nodeId o :: after ∧
    StronglySorted (λ x y, idLess (nodeId o) x y = true) r ∧
    (Z.of_nat (length before) ≤ OverlayLeaves `quot` 2)%Z ∧
    (Z.of_nat (length after) < OverlayLeaves `quot` 2)%Z ∧
    (∀ y, y ∈ a ++ b → idLess (nodeId o) y (nodeId o) = true →
       y ∈ before ∨
       ((Z.of_nat (length before) = OverlayLeaves `quot` 2)%Z ∧
        ∀ x, x ∈ before → idLess (nodeId o) y x = true)) ∧
    (∀ y, y ∈ a ++ b → idLess (nodeId o) (nodeId o) y = true →
       y ∈ after ∨
       ((Z.of_nat (length after) = OverlayLeaves `quot` 2 - 1)%Z ∧
        ∀ x, x ∈ after → idLess (nodeId o) x y = true)).
Proof.
  intros Hless HL Hm.
  pose proof (mergeLeaves_sorted o a b r Hless Hm) as Hsr.
  pose proof (merged_sorted (nodeId o) a b Hless) as Hsm.
  apply mergeLeaves_Ok in Hm as (i & min & max & Hi & -> & -> & Hmm & Hr).
  pose proof (lookup_lt_Some _ _ _ Hi) as Hlen.
  assert (1 ≤ OverlayLeaves `quot` 2)%Z as Hq.
  { rewrite Z.quot_div_nonneg by lia.
    apply (Z.div_le_lower_bound OverlayLeaves 2 1); lia. }
  set (q := (OverlayLeaves `quot` 2)%Z) in *.
  set (m := merged (nodeId o) a b) in *.
  set (lo := Z.to_nat (Z.max 0 (Z.of_nat i - q))) in *.
  set (n := (Z.to_nat (Z.min (Z.of_nat (length m)) (Z.of_nat i + q)) - S i)%nat).
  assert (r = drop lo (take i m) ++ nodeId o :: take n (drop (S i) m)) as Hsplit.
  { assert (drop lo m = drop lo (take i m) ++ nodeId o :: drop (S i) m)
      as Hd.
    { rewrite <- (take_drop_middle m i _ Hi) at 1.
      apply drop_app_le. rewrite length_take. lia. }
    rewrite Hr. fold lo. rewrite Hd.
    rewrite take_app_ge by (rewrite length_drop, length_take; lia).
    f_equal. rewrite length_drop, length_take.
    replace (Z.to_nat (Z.min (Z.of_nat (length m)) (Z.of_nat i + q)
                       - Z.max 0 (Z.of_nat i - q)) - (i `min` length m - lo))%nat
      with (S n) by lia.
    done. }
  exists (drop lo (take i m)), (take n (drop (S i) m)).
  split; [done|]. split; [done|].
  split; [rewrite length_drop, length_take; lia|].
  split; [rewrite length_take, length_drop; lia|].
  split.
  - intros y Hy Hlt.
    apply (merged_elem_of (nodeId o) a b y Hless) in Hy. fold m in Hy.
    destruct (sorted_sides _ m i _ Hless Hsm Hi y Hy) as [Hbelow _].
    specialize (Hbelow Hlt).
    rewrite <- (take_drop lo (take i m)) in Hbelow.
    apply elem_of_app in Hbelow as [Hout|Hin]; [|by left].
    right. split.
    + rewrite length_drop, length_take.
      destruct (decide (lo = 0%nat)) as [Hz|Hnz]; [|lia].
      rewrite Hz in Hout. by apply elem_of_nil in Hout.
    + intros x Hx.
      assert (StronglySorted (λ x y, idLess (nodeId o) x y = true)
                (take lo (take i m) ++ drop lo (take i m))) as Hst.
      { rewrite take_drop. rewrite <- (take_drop i m) in Hsm.
        by apply StronglySorted_app_1_l in Hsm. }
      by eapply (StronglySorted_app_1_elem_of _ _ _ _ _ Hst).
  - intros y Hy Hlt.
    apply (merged_elem_of (nodeId o) a b y Hless) in Hy. fold m in Hy.
    destruct (sorted_sides _ m i _ Hless Hsm Hi y Hy) as [_ Habove].
    specialize (Habove Hlt).
    rewrite <- (take_drop n (drop (S i) m)) in Habove.
    apply elem_of_app in Habove as [Hin|Hout]; [by left|].
    right. split.
    + rewrite length_take, length_drop.
      destruct (decide (length m - S i ≤ n)%nat) as [Hz|Hnz]; [|lia].
      rewrite drop_ge in Hout by (rewrite length_drop; lia).
      by apply elem_of_nil in Hout.
    + intros x Hx.
      assert (StronglySorted (λ x y, idLess (nodeId o) x y = true)
                (take n (drop (S i) m) ++ drop n (drop (S i) m))) as Hst.
      { rewrite take_drop. rewrite <- (take_drop (S i) m) in Hsm.
        by apply StronglySorted_app_1_r in Hsm. }
      by eapply (StronglySorted_app_1_elem_of _ _ _ _ _ Hst).
Qed.

End Maintenance.

(** *** The order and the prefix of the data model as an instance *)

Lemma ring_less_strict_total (space origin : Z) :
  GoSort.strict_total (ring_less space origin).
Proof.
  unfold GoSort.strict_total, ring_less. split; [|split].
  - intros x. apply bool_decide_eq_false. lia.
  - intros x y z. rewrite !bool_decide_eq_true.
    generalize ((x - origin - 1) `mod` 2 ^ space)%Z.
    generalize ((y - origin - 1) `mod` 2 ^ space)%Z.
    generalize ((z - origin - 1) `mod` 2 ^ space)%Z. lia.
  - intros x y. rewrite !bool_decide_eq_false.
    generalize ((x - origin - 1) `mod` 2 ^ space)%Z.
    generalize ((y - origin - 1) `mod` 2 ^ space)%Z. lia.
Qed.

(** *** The claims at the node 100 of an 8-bit id space with base 4 *)

Local Open Scope Z_scope.



Lemma merge_keeps_incumbent_witness :
  let t := live node100 in
  let pre := prefix_digits 4 4 in
  (GoSort.strict_total (ring_less 8 (nodeId node100)) ∧ (0 ≤ 4)%Z ∧
   nodeId node100 ∈ leaves t ∧
   (∀ id, id ∈ received node100 ∅ state100 →
      is_Some (cell (routes t) (pre (nodeId node100) id).1
                 (pre (nodeId node100) id).2))) ∧
  (∀ id, id ∈ received node100 ∅ state100 ↔
     ∃ sid addrs, (sid, addrs) ∈ Addrs state100 ∧
       Big.SetString10 sid = Some id ∧ id ≠ nodeId node100) ∧
  ∃ t' a', merge 4 (ring_less 8) pre node100 t ∅ state100 = Ok (t', a') ∧
    (∀ r c old, cell (routes t) r c = Some (Some old) →
       cell (routes t') r c = Some (Some old)) ∧
    ∀ pre' id post r c,
      received node100 ∅ state100 = pre' ++ id :: post →
      pre (nodeId node100) id = (r, c) →
      ∃ rt1 rt2,
        install_all pre (nodeId node100) (routes t) pre' = Ok rt1 ∧
        install pre (nodeId node100) rt1 id = Ok rt2 ∧
        install_all pre (nodeId node100) rt2 post = Ok (routes t') ∧
        (cell rt1 r c = Some None →
           cell rt2 r c = Some (Some id) ∧
           cell (routes t') r c = Some (Some id)) ∧
        (∀ old, cell rt1 r c = Some (Some old) →
           rt2 = rt1 ∧ cell (routes t') r c = Some (Some old)).
Proof.
  intros t pre.
  pose proof (ring_less_strict_total 8 (nodeId node100)) as Hless.
  assert (0 ≤ 4)%Z as HL by lia.
  assert (nodeId node100 ∈ leaves t) as Hself.
  { apply list_elem_of_lookup. by exists 1%nat. }
  assert (∀ id, id ∈ received node100 ∅ state100 →
    is_Some (cell (routes t) (pre (nodeId node100) id).1
               (pre (nodeId node100) id).2)) as Hshape.
  { intros id Hin.
    change (received node100 ∅ state100) with [101; 36; 9]%Z in Hin.
    repeat (apply elem_of_cons in Hin as [->|Hin]; [by eexists|]).
    by apply elem_of_nil in Hin. }
  split; [done|].
  exact (merge_keeps_incumbent 4 (ring_less 8) pre node100 t ∅ state100
           Hless HL Hself Hshape).
Defined.

Lemma changed_needs_repair_witness :
  let t := Table [100] [[None; None; None; None]; [None; None; None; None];
                        [None; None; None; None]; [None; Some 101; None; None]]
  in
  (rectangular 4 4 (routes (live node100)) ∧ rectangular 4 4 (routes t)) ∧
  ∃ ch rep, changed node100 t = Ok (ch, rep) ∧
    (rep = true ↔
     ∃ r c, cell (routes t) r c = Some None ∧
       ∃ id, cell (routes (live node100)) r c = Some (Some id)).
Proof.
  intros t.
  assert (rectangular 4 4 (routes (live node100))) as H1.
  { split; [reflexivity|]. repeat constructor. }
  assert (rectangular 4 4 (routes t)) as H2.
  { split; [reflexivity|]. repeat constructor. }
  split; [done|].
  exact (changed_needs_repair node100 t 4 4 H1 H2).
Defined.

Lemma beater_passive_witness :
  let p := Peer 200 [] in
  p ∈ pool node100 ∧
  ∃ h, (p, h) ∈ beater node100 (λ _, node100) ∧
    (∀ h', (p, h') ∈ beater node100 (λ _, node100) → h' = h) ∧
    Dest h = peer_nodeId p ∧
    (Passive (State h) = true ↔ ¬ occurs (peer_nodeId p) (live node100)) ∧
    (peer_nodeId p ∈ leaves (live node100) → Passive (State h) = false).
Proof.
  intros p.
  assert (p ∈ pool node100) as Hp.
  { apply list_elem_of_lookup. by exists 1%nat. }
  split; [done|].
  exact (beater_passive node100 (λ _, node100) p Hp).
Defined.

Lemma node100_table_ok :
  table_ok (prefix_digits 4 4) (nodeId node100) (live node100).
Proof.
  split; [|split].
  - apply NoDup_cons. split; [|apply NoDup_singleton].
    by intros ?%list_elem_of_singleton.
  - apply list_elem_of_lookup. by exists 1%nat.
  - intros r c id Hc. unfold cell in Hc.
    do 4 (destruct r as [|r];
      [do 4 (destruct c as [|c];
         [simpl in Hc; simplify_eq; try (split; [done|reflexivity])|]);
       simpl in Hc; done|]).
    simpl in Hc. done.
Qed.

Lemma table_ok_preserved_witness :
  (GoSort.strict_total (ring_less 8 (nodeId node100)) ∧ (2 ≤ 4)%Z ∧
   table_ok (prefix_digits 4 4) (nodeId node100) (live node100)) ∧
  (∀ a b r, mergeLeaves 4 (ring_less 8) node100 a b = Ok r →
     NoDup r ∧ nodeId node100 ∈ r) ∧
  (∀ a s t' a',
     merge 4 (ring_less 8) (prefix_digits 4 4) node100 (live node100) a s
       = Ok (t', a') →
     table_ok (prefix_digits 4 4) (nodeId node100) t' ∧ routes_distinct t') ∧
  (∀ visit downs t',
     (∀ r i, visit r i ≡ₚ pool node100) →
     nodeId node100 ∉ (peer_nodeId <$> pool node100) →
     revoke 4 (ring_less 8) (prefix_digits 4 4) node100 visit (live node100)
       downs = Ok t' →
     table_ok (prefix_digits 4 4) (nodeId node100) t' ∧ routes_distinct t').
Proof.
  pose proof (ring_less_strict_total 8 (nodeId node100)) as Hless.
  assert (2 ≤ 4)%Z as HL by lia.
  pose proof node100_table_ok as Hok.
  split; [done|].
  exact (table_ok_preserved 4 (ring_less 8) (prefix_digits 4 4) node100
           (live node100) Hless HL Hok).
Defined.

(** C1, as stated, fails: the list that [mergeLeaves] returns holds the
    local id, and so do the leaves of the table that [merge] returns.  Here
    the node 100 merges a state naming 101 into its table; 101 is then both
    among the leaves and in a cell. *)
Lemma leaves_hold_self :
  mergeLeaves 4 (ring_less 8) node100 [17; 100] [101] = Ok [101; 17; 100] ∧
  ∃ t' a',
    merge 4 (ring_less 8) (prefix_digits 4 4) node100 (live node100) ∅
      (mkState [("101"%string, [])] 1 false false) = Ok (t', a') ∧
    leaves t' = [101; 17; 100] ∧ nodeId node100 ∈ leaves t' ∧
    cell (routes t') 3 1 = Some (Some 101).
Proof.
  split; [reflexivity|]. eexists _, _. split; [reflexivity|].
  split; [reflexivity|]. split; [|reflexivity].
  apply list_elem_of_lookup. by exists 2%nat.
Qed.

Lemma revoke_single_witness :
  let visit := λ _ _ : nat, pool node100 in
  let t := Table [36; 17; 100]
             [[Some 36; None; None; None]; [None; None; None; None];
              [None; None; None; None]; [None; None; None; None]] in
  (¬ occurs 101 t ∧
   GoSort.strict_total (ring_less 8 (nodeId node100)) ∧ (0 ≤ 4)%Z ∧
   nodeId node100 ∈ leaves t ∧ 36 ≠ nodeId node100 ∧
   (∀ r i, visit r i ≡ₚ pool node100) ∧
   36 ∉ (peer_nodeId <$> pool node100)) ∧
  revoke 4 (ring_less 8) (prefix_digits 4 4) node100 visit t [101] = Ok t ∧
  ∃ t', revoke 4 (ring_less 8) (prefix_digits 4 4) node100 visit t [36]
          = Ok t' ∧ ¬ occurs 36 t'.
Proof.
  intros visit t.
  assert (¬ occurs 101 t) as Hno.
  { intros [Hin|(r & c & Hc)].
    - repeat (apply elem_of_cons in Hin as [?|Hin]; [done|]).
      by apply elem_of_nil in Hin.
    - unfold cell in Hc.
      do 4 (destruct r as [|r];
        [do 4 (destruct c as [|c]; [simpl in Hc; simplify_eq|]);
         simpl in Hc; done|]).
      simpl in Hc. done. }
  pose proof (ring_less_strict_total 8 (nodeId node100)) as Hless.
  assert (0 ≤ 4)%Z as HL by lia.
  assert (nodeId node100 ∈ leaves t) as Hself.
  { apply list_elem_of_lookup. by exists 2%nat. }
  assert (36 ≠ nodeId node100) as Hne by done.
  assert (∀ r i, visit r i ≡ₚ pool node100) as Hvisit by done.
  assert (36 ∉ (peer_nodeId <$> pool node100)) as Hpool.
  { intros Hin. repeat (apply elem_of_cons in Hin as [?|Hin]; [done|]).
    by apply elem_of_nil in Hin. }
  split; [done|].
  destruct (revoke_single 4 (ring_less 8) (prefix_digits 4 4) node100 visit
              t 101) as [H1 _].
  destruct (revoke_single 4 (ring_less 8) (prefix_digits 4 4) node100 visit
              t 36) as [_ H2].
  split; [exact (H1 Hno)|exact (H2 Hless HL Hself Hne Hvisit Hpool)].
Defined.

(** C3, as stated, fails for an id whose peer is in the pool: [revoke] takes
    17 out of the leaves and out of its cell, and the repairs from the pool
    put it back in both. *)
Lemma revoke_pooled_id :
  occurs 17 (live node100) ∧
  ∃ t',
    revoke 4 (ring_less 8) (prefix_digits 4 4) node100
      (λ _ _, pool node100) (live node100) [17] = Ok t' ∧
    leaves t' = [200; 17; 100] ∧
    cell (routes t') 0 0 = Some (Some 17) ∧
    occurs 17 t'.
Proof.
  split; [left; apply list_elem_of_lookup; by exists 0%nat|].
  eexists. split; [reflexivity|]. split; [reflexivity|].
  split; [reflexivity|]. left. apply list_elem_of_lookup. by exists 1%nat.
Qed.

(** *** Further instances at the node 100 *)

(** A table of the node 100 with the leaf and route 36, which is not in its
    pool. *)
Lemma table36_ok :
  table_ok (prefix_digits 4 4) (nodeId node100)
    (Table [36; 17; 100]
       [[Some 36; None; None; None]; [None; None; None; None];
        [None; None; None; None]; [None; None; None; None]]).
Proof.
  split; [|split].
  - repeat (apply NoDup_cons; split;
      [intros Hin;
       repeat (apply elem_of_cons in Hin as [?|Hin]; [done|]);
       by apply elem_of_nil in Hin|]).
    apply NoDup_nil_2.
  - apply list_elem_of_lookup. by exists 2%nat.
  - intros r c id Hc. unfold cell in Hc.
    do 4 (destruct r as [|r];
      [do 4 (destruct c as [|c];
         [simpl in Hc; simplify_eq; try (split; [done|reflexivity])|]);
       simpl in Hc; done|]).
    simpl in Hc. done.
Qed.

Lemma revoke_spec_witness :
  let visit := λ _ _ : nat, pool node100 in
  let t := Table [36; 17; 100]
             [[Some 36; None; None; None]; [None; None; None; None];
              [None; None; None; None]; [None; None; None; None]] in
  (GoSort.strict_total (ring_less 8 (nodeId node100)) ∧ (0 ≤ 4)%Z ∧
   nodeId node100 ∈ leaves t ∧ (nodeId node100 ∉ [36]) ∧
   (∀ r i, visit r i ≡ₚ pool node100)) ∧
  ∃ t', revoke 4 (ring_less 8) (prefix_digits 4 4) node100 visit t [36]
          = Ok t' ∧
    (∀ id, id ∈ leaves t' →
       (id ∈ leaves t ∧ id ∉ [36]) ∨ id ∈ (peer_nodeId <$> pool node100)) ∧
    (Forall (λ x, x ∉ [36]) (leaves t) → leaves t' = leaves t) ∧
    (∀ r c, cell (routes t) r c = None → cell (routes t') r c = None) ∧
    (∀ r c, cell (routes t) r c = Some None →
       cell (routes t') r c = Some None) ∧
    (∀ r c id, cell (routes t) r c = Some (Some id) → id ∉ [36] →
       cell (routes t') r c = Some (Some id)) ∧
    (∀ r c id, cell (routes t) r c = Some (Some id) → id ∈ [36] →
       (cell (routes t') r c = Some None ∧
        ∀ p, p ∈ pool node100 →
          prefix_digits 4 4 (nodeId node100) (peer_nodeId p) ≠ (r, c)) ∨
       (∃ p, p ∈ pool node100 ∧
          prefix_digits 4 4 (nodeId node100) (peer_nodeId p) = (r, c) ∧
          cell (routes t') r c = Some (Some (peer_nodeId p)))).
Proof.
  intros visit t.
  pose proof (ring_less_strict_total 8 (nodeId node100)) as Hless.
  assert (0 ≤ 4)%Z as HL by lia.
  assert (nodeId node100 ∈ leaves t) as Hself.
  { apply list_elem_of_lookup. by exists 2%nat. }
  assert (nodeId node100 ∉ [36]) as Hup.
  { by intros ?%list_elem_of_singleton. }
  assert (∀ r i, visit r i ≡ₚ pool node100) as Hvisit by done.
  split; [done|].
  exact (revoke_spec 4 (ring_less 8) (prefix_digits 4 4) node100 visit t [36]
           Hless HL Hself Hup Hvisit).
Defined.

Lemma revoke_self_witness :
  let visit := λ _ _ : nat, pool node100 in
  (nodeId node100 ∈ leaves (live node100) ∧ nodeId node100 ∈ [17; 100] ∧
   (nodeId node100 ∉ (peer_nodeId <$> pool node100))) ∧
  revoke 4 (ring_less 8) (prefix_digits 4 4) node100 visit (live node100)
    [17; 100] = Fault IndexOutOfRange.
Proof.
  intros visit.
  assert (nodeId node100 ∈ leaves (live node100)) as Hself.
  { apply list_elem_of_lookup. by exists 1%nat. }
  assert (nodeId node100 ∈ [17; 100]) as Hdown.
  { apply list_elem_of_lookup. by exists 1%nat. }
  assert (nodeId node100 ∉ (peer_nodeId <$> pool node100)) as Hpool.
  { intros Hin. repeat (apply elem_of_cons in Hin as [?|Hin]; [done|]).
    by apply elem_of_nil in Hin. }
  split; [done|].
  exact (revoke_self 4 (ring_less 8) (prefix_digits 4 4) node100 visit
           (live node100) [17; 100] Hself Hdown Hpool).
Defined.

Lemma revoke_discover_witness :
  let visit := λ _ _ : nat, pool node100 in
  let t := Table [36; 17; 100]
             [[Some 36; None; None; None]; [None; None; None; None];
              [None; None; None; None]; [None; None; None; None]] in
  (GoSort.strict_total (ring_less 8 (nodeId node100)) ∧ (0 ≤ 4)%Z ∧
   table_ok (prefix_digits 4 4) (nodeId node100) t ∧
   (∀ r i, visit r i ≡ₚ pool node100)) ∧
  discover node100 t = [36] ∧
  ∃ t', revoke 4 (ring_less 8) (prefix_digits 4 4) node100 visit t
          (discover node100 t) = Ok t' ∧
        discover node100 t' = [].
Proof.
  intros visit t.
  pose proof (ring_less_strict_total 8 (nodeId node100)) as Hless.
  assert (0 ≤ 4)%Z as HL by lia.
  pose proof table36_ok as Hok.
  assert (∀ r i, visit r i ≡ₚ pool node100) as Hvisit by done.
  split; [done|]. split; [reflexivity|].
  exact (revoke_discover 4 (ring_less 8) (prefix_digits 4 4) node100 visit t
           Hless HL Hok Hvisit).
Defined.

Lemma changed_iff_differs_witness :
  let t := Table [17; 100]
             [[Some 17; None; None; None]; [None; None; None; None];
              [None; None; None; None]; [None; Some 101; None; None]] in
  (rectangular 4 4 (routes (live node100)) ∧ rectangular 4 4 (routes t)) ∧
  ∃ ch rep, changed node100 t = Ok (ch, rep) ∧
    (ch = false ↔ t = live node100) ∧ (rep = true → ch = true).
Proof.
  intros t.
  assert (rectangular 4 4 (routes (live node100))) as H1.
  { split; [reflexivity|]. repeat constructor. }
  assert (rectangular 4 4 (routes t)) as H2.
  { split; [reflexivity|]. repeat constructor. }
  split; [done|].
  exact (changed_iff_differs node100 t 4 4 H1 H2).
Defined.

Lemma mergeLeaves_stable_witness :
  (GoSort.strict_total (ring_less 8 (nodeId node100)) ∧ (2 ≤ 4)%Z ∧
   mergeLeaves 4 (ring_less 8) node100 [17; 100] [101; 9; 17]
     = Ok [9; 17; 100]) ∧
  StronglySorted (λ x y, ring_less 8 (nodeId node100) x y = true)
    [9; 17; 100] ∧
  mergeLeaves 4 (ring_less 8) node100 [9; 17; 100] [] = Ok [9; 17; 100].
Proof.
  pose proof (ring_less_strict_total 8 (nodeId node100)) as Hless.
  assert (2 ≤ 4)%Z as HL by lia.
  assert (mergeLeaves 4 (ring_less 8) node100 [17; 100] [101; 9; 17]
            = Ok [9; 17; 100]) as Hm by reflexivity.
  split; [done|].
  exact (mergeLeaves_stable 4 (ring_less 8) node100 [17; 100] [101; 9; 17]
           [9; 17; 100] Hless HL Hm).
Defined.

Lemma mergeLeaves_small_witness :
  (GoSort.strict_total (ring_less 8 (nodeId node100)) ∧
   nodeId node100 ∈ [17; 100] ++ [17] ∧
   (Z.of_nat (length ([17; 100] ++ [17])) ≤ 6 `quot` 2)%Z) ∧
  ∃ r, mergeLeaves 6 (ring_less 8) node100 [17; 100] [17] = Ok r ∧
       ∀ x, x ∈ r ↔ x ∈ [17; 100] ++ [17].
Proof.
  pose proof (ring_less_strict_total 8 (nodeId node100)) as Hless.
  assert (nodeId node100 ∈ [17; 100] ++ [17]) as Hself.
  { apply list_elem_of_lookup. by exists 1%nat. }
  assert (Z.of_nat (length ([17; 100] ++ [17])) ≤ 6 `quot` 2)%Z as Hlen.
  { by vm_compute. }
  split; [done|].
  exact (mergeLeaves_small 6 (ring_less 8) node100 [17; 100] [17]
           Hless Hself Hlen).
Defined.

Lemma merge_nothing_witness :
  let s := mkState [("100"%string, ["10.0.0.100:55555"%string]);
                    ("x1"%string, [])] 7 false true in
  (GoSort.strict_total (ring_less 8 (nodeId node100)) ∧ (2 ≤ 4)%Z ∧
   mergeLeaves 4 (ring_less 8) node100 [17; 100] []
     = Ok (leaves (live node100)) ∧
   received node100 ∅ s = []) ∧
  merge 4 (ring_less 8) (prefix_digits 4 4) node100 (live node100) ∅ s
    = Ok (live node100, ∅).
Proof.
  intros s.
  pose proof (ring_less_strict_total 8 (nodeId node100)) as Hless.
  assert (2 ≤ 4)%Z as HL by lia.
  assert (mergeLeaves 4 (ring_less 8) node100 [17; 100] []
            = Ok (leaves (live node100))) as Hlv by reflexivity.
  assert (received node100 ∅ s = []) as Hrec by reflexivity.
  split; [done|].
  exact (merge_nothing 4 (ring_less 8) (prefix_digits 4 4) node100
           (live node100) ∅ s [17; 100] [] Hless HL Hlv Hrec).
Defined.

Lemma merge_addrs_witness :
  let t' := Table [17; 36; 100]
              [[Some 17; None; None; None]; [None; None; None; None];
               [None; None; None; None]; [None; Some 101; None; None]] in
  let a' : gmap string (list string) :=
    <["9"%string := []]>
      (<["36"%string := ["10.0.0.36:55555"%string]]>
         (<["101"%string := ["10.0.0.101:55555"%string]]> ∅)) in
  (NoDup (Addrs state100).*1 ∧
   merge 4 (ring_less 8) (prefix_digits 4 4) node100 (live node100) ∅
     state100 = Ok (t', a')) ∧
  (∀ sid addrs id, (sid, addrs) ∈ Addrs state100 →
     Big.SetString10 sid = Some id → id ≠ nodeId node100 →
     a' !! sid = Some addrs) ∧
  (∀ sid,
     sid ∉ (Addrs state100).*1 ∨ Big.SetString10 sid = None ∨
     Big.SetString10 sid = Some (nodeId node100) →
     a' !! sid = (∅ : gmap string (list string)) !! sid).
Proof.
  intros t' a'.
  assert (NoDup (Addrs state100).*1) as Hnd.
  { apply (bool_decide_unpack _). by vm_compute. }
  assert (merge 4 (ring_less 8) (prefix_digits 4 4) node100 (live node100) ∅
            state100 = Ok (t', a')) as Hm by reflexivity.
  split; [done|].
  exact (merge_addrs 4 (ring_less 8) (prefix_digits 4 4) node100
           (live node100) t' ∅ a' state100 Hnd Hm).
Defined.

Lemma sendState_received_witness :
  let p := Peer 17 [] in
  let row := [Some 17; None; None; None] in
  routes (live node100) !!
    (prefix_digits 4 4 (nodeId node100) (peer_nodeId p)).1 = Some row ∧
  ∃ s, sendState (prefix_digits 4 4) node100 ["10.0.0.100:55555"%string] p true
         = Ok (p, Header (nodeId node100) s) ∧
    Updated s = time node100 ∧ Repair s = true ∧ Passive s = false ∧
    ∀ o2 a s', Addrs s' ≡ₚ Addrs s →
      ∀ id, id ∈ received o2 a s' ↔ id ≠ nodeId o2 ∧ spoken node100 row id.
Proof.
  intros p row.
  assert (routes (live node100) !!
            (prefix_digits 4 4 (nodeId node100) (peer_nodeId p)).1 = Some row)
    as Hrow by reflexivity.
  split; [done|].
  exact (proj2 (sendState_received (prefix_digits 4 4) node100
                  ["10.0.0.100:55555"%string] p true) row Hrow).
Defined.

Lemma sendJoin_merge_witness :
  let o := mkOverlay 36 [] (Table [36] []) 0 in
  let addrs := ["10.0.0.36:55555"%string] in
  let p := Peer 100 [] in
  let t' := Table [17; 36; 100]
              [[Some 17; None; None; None]; [None; None; None; None];
               [None; None; None; None]; [None; None; None; None]] in
  let a' : gmap string (list string) := <["36"%string := addrs]> ∅ in
  (nodeId node100 ≠ nodeId o ∧
   merge 4 (ring_less 8) (prefix_digits 4 4) node100 (live node100) ∅
     (State (sendJoin o addrs p).2) = Ok (t', a')) ∧
  (sendJoin o addrs p).1 = p ∧
  Dest (sendJoin o addrs p).2 = nodeId o ∧
  Updated (State (sendJoin o addrs p).2) = 0%Z ∧
  received node100 ∅ (State (sendJoin o addrs p).2) = [nodeId o] ∧
  a' !! Big.String (nodeId o) = Some addrs ∧
  (∀ sid, sid ≠ Big.String (nodeId o) →
     a' !! sid = (∅ : gmap string (list string)) !! sid).
Proof.
  intros o addrs p t' a'.
  assert (nodeId node100 ≠ nodeId o) as Hne by done.
  assert (merge 4 (ring_less 8) (prefix_digits 4 4) node100 (live node100) ∅
            (State (sendJoin o addrs p).2) = Ok (t', a')) as Hm by reflexivity.
  split; [done|].
  exact (sendJoin_merge 4 (ring_less 8) (prefix_digits 4 4) o node100 addrs p
           (live node100) t' ∅ a' Hne Hm).
Defined.

Lemma mergeLeaves_nearest_witness :
  (GoSort.strict_total (ring_less 8 (nodeId node100)) ∧ (2 ≤ 4)%Z ∧
   mergeLeaves 4 (ring_less 8) node100 [17; 100] [101; 9; 17]
     = Ok [9; 17; 100]) ∧
  ∃ before after,
    [9; 17; 100] = before ++ nodeId node100 :: after ∧
    StronglySorted (λ x y, ring_less 8 (nodeId node100) x y = true)
      [9; 17; 100] ∧
    (Z.of_nat (length before) ≤ 4 `quot` 2)%Z ∧
    (Z.of_nat (length after) < 4 `quot` 2)%Z ∧
    (∀ y, y ∈ [17; 100] ++ [101; 9; 17] →
       ring_less 8 (nodeId node100) y (nodeId node100) = true →
       y ∈ before ∨
       ((Z.of_nat (length before) = 4 `quot` 2)%Z ∧
        ∀ x, x ∈ before → ring_less 8 (nodeId node100) y x = true)) ∧
    (∀ y, y ∈ [17; 100] ++ [101; 9; 17] →
       ring_less 8 (nodeId node100) (nodeId node100) y = true →
       y ∈ after ∨
       ((Z.of_nat (length after) = 4 `quot` 2 - 1)%Z ∧
        ∀ x, x ∈ after → ring_less 8 (nodeId node100) x y = true)).
Proof.
  pose proof (ring_less_strict_total 8 (nodeId node100)) as Hless.
  assert (2 ≤ 4)%Z as HL by lia.
  assert (mergeLeaves 4 (ring_less 8) node100 [17; 100] [101; 9; 17]
            = Ok [9; 17; 100]) as Hm by reflexivity.
  split; [done|].
  exact (mergeLeaves_nearest 4 (ring_less 8) node100 [17; 100] [101; 9; 17]
           [9; 17; 100] Hless HL Hm).
Defined.

End Overlay.
